(** * Scanline pocketing of GCAM: [libgcode/gcode_pocket.c]

    A shallow embedding of [gcode_pocket_prep], [gcode_pocket_subtract] and
    [gcode_pocket_make], and the properties of the interval grids they build,
    carve and turn into motion.

    Conventions of the embedding.
    - [gfloat_t] is the field of rationals [Q]: arithmetic is exact, rounding
      of the machine type is not modelled.  The row count that line 66 of
      [gcode_pocket_prep] allocates and the number of runs of the loop of
      line 72 therefore agree here for a positive resolution and a
      non-negative size, which rounding can break.  The cast to [int] of
      line 66 is undefined outside the range of a 32-bit [int].
    - A C array is the list of its allocated slots; the count that the code
      keeps beside it ([line_num], [row_num]) is a separate field, exactly as
      in the structs.  Slots past the count hold whatever the allocator left
      there.
    - A read or write outside the allocated slots has no defined behaviour in
      C; it is the outcome [Undefined].  The functions return [void] and have
      no error path, so no function of the embedding ever produces
      [Failed]. *)

From Stdlib Require Import QArith Qabs Qround Lqa Lia String.
From stdpp Require Import base list.

Open Scope Q_scope.

(** ** Numbers *)

Abbreviation gfloat_t := Q (only parsing).

(** The comparison operators of C on [gfloat_t]. *)
Definition fle (x y : gfloat_t) : bool := Qle_bool x y.
Definition fge (x y : gfloat_t) : bool := Qle_bool y x.
Definition flt (x y : gfloat_t) : bool := negb (Qle_bool y x).
Definition fgt (x y : gfloat_t) : bool := negb (Qle_bool x y).

Infix "<=?" := fle (at level 70, no associativity) : Q_scope.
Infix ">=?" := fge (at level 70, no associativity) : Q_scope.
Infix "<?" := flt (at level 70, no associativity) : Q_scope.
Infix ">?" := fgt (at level 70, no associativity) : Q_scope.

Definition fabs (x : gfloat_t) : gfloat_t := Qabs x.

(** ** Outcomes *)

(** Modelled from the spec: the error taxonomy of section 7.  The header that
    would declare error codes is not part of the sources, and the three
    functions return [void]. *)
Inductive gcode_error : Type :=
| CapacityExceeded
| MismatchedGrids
| DegenerateGeometry
| InvalidTool.

Inductive outcome (A : Type) : Type :=
| Done (a : A)
| Failed (e : gcode_error)
| Undefined.

Arguments Done {A} a.
Arguments Failed {A} e.
Arguments Undefined {A}.

#[export] Instance outcome_ret : MRet outcome := λ A a, Done a.
#[export] Instance outcome_bind : MBind outcome := λ A B f c,
  match c with
  | Done a => f a
  | Failed e => Failed e
  | Undefined => Undefined
  end.

(** ** Arrays *)

(** [arr[i]] as an rvalue and [arr[i] = v]. *)
Definition read {A : Type} (arr : list A) (i : nat) : outcome A :=
  match arr !! i with
  | Some v => Done v
  | None => Undefined
  end.

Definition write {A : Type} (arr : list A) (i : nat) (v : A) : outcome (list A) :=
  if decide (i < length arr)%nat then Done (<[i:=v]> arr) else Undefined.

(** ** The data model *)

(** [gcode_vec2d_t] is [gfloat_t[2]]: component 0 is the start of a line,
    component 1 its end. *)
Abbreviation gcode_vec2d_t := (gfloat_t * gfloat_t)%type (only parsing).

Record gcode_pocket_row_t : Type := mk_row {
  line_num : nat;
  line_array : list gcode_vec2d_t;
  y : gfloat_t
}.

Record gcode_pocket_t : Type := mk_pocket {
  row_num : nat;
  seg_num : nat;
  row_array : list gcode_pocket_row_t;
  resolution : gfloat_t
}.

(** The lines a row holds: the first [line_num] slots of its array. *)
Definition lines (r : gcode_pocket_row_t) : list gcode_vec2d_t :=
  take (line_num r) (line_array r).

(** The rows a pocket holds. *)
Definition rows (p : gcode_pocket_t) : list gcode_pocket_row_t :=
  take (row_num p) (row_array p).

Definition wf_row (r : gcode_pocket_row_t) : Prop :=
  (line_num r ≤ length (line_array r))%nat.

Definition wf_pocket (p : gcode_pocket_t) : Prop :=
  (row_num p ≤ length (row_array p))%nat ∧ Forall wf_row (rows p).

Definition gcode_pocket_init (res : gfloat_t) : gcode_pocket_t :=
  {| row_num := 0; seg_num := 0; row_array := []; resolution := res |}.

(** ** gcode_pocket_subtract *)

Section subtract.

(** [GCODE_PRECISION] is defined in a header that is not part of the sources;
    it is a parameter of the development. *)
Variable GCODE_PRECISION : gfloat_t.

(** CASE 1, lines 234-237: both ends of [b] lie within [a], up to the
    precision. *)
Definition contained_within (b a : gcode_vec2d_t) : bool :=
  (b.1 + GCODE_PRECISION >=? a.1) && (b.1 - GCODE_PRECISION <=? a.2) &&
  (b.2 + GCODE_PRECISION >=? a.1) && (b.2 - GCODE_PRECISION <=? a.2).

(** CASE 2, lines 259-260. *)
Definition overlap_right (b a : gcode_vec2d_t) : bool :=
  (b.1 >? a.1) && (b.1 <? a.2).

(** CASE 3, lines 265-266. *)
Definition overlap_left (b a : gcode_vec2d_t) : bool :=
  (b.2 >? a.1) && (b.2 <? a.2).

(** Lines 240-244: [for (l = line_num - 1; l > j; l--) arr[l + 1] = arr[l]];
    [cnt] is the number of iterations left, the current [l] is [j + cnt]. *)
Fixpoint shift_up (cnt j : nat) (arr : list gcode_vec2d_t)
  : outcome (list gcode_vec2d_t) :=
  match cnt with
  | O => Done arr
  | S c =>
      let l := (j + S c)%nat in
      v ← read arr l;
      arr' ← write arr (l + 1) v;
      shift_up c j arr'
  end.

(** The state of the two inner loops: the line array of A's row, its
    [line_num], and the loop variable [j]. *)
Definition scan_state : Type := (list gcode_vec2d_t * nat * nat)%type.

(** The body of the [k] loop, lines 234-270, for the line [b] of B. *)
Definition subtract_line (st : scan_state) (b : gcode_vec2d_t) : outcome scan_state :=
  let '(arr, n, j) := st in
  a ← read arr j;
  if contained_within b a then
    arr1 ← shift_up (n - 1 - j) j arr;
    aj ← read arr1 j;
    arr2 ← write arr1 (j + 1) (b.2, aj.2);
    aj' ← read arr2 j;
    arr3 ← write arr2 j (aj'.1, b.1);
    Done (arr3, S n, S j)
  else if overlap_right b a then
    arr1 ← write arr j (a.1, b.1);
    Done (arr1, n, j)
  else if overlap_left b a then
    arr1 ← write arr j (b.2, a.2);
    Done (arr1, n, j)
  else Done (arr, n, j).

(** Lines 225-271: [for (k = 0; k < pocket_b->row_array[i].line_num; k++)];
    [cnt] is the number of iterations left. *)
Fixpoint subtract_k_loop (cnt k : nat) (barr : list gcode_vec2d_t)
    (st : scan_state) : outcome scan_state :=
  match cnt with
  | O => Done st
  | S c =>
      b ← read barr k;
      st' ← subtract_line st b;
      subtract_k_loop c (S k) barr st'
  end.

(** Lines 217-272: [for (j = 0; j < line_num; j++)].  Both [j] and [line_num]
    move inside the body, by the same amount, so [line_num - j] goes down by
    one per iteration: [fuel] is an upper bound of it. *)
Fixpoint subtract_j_loop (fuel : nat) (brows : list gcode_pocket_row_t) (i : nat)
    (arr : list gcode_vec2d_t) (n j : nat) : outcome (list gcode_vec2d_t * nat) :=
  match fuel with
  | O => Done (arr, n)
  | S f =>
      if decide (j < n)%nat then
        rb ← read brows i;
        '(arr', n', j') ← subtract_k_loop (line_num rb) 0 (line_array rb) (arr, n, j);
        subtract_j_loop f brows i arr' n' (S j')
      else Done (arr, n)
  end.

Definition subtract_row (brows : list gcode_pocket_row_t) (i : nat)
    (ra : gcode_pocket_row_t) : outcome gcode_pocket_row_t :=
  '(arr, n) ← subtract_j_loop (line_num ra) brows i (line_array ra) (line_num ra) 0;
  Done {| line_num := n; line_array := arr; y := y ra |}.

(** Lines 215-273: [for (i = 0; i < pocket_a->row_num; i++)]. *)
Fixpoint subtract_i_loop (cnt i : nat) (arows brows : list gcode_pocket_row_t)
  : outcome (list gcode_pocket_row_t) :=
  match cnt with
  | O => Done arows
  | S c =>
      ra ← read arows i;
      ra' ← subtract_row brows i ra;
      arows' ← write arows i ra';
      subtract_i_loop c (S i) arows' brows
  end.

(** [pocket_a] is updated in place, [pocket_b] is only read; the two are
    distinct objects. *)
Definition gcode_pocket_subtract (pocket_a pocket_b : gcode_pocket_t)
  : outcome gcode_pocket_t :=
  arows ← subtract_i_loop (row_num pocket_a) 0 (row_array pocket_a) (row_array pocket_b);
  Done {| row_num := row_num pocket_a; seg_num := seg_num pocket_a;
          row_array := arows; resolution := resolution pocket_a |}.

End subtract.

(** ** gcode_pocket_prep *)

(** The headers that declare [gcode_t], [gcode_tool_t] and [gcode_block_t] are
    not part of the sources; the records below hold the fields that
    [gcode_pocket.c] reads.  [material_size] and [material_origin] are the
    components of index 1 (the y axis) of the two vectors. *)
Record gcode_t : Type := mk_gcode {
  material_size : gfloat_t;
  material_origin : gfloat_t;
  ztraverse : gfloat_t
}.

Record gcode_tool_t : Type := mk_tool {
  diameter : gfloat_t
}.

(** Modelled from the spec: a boundary primitive, given a horizontal
    coordinate, returns all x crossing points.  The C callback receives
    [x_array] and [&x_index] and no capacity: [eval b y] is the sequence of
    values it stores at [x_array[x_index++]]. *)
Record gcode_block_t : Type := mk_block {
  eval : gfloat_t → list gfloat_t
}.

(** [gfloat_t x_array[64]] and [malloc (64 * sizeof (gcode_vec2d_t))]. *)
Definition X_CAPACITY : nat := 64.
Definition LINE_CAPACITY : nat := 64.

(** The range of [int], taken as 32 bits wide. *)
Definition INT_MIN : Z := - 2 ^ 31.
Definition INT_MAX : Z := 2 ^ 31 - 1.

(** The integral part of [q], towards zero. *)
Definition truncate (q : gfloat_t) : Z := Z.quot (Qnum q) (Zpos (Qden q)).

(** The cast [(int) q]: the integral part of [q]; the behaviour is undefined
    when it cannot be represented by an [int]. *)
Definition int_of_gfloat (q : gfloat_t) : outcome Z :=
  if decide (INT_MIN ≤ truncate q ≤ INT_MAX)%Z then Done (truncate q) else Undefined.

Section prep.

(** [qsort] with [gcode_util_qsort_compare_asc] and
    [gcode_util_remove_duplicate_scalars] are defined outside the sources:
    both act on the first [x_index] values of [x_array] and are parameters
    here.  So is the content of fresh storage. *)
Variable qsort_asc : list gfloat_t → list gfloat_t.
Variable gcode_util_remove_duplicate_scalars : list gfloat_t → list gfloat_t.
Variable uninit_scalar : gfloat_t.
Variable uninit_line : gcode_vec2d_t.
Variable uninit_row : gcode_pocket_row_t.

(** Modelled from the spec: the callbacks behind [eval] are not part of the
    sources.  The crossings of a scanline are pooled into a fixed-capacity
    scan buffer that is not bounds-checked (the design notes of the spec name
    its silent overflow); a callback is handed [x_array] and [&x_index] and
    no capacity, and stores its crossings at [x_array[x_index++]]. *)
Fixpoint store_scalars (vs : list gfloat_t) (x_array : list gfloat_t) (x_index : nat)
  : outcome (list gfloat_t * nat) :=
  match vs with
  | [] => Done (x_array, x_index)
  | v :: vs' =>
      x_array' ← write x_array x_index v;
      store_scalars vs' x_array' (S x_index)
  end.

(** Lines 79-83: the walk from [start_block] to [end_block]. *)
Fixpoint eval_chain (blocks : list gcode_block_t) (y0 : gfloat_t)
    (x_array : list gfloat_t) (x_index : nat) : outcome (list gfloat_t * nat) :=
  match blocks with
  | [] => Done (x_array, x_index)
  | b :: blocks' =>
      '(x_array', x_index') ← store_scalars (eval b y0) x_array x_index;
      eval_chain blocks' y0 x_array' x_index'
  end.

(** Lines 94-118: [for (i = 0; i + 1 < x_index; i += 2)].  The state is the
    line array of the row, its [line_num] and the pocket's [seg_num]; [fuel]
    bounds the number of iterations. *)
Fixpoint gen_lines (fuel : nat) (tool : gcode_tool_t) (xs : list gfloat_t)
    (x_index i : nat) (arr : list gcode_vec2d_t) (ln sn : nat)
  : outcome (list gcode_vec2d_t * nat * nat) :=
  match fuel with
  | O => Done (arr, ln, sn)
  | S f =>
      if decide (i + 1 < x_index)%nat then
        a ← read xs i;
        b ← read xs (i + 1);
        if fabs (b - a) >? diameter tool then
          arr' ← write arr ln (a + 0.1 * diameter tool, b - 0.1 * diameter tool);
          gen_lines f tool xs x_index (i + 2) arr' (S ln) (S sn)
        else gen_lines f tool xs x_index (i + 2) arr ln sn
      else Done (arr, ln, sn)
  end.

(** Lines 74-122: the body of the scanline loop at height [y0]. *)
Definition prep_row (tool : gcode_tool_t) (blocks : list gcode_block_t)
    (y0 : gfloat_t) (pocket : gcode_pocket_t) : outcome gcode_pocket_t :=
  '(x_array, x_index) ← eval_chain blocks y0 (replicate X_CAPACITY uninit_scalar) 0;
  let xs := gcode_util_remove_duplicate_scalars (qsort_asc (take x_index x_array)) in
  let x_index := length xs in
  let fresh := replicate LINE_CAPACITY uninit_line in
  '(arr, ln, sn) ←
    (if decide (2 ≤ x_index)%nat
     then gen_lines x_index tool xs x_index 0 fresh 0 (seg_num pocket)
     else Done (fresh, 0%nat, seg_num pocket));
  row_array' ← write (row_array pocket) (row_num pocket)
                  {| line_num := ln; line_array := arr; y := y0 |};
  Done {| row_num := S (row_num pocket); seg_num := sn;
          row_array := row_array'; resolution := resolution pocket |}.

(** Lines 72-123: [for (y = -origin; y <= size - origin; y += resolution)].
    Every iteration stores into [row_array[row_num]] and increments
    [row_num]; [fuel] is the number of allocated rows not yet used, and with
    none left the store is outside the allocation. *)
Fixpoint prep_y_loop (fuel : nat) (tool : gcode_tool_t) (blocks : list gcode_block_t)
    (y_max y0 : gfloat_t) (pocket : gcode_pocket_t) : outcome gcode_pocket_t :=
  match fuel with
  | O => if y0 <=? y_max then Undefined else Done pocket
  | S f =>
      if y0 <=? y_max then
        pocket' ← prep_row tool blocks y0 pocket;
        prep_y_loop f tool blocks y_max (y0 + resolution pocket) pocket'
      else Done pocket
  end.

(** [tool] is the result of [gcode_tool_find (start_block)], [blocks] the
    chain from [start_block] up to, not including, [end_block].  A zero
    [resolution] makes line 66 divide by zero and cast the result. *)
Definition gcode_pocket_prep (pocket : gcode_pocket_t) (gcode : gcode_t)
    (tool : gcode_tool_t) (blocks : list gcode_block_t) : outcome gcode_pocket_t :=
  if Qeq_bool (resolution pocket) 0 then Undefined
  else
    n ← int_of_gfloat (1 + material_size gcode / resolution pocket);
    let allocated := Z.to_nat n in
    let pocket0 := {| row_num := 0; seg_num := seg_num pocket;
                      row_array := replicate allocated uninit_row;
                      resolution := resolution pocket |} in
    prep_y_loop allocated tool blocks
      (material_size gcode - material_origin gcode) (- material_origin gcode) pocket0.

End prep.

(** ** gcode_pocket_make *)

(** Modelled from the spec: the motion sink accepts an ordered stream of typed
    events - comment, retract-to, rapid-move-to, rapid-plunge-to,
    feed-descend-to, feed-line-to.  The macros that emit them are defined
    outside the sources; each use of a macro is one event, named after it. *)
Inductive gcode_event : Type :=
| GCODE_APPEND (text : string)
| GCODE_COMMENT (format : string) (z : gfloat_t)
| GCODE_RETRACT (z : gfloat_t)
| GCODE_2D_MOVE (x y0 : gfloat_t) (comment : string)
| GCODE_PLUMMET (z : gfloat_t)
| GCODE_DESCEND (z : gfloat_t) (tool : gcode_tool_t)
| GCODE_2D_LINE (x y0 : gfloat_t) (comment : string).

Definition newline : string := String (Ascii.ascii_of_nat 10) EmptyString.

Section make.

Variable GCODE_PRECISION : gfloat_t.
Variable gcode : gcode_t.
Variables depth rapid_depth : gfloat_t.
Variable tool : gcode_tool_t.

(** Lines 167-179 and 191-202: what is emitted for one line, entered at
    [near] and cut to [far]. *)
Definition cut_line (near far y0 : gfloat_t) : list gcode_event :=
  [GCODE_RETRACT (ztraverse gcode); GCODE_2D_MOVE near y0 EmptyString] ++
  (if rapid_depth >=? depth - GCODE_PRECISION then [GCODE_PLUMMET rapid_depth] else []) ++
  [GCODE_DESCEND depth tool; GCODE_2D_LINE far y0 EmptyString].

(** Lines 155 and 187: the test before [continue]. *)
Definition too_narrow (l : gcode_vec2d_t) : bool :=
  fabs (l.1 - l.2) <? diameter tool.

(** Lines 153-180: [for (j = line_num - 1; j >= 0; j--)]; the argument is
    [j + 1]. *)
Fixpoint make_right_to_left (cnt : nat) (r : gcode_pocket_row_t)
  : outcome (list gcode_event) :=
  match cnt with
  | O => Done []
  | S j =>
      l ← read (line_array r) j;
      rest ← make_right_to_left j r;
      Done ((if too_narrow l then [] else cut_line l.2 l.1 (y r)) ++ rest)
  end.

(** Lines 185-203: [for (j = 0; j < line_num; j++)]; [cnt] is the number of
    iterations left. *)
Fixpoint make_left_to_right (cnt j : nat) (r : gcode_pocket_row_t)
  : outcome (list gcode_event) :=
  match cnt with
  | O => Done []
  | S c =>
      l ← read (line_array r) j;
      rest ← make_left_to_right c (S j) r;
      Done ((if too_narrow l then [] else cut_line l.1 l.2 (y r)) ++ rest)
  end.

(** Lines 147-205: [for (i = 0; i < pocket->row_num; i++)]. *)
Fixpoint make_rows (cnt i : nat) (pocket : gcode_pocket_t) : outcome (list gcode_event) :=
  match cnt with
  | O => Done []
  | S c =>
      r ← read (row_array pocket) i;
      evs ← (if decide (i mod 2 ≠ 0)%nat
             then make_right_to_left (line_num r) r
             else make_left_to_right (line_num r) 0 r);
      rest ← make_rows c (S i) pocket;
      Done (evs ++ rest)
  end.

(** The result is the sequence of events appended to [block]. *)
Definition gcode_pocket_make (pocket : gcode_pocket_t) : outcome (list gcode_event) :=
  if decide (seg_num pocket = 0)%nat then Done []
  else
    evs ← make_rows (row_num pocket) 0 pocket;
    Done ([GCODE_APPEND newline; GCODE_COMMENT "Pass depth: %z" depth;
           GCODE_APPEND newline] ++ evs ++ [GCODE_RETRACT (ztraverse gcode)]).

End make.

(** ** Rows as point sets, and the interval-row invariant *)

Definition covers (l : gcode_vec2d_t) (x : gfloat_t) : Prop := l.1 <= x <= l.2.

(** The union of the point sets of the lines of a row. *)
Definition covered (ls : list gcode_vec2d_t) (x : gfloat_t) : Prop :=
  ∃ l, l ∈ ls ∧ covers l x.

(** Every line ends no later than the next one starts. *)
Fixpoint left_to_right (ls : list gcode_vec2d_t) : Prop :=
  match ls with
  | a :: ls' =>
      match ls' with
      | b :: _ => a.2 <= b.1
      | [] => True
      end ∧ left_to_right ls'
  | [] => True
  end.

(** No two lines of the row overlap: the earlier one ends before the later
    one starts. *)
Definition non_overlapping (ls : list gcode_vec2d_t) : Prop :=
  ∀ i j a b, (i < j)%nat → ls !! i = Some a → ls !! j = Some b → a.2 <= b.1.

(** The invariant of an interval row: xStart ≤ xEnd for every line, lines
    ordered left to right and mutually non-overlapping. *)
Definition interval_row_invariant (ls : list gcode_vec2d_t) : Prop :=
  Forall (λ l, l.1 <= l.2) ls ∧ left_to_right ls ∧ non_overlapping ls.

(** What remains of it under a tolerance: a line may be inverted by at most
    [tol], and only consecutive lines are ordered. *)
Definition interval_row_invariant_upto (tol : gfloat_t) (ls : list gcode_vec2d_t) : Prop :=
  Forall (λ l, l.1 <= l.2 + tol) ls ∧ left_to_right ls.

(** ** The subtraction of one row, as a function on lists of lines *)

Section carve.

Variable GCODE_PRECISION : gfloat_t.

(** The lines that the [k] loop leaves in place of the line [a] of A, for the
    lines [bs] of B in stored order: the parts split off to the left, then
    what is left of [a]. *)
Fixpoint pieces (a : gcode_vec2d_t) (bs : list gcode_vec2d_t) : list gcode_vec2d_t :=
  match bs with
  | [] => [a]
  | b :: bs' =>
      if contained_within GCODE_PRECISION b a then (a.1, b.1) :: pieces (b.2, a.2) bs'
      else if overlap_right b a then pieces (a.1, b.1) bs'
      else if overlap_left b a then pieces (b.2, a.2) bs'
      else pieces a bs'
  end.

Definition carved (bs ls : list gcode_vec2d_t) : list gcode_vec2d_t :=
  flat_map (λ a, pieces a bs) ls.

End carve.

(** ** The lines of one scanline, as a function of its crossings *)

(** Crossings (0,1), (2,3), ... of the sorted array; a trailing single
    crossing is dropped. *)
Fixpoint crossing_pairs (xs : list gfloat_t) : list (gfloat_t * gfloat_t) :=
  match xs with
  | a :: xs' =>
      match xs' with
      | b :: rest => (a, b) :: crossing_pairs rest
      | [] => []
      end
  | [] => []
  end.

Definition wider_than_tool (tool : gcode_tool_t) (p : gfloat_t * gfloat_t) : bool :=
  fabs (p.2 - p.1) >? diameter tool.

Definition nudge (tool : gcode_tool_t) (p : gfloat_t * gfloat_t) : gcode_vec2d_t :=
  (p.1 + 0.1 * diameter tool, p.2 - 0.1 * diameter tool).

Definition kept_lines (tool : gcode_tool_t) (xs : list gfloat_t) : list gcode_vec2d_t :=
  map (nudge tool) (List.filter (wider_than_tool tool) (crossing_pairs xs)).

(** All crossings of the chain at height [y0], in chain order. *)
Definition crossings (blocks : list gcode_block_t) (y0 : gfloat_t) : list gfloat_t :=
  flat_map (λ b, eval b y0) blocks.

(** ** The motion stream, as the spec words it *)

Section stream.

Variable GCODE_PRECISION : gfloat_t.
Variable gcode : gcode_t.
Variables depth rapid_depth : gfloat_t.
Variable tool : gcode_tool_t.

(** Even rows are traversed in ascending stored order, odd rows in descending
    order. *)
Definition row_order (i : nat) (r : gcode_pocket_row_t) : list gcode_vec2d_t :=
  if Nat.even i then lines r else reverse (lines r).

(** The line is entered at its near end, relative to the direction of the
    row. *)
Definition near_far (i : nat) (l : gcode_vec2d_t) : gfloat_t * gfloat_t :=
  if Nat.even i then (l.1, l.2) else (l.2, l.1).

Definition row_stream (i : nat) (r : gcode_pocket_row_t) : list gcode_event :=
  flat_map
    (λ l, cut_line GCODE_PRECISION gcode depth rapid_depth tool
            (near_far i l).1 (near_far i l).2 (y r))
    (List.filter (λ l, negb (too_narrow tool l)) (row_order i r)).

Definition pass_header : list gcode_event :=
  [GCODE_APPEND newline; GCODE_COMMENT "Pass depth: %z" depth; GCODE_APPEND newline].

Definition motion_stream (pocket : gcode_pocket_t) : list gcode_event :=
  pass_header ++ concat (imap row_stream (rows pocket)) ++
  [GCODE_RETRACT (ztraverse gcode)].

Definition is_cut (e : gcode_event) : bool :=
  match e with
  | GCODE_2D_LINE _ _ _ => true
  | _ => false
  end.

(** What precedes the cut of a line entered at [near], on the row at [y0]. *)
Definition approach (near y0 : gfloat_t) : list gcode_event :=
  [GCODE_RETRACT (ztraverse gcode); GCODE_2D_MOVE near y0 EmptyString] ++
  (if rapid_depth >=? depth - GCODE_PRECISION then [GCODE_PLUMMET rapid_depth] else []) ++
  [GCODE_DESCEND depth tool].

(** Every cut of [evs] comes straight after the approach of a line of
    [pocket]: the cut goes to the far end of the line, the approach to its
    near end, both on the row of the line. *)
Definition cuts_approached (pocket : gcode_pocket_t) (evs : list gcode_event) : Prop :=
  ∀ pre x y0 c post,
    evs = pre ++ GCODE_2D_LINE x y0 c :: post →
    ∃ pre' i r l,
      rows pocket !! i = Some r ∧ l ∈ lines r ∧
      y0 = y r ∧ x = (near_far i l).2 ∧
      pre = pre' ++ approach (near_far i l).1 (y r).

End stream.

(** ** Sample grids *)

(** A row of capacity [cap] holding the lines [ls]; the free slots hold
    [(0, 0)]. *)
Definition row_of (cap : nat) (ls : list gcode_vec2d_t) (y0 : gfloat_t)
  : gcode_pocket_row_t :=
  {| line_num := length ls;
     line_array := ls ++ replicate (cap - length ls) (0, 0);
     y := y0 |}.

(** A grid made of the rows [rs]. *)
Definition pocket_of (res : gfloat_t) (rs : list gcode_pocket_row_t) : gcode_pocket_t :=
  {| row_num := length rs;
     seg_num := sum_list (line_num <$> rs);
     row_array := rs;
     resolution := res |}.

(** The result of a completed call; [dflt] otherwise. *)
Definition done_or {A : Type} (dflt : A) (o : outcome A) : A :=
  match o with
  | Done a => a
  | _ => dflt
  end.

Definition sample_precision : gfloat_t := 1 # 100000.

(** An outer line [0, 10] and an island [3, 7] on the same scanline. *)
Definition sample_outer : gcode_pocket_t := pocket_of 1 [row_of 4 [(0, 10)] 0].
Definition sample_island : gcode_pocket_t := pocket_of 1 [row_of 4 [(3, 7)] 0].
Definition sample_carved : gcode_pocket_t :=
  Eval vm_compute in
    done_or sample_outer (gcode_pocket_subtract sample_precision sample_outer sample_island).

(** A line of B that starts and ends half a precision past the end of the
    outer line. *)
Definition sample_past_end : gcode_pocket_t :=
  pocket_of 1 [row_of 4 [(2000001 # 200000, 2000001 # 200000)] 0].

(** A line of B that starts half a precision before the start of the outer
    line. *)
Definition sample_before_start : gcode_pocket_t :=
  pocket_of 1 [row_of 4 [(-1 # 200000, 5)] 0].

(** An island grid of another resolution, with more rows, at other
    heights. *)
Definition sample_mismatched : gcode_pocket_t :=
  pocket_of 2 [row_of 4 [(3, 7)] 5; row_of 4 [] 7; row_of 4 [] 9].

(** A sort and a removal of duplicates to run the scanline loop with: an
    insertion sort by [<=], and, modelled from the spec ("remove duplicates
    within a fixed epsilon"), the removal from a sorted list of every value
    that has a successor closer than [eps]. *)
Fixpoint insert_asc (x : gfloat_t) (xs : list gfloat_t) : list gfloat_t :=
  match xs with
  | [] => [x]
  | h :: t => if x <=? h then x :: xs else h :: insert_asc x t
  end.

Definition sample_qsort_asc (xs : list gfloat_t) : list gfloat_t :=
  foldr insert_asc [] xs.

Fixpoint sample_remove_duplicates (eps : gfloat_t) (xs : list gfloat_t) : list gfloat_t :=
  match xs with
  | [] => []
  | x :: rest =>
      match rest with
      | [] => [x]
      | z :: _ =>
          if fabs (z - x) <? eps then sample_remove_duplicates eps rest
          else x :: sample_remove_duplicates eps rest
      end
  end.

(** The square [0, 10] x [0, 10]: at every height the right edge is crossed
    at 10 and the left edge at 0.  Material of size 10 from the origin, a
    tool of diameter 1, rows one unit apart. *)
Definition sample_square : list gcode_block_t :=
  [{| eval := λ _, [10] |}; {| eval := λ _, [0] |}].

Definition sample_gcode : gcode_t :=
  {| material_size := 10; material_origin := 0; ztraverse := 5 |}.

Definition sample_tool : gcode_tool_t := {| diameter := 1 |}.

Definition sample_prep (blocks : list gcode_block_t) : outcome gcode_pocket_t :=
  gcode_pocket_prep sample_qsort_asc (sample_remove_duplicates sample_precision)
    0 (0, 0) (row_of 0 [] 0) (gcode_pocket_init 1) sample_gcode sample_tool blocks.

Definition sample_square_pocket : gcode_pocket_t :=
  Eval vm_compute in done_or (gcode_pocket_init 1) (sample_prep sample_square).


(** Two rows: a wide line and a narrow one, then two wide lines. *)
Definition sample_grid : gcode_pocket_t :=
  pocket_of 1 [row_of 4 [(0, 3); (7, 15 # 2)] 0; row_of 4 [(0, 4); (6, 10)] 1].

(** The stream of one pass over [sample_grid], at depth -1 with a rapid-safe
    depth of 0. *)
Definition sample_stream : list gcode_event :=
  Eval vm_compute in
    done_or [] (gcode_pocket_make sample_precision sample_gcode (-1) 0 sample_tool sample_grid).

(** ** Further notions and samples *)

(** A sorted array of crossings: no value is larger than the next one. *)
Fixpoint ascending (xs : list gfloat_t) : Prop :=
  match xs with
  | a :: xs' =>
      match xs' with
      | b :: _ => a <= b
      | [] => True
      end ∧ ascending xs'
  | [] => True
  end.

(** What the other functions read of a row: its lines and its height. *)
Definition visible_row (r : gcode_pocket_row_t) : list gcode_vec2d_t * gfloat_t :=
  (lines r, y r).

(** Every cut of [evs] is followed at once by a retract to the traverse
    height. *)
Definition cuts_retracted (gcode : gcode_t) (evs : list gcode_event) : Prop :=
  ∀ pre x y0 c post,
    evs = pre ++ GCODE_2D_LINE x y0 c :: post →
    ∃ post', post = GCODE_RETRACT (ztraverse gcode) :: post'.

Definition is_move (e : gcode_event) : bool :=
  match e with
  | GCODE_2D_MOVE _ _ _ => true
  | _ => false
  end.

(** Every rapid move of [evs] comes straight after a retract to the traverse
    height. *)
Definition moves_retracted (gcode : gcode_t) (evs : list gcode_event) : Prop :=
  ∀ pre x y0 c post,
    evs = pre ++ GCODE_2D_MOVE x y0 c :: post →
    ∃ pre', pre = pre' ++ [GCODE_RETRACT (ztraverse gcode)].

(** The open interior of a line. *)
Definition inside (l : gcode_vec2d_t) (x : gfloat_t) : Prop := l.1 < x < l.2.

(** [b] covers all of [a] and reaches past it on at least one side. *)
Definition swallows (b a : gcode_vec2d_t) : Prop :=
  b.1 <= a.1 ∧ a.2 <= b.2 ∧ (b.1 < a.1 ∨ a.2 < b.2).

(** Every line ends before any later line starts. *)
Definition strictly_apart (ls : list gcode_vec2d_t) : Prop :=
  ∀ i j a b, (i < j)%nat → ls !! i = Some a → ls !! j = Some b → a.2 < b.1.

(** The heights of the loop of line 72 from [y0] on: [y0], [y0 + res], ...
    as long as they do not exceed [y_max]; the height after the last one
    does. *)
Fixpoint stepped (y_max res y0 : gfloat_t) (ys : list gfloat_t) : Prop :=
  match ys with
  | [] => y_max < y0
  | y1 :: ys' => y1 = y0 ∧ y0 <= y_max ∧ stepped y_max res (y0 + res) ys'
  end.

(** The heights that the loop of line 72 visits from [y0] on, with [fuel]
    rows left in the allocation. *)
Fixpoint scan_heights (fuel : nat) (y_max res y0 : gfloat_t) : list gfloat_t :=
  match fuel with
  | O => []
  | S f => if y0 <=? y_max then y0 :: scan_heights f y_max res (y0 + res) else []
  end.

(** Two grids that agree on everything but the slots that hold no row or no
    line. *)
Definition same_visible (p q : gcode_pocket_t) : Prop :=
  row_num p = row_num q ∧ seg_num p = seg_num q ∧ resolution p = resolution q ∧
  length (row_array p) = length (row_array q) ∧
  visible_row <$> rows p = visible_row <$> rows q.


(** The same two islands, stored left to right. *)
Definition sample_islands : gcode_pocket_t := pocket_of 1 [row_of 4 [(1, 2); (6, 7)] 0].

(** An island line that covers the outer line with room to spare, an island
    grid without rows, and a grid whose rows hold no line. *)
Definition sample_covering : gcode_pocket_t := pocket_of 1 [row_of 4 [(-5, 20)] 0].
Definition sample_no_rows : gcode_pocket_t := pocket_of 1 [].
Definition sample_empty_rows : gcode_pocket_t :=
  pocket_of 1 [row_of 4 [] 0; row_of 4 [] 1].

(** Crossings of the square with a third, unpaired one. *)
Definition sample_odd : list gcode_block_t :=
  [{| eval := λ _, [10; 0; 12] |}].

(** * Properties *)

(** Equal up to the bracketing of appends. *)
Ltac app_norm := repeat first [rewrite <- app_assoc | progress simpl]; reflexivity.

(** Arithmetic on the lengths of appended lists. *)
Ltac app_length := repeat first [rewrite length_app | progress simpl]; lia.

(** ** Outcomes and arrays *)

Lemma bind_Done {A B : Type} (c : outcome A) (f : A → outcome B) (b : B) :
  c ≫= f = Done b ↔ ∃ a, c = Done a ∧ f a = Done b.
Proof.
  destruct c as [a|e|]; simpl; split.
  - intros H. by exists a.
  - by intros (a' & [= <-] & H).
  - done.
  - by intros (a' & [=] & _).
  - done.
  - by intros (a' & [=] & _).
Qed.

Lemma bind_not_Failed {A B : Type} (c : outcome A) (f : A → outcome B) :
  (∀ e, c ≠ Failed e) → (∀ a e, f a ≠ Failed e) → ∀ e, c ≫= f ≠ Failed e.
Proof.
  intros Hc Hf e. destruct c as [a|e'|]; simpl.
  - apply Hf.
  - by destruct (Hc e').
  - done.
Qed.

Section arrays.
Context {A : Type}.

Lemma read_Done (arr : list A) (i : nat) (v : A) :
  read arr i = Done v ↔ arr !! i = Some v.
Proof. unfold read. destruct (arr !! i); split; congruence. Qed.

Lemma read_not_Failed (arr : list A) (i : nat) (e : gcode_error) :
  read arr i ≠ Failed e.
Proof. unfold read. by destruct (arr !! i). Qed.

Lemma read_middle (pre post : list A) (x : A) (i : nat) :
  i = length pre → read (pre ++ x :: post) i = Done x.
Proof. intros ->. apply read_Done. by apply list_lookup_middle. Qed.

Lemma read_ge (arr : list A) (i : nat) :
  (length arr ≤ i)%nat → read arr i = Undefined.
Proof. intros H. unfold read. by rewrite lookup_ge_None_2. Qed.

Lemma write_Done (arr arr' : list A) (i : nat) (v : A) :
  write arr i v = Done arr' ↔ (i < length arr)%nat ∧ arr' = <[i:=v]> arr.
Proof.
  unfold write. case_decide; split.
  - by intros [= <-].
  - by intros [_ ->].
  - done.
  - intros [? _]. lia.
Qed.

Lemma write_not_Failed (arr : list A) (i : nat) (v : A) (e : gcode_error) :
  write arr i v ≠ Failed e.
Proof. unfold write. by case_decide. Qed.

Lemma write_middle (pre post : list A) (x v : A) (i : nat) :
  i = length pre → write (pre ++ x :: post) i v = Done (pre ++ v :: post).
Proof.
  intros ->. unfold write. rewrite decide_True.
  - f_equal. rewrite insert_app_r_alt by lia. by rewrite Nat.sub_diag.
  - rewrite length_app. simpl. lia.
Qed.

Lemma write_ge (arr : list A) (i : nat) (v : A) :
  (length arr ≤ i)%nat → write arr i v = Undefined.
Proof. intros H. unfold write. rewrite decide_False; [done | lia]. Qed.

End arrays.

(** ** The comparisons *)

Lemma fle_spec (x y : gfloat_t) : (x <=? y) = true ↔ x <= y.
Proof. apply Qle_bool_iff. Qed.

Lemma fge_spec (x y : gfloat_t) : (x >=? y) = true ↔ y <= x.
Proof. apply Qle_bool_iff. Qed.

Lemma flt_spec (x y : gfloat_t) : (x <? y) = true ↔ x < y.
Proof.
  unfold flt. rewrite negb_true_iff, <- not_true_iff_false, Qle_bool_iff.
  split; [apply Qnot_le_lt | apply Qlt_not_le].
Qed.

Lemma fgt_spec (x y : gfloat_t) : (x >? y) = true ↔ y < x.
Proof.
  unfold fgt. rewrite negb_true_iff, <- not_true_iff_false, Qle_bool_iff.
  split; [apply Qnot_le_lt | apply Qlt_not_le].
Qed.



Lemma fle_false (x y : gfloat_t) : (x <=? y) = false ↔ y < x.
Proof.
  unfold fle. rewrite <- not_true_iff_false, Qle_bool_iff.
  split; [apply Qnot_le_lt | apply Qlt_not_le].
Qed.

Lemma contained_within_spec (eps : gfloat_t) (b a : gcode_vec2d_t) :
  contained_within eps b a = true ↔
  a.1 <= b.1 + eps ∧ b.1 - eps <= a.2 ∧ a.1 <= b.2 + eps ∧ b.2 - eps <= a.2.
Proof.
  unfold contained_within.
  rewrite !andb_true_iff, !fge_spec, !fle_spec. tauto.
Qed.

Lemma overlap_right_spec (b a : gcode_vec2d_t) :
  overlap_right b a = true ↔ a.1 < b.1 ∧ b.1 < a.2.
Proof. unfold overlap_right. by rewrite andb_true_iff, fgt_spec, flt_spec. Qed.

Lemma overlap_left_spec (b a : gcode_vec2d_t) :
  overlap_left b a = true ↔ a.1 < b.2 ∧ b.2 < a.2.
Proof. unfold overlap_left. by rewrite andb_true_iff, fgt_spec, flt_spec. Qed.

(** ** gcode_pocket_subtract: from the arrays to lists of lines *)

Section subtract_arrays.

Variable eps : gfloat_t.

(** The shift moves the lines after [a] up by one slot; the first free slot
    [g] is overwritten, slot [j + 1] keeps its old value. *)
Lemma shift_up_app (post pre : list gcode_vec2d_t) (a g : gcode_vec2d_t)
    (junk : list gcode_vec2d_t) :
  shift_up (length post) (length pre) (pre ++ a :: post ++ g :: junk)
  = Done (pre ++ a :: hd g post :: post ++ junk).
Proof.
  revert g junk. induction post as [|z post IH] using rev_ind; intros g junk.
  - done.
  - rewrite length_app. simpl length. rewrite Nat.add_1_r. simpl shift_up.
    replace (pre ++ a :: (post ++ [z]) ++ g :: junk)
      with ((pre ++ a :: post) ++ z :: g :: junk) by app_norm.
    rewrite read_middle by app_length.
    simpl.
    replace ((pre ++ a :: post) ++ z :: g :: junk)
      with ((pre ++ a :: post ++ [z]) ++ g :: junk) by app_norm.
    rewrite write_middle by app_length.
    simpl.
    replace ((pre ++ a :: post ++ [z]) ++ z :: junk)
      with (pre ++ a :: post ++ z :: z :: junk) by app_norm.
    rewrite IH. do 3 f_equal.
    rewrite <- app_assoc. simpl. by destruct post.
Qed.

(** Without a free slot the shift, or the store that follows it, leaves the
    array. *)
Lemma shift_up_full (post pre : list gcode_vec2d_t) (a : gcode_vec2d_t) :
  post ≠ [] →
  shift_up (length post) (length pre) (pre ++ a :: post) = Undefined.
Proof.
  destruct post as [|z post _] using rev_ind; [done | intros _].
  rewrite length_app. simpl length. rewrite Nat.add_1_r. simpl shift_up.
  replace (pre ++ a :: post ++ [z]) with ((pre ++ a :: post) ++ [z]) by app_norm.
  rewrite read_middle by app_length.
  simpl. rewrite write_ge; [done | app_length].
Qed.

(** One comparison, on an array whose first [line_num] slots are
    [pre ++ a :: post], with [j] at [a]. *)
Lemma subtract_line_app (pre post junk : list gcode_vec2d_t) (a b : gcode_vec2d_t) :
  subtract_line eps
    (pre ++ a :: post ++ junk, (length pre + S (length post))%nat, length pre) b
  = if contained_within eps b a then
      match junk with
      | [] => Undefined
      | _ :: junk' =>
          Done ((pre ++ [(a.1, b.1)]) ++ (b.2, a.2) :: post ++ junk',
                S (length pre + S (length post)), S (length pre))
      end
    else if overlap_right b a then
      Done (pre ++ (a.1, b.1) :: post ++ junk,
            (length pre + S (length post))%nat, length pre)
    else if overlap_left b a then
      Done (pre ++ (b.2, a.2) :: post ++ junk,
            (length pre + S (length post))%nat, length pre)
    else
      Done (pre ++ a :: post ++ junk,
            (length pre + S (length post))%nat, length pre).
Proof.
  unfold subtract_line. rewrite read_middle by done. simpl.
  destruct (contained_within eps b a).
  - replace (length pre + S (length post) - 1 - length pre)%nat
      with (length post) by lia.
    destruct junk as [|g junk].
    + rewrite app_nil_r. destruct post as [|p post].
      * simpl. rewrite read_middle by done. simpl.
        rewrite write_ge; [done | app_length].
      * by rewrite shift_up_full.
    + rewrite shift_up_app. simpl.
      rewrite read_middle by done. simpl.
      replace (pre ++ a :: hd g post :: post ++ junk)
        with ((pre ++ [a]) ++ hd g post :: post ++ junk) by app_norm.
      rewrite write_middle by app_length.
      simpl.
      replace ((pre ++ [a]) ++ (b.2, a.2) :: post ++ junk)
        with (pre ++ a :: (b.2, a.2) :: post ++ junk) by app_norm.
      rewrite read_middle by done. simpl.
      rewrite write_middle by done. simpl.
      do 3 f_equal. app_norm.
  - destruct (overlap_right b a).
    + by rewrite write_middle.
    + destruct (overlap_left b a); [| done].
      by rewrite write_middle.
Qed.

Lemma pieces_length (a : gcode_vec2d_t) (bs : list gcode_vec2d_t) :
  (1 ≤ length (pieces eps a bs))%nat.
Proof.
  revert a. induction bs as [|b bs IH]; intros a; simpl; [lia |].
  destruct (contained_within eps b a); [simpl; lia |].
  destruct (overlap_right b a); [apply IH |].
  destruct (overlap_left b a); apply IH.
Qed.

#[local] Arguments subtract_line : simpl never.

(** The [k] loop replaces [a] by its pieces, as long as the array has room
    for them. *)
Lemma subtract_k_loop_app (cnt : nat) :
  ∀ (k : nat) (barr arr : list gcode_vec2d_t) (n j : nat)
    (pre : list gcode_vec2d_t) (a : gcode_vec2d_t) (post junk : list gcode_vec2d_t),
  arr = pre ++ a :: post ++ junk →
  n = (length pre + S (length post))%nat →
  j = length pre →
  (k + cnt ≤ length barr)%nat →
  subtract_k_loop eps cnt k barr (arr, n, j)
  = let ps := pieces eps a (take cnt (drop k barr)) in
    if decide (length ps ≤ S (length junk))%nat then
      Done (pre ++ ps ++ post ++ drop (length ps - 1) junk,
            (n + length ps - 1)%nat, (j + length ps - 1)%nat)
    else Undefined.
Proof.
  induction cnt as [|c IH]; intros k barr arr n j pre a post junk -> -> -> Hk.
  - cbn [subtract_k_loop take pieces length]. cbv zeta.
    rewrite decide_True by (simpl; lia). simpl.
    do 2 f_equal; [f_equal; lia | lia].
  - destruct (lookup_lt_is_Some_2 barr k) as [b Hb]; [lia |].
    rewrite (drop_S _ _ _ Hb). simpl take. simpl subtract_k_loop.
    rewrite (proj2 (read_Done _ _ _) Hb). simpl mbind.
    rewrite subtract_line_app. simpl pieces.
    destruct (contained_within eps b a).
    + destruct junk as [|g junk].
      * simpl. rewrite decide_False; [done |].
        pose proof (pieces_length (b.2, a.2) (take c (drop (S k) barr))). simpl. lia.
      * simpl mbind.
        rewrite (IH (S k) barr _ _ _ (pre ++ [(a.1, b.1)]) (b.2, a.2) post junk);
          [| done | app_length | app_length | lia].
        cbv zeta.
        pose proof (pieces_length (b.2, a.2) (take c (drop (S k) barr))) as Hlen.
        destruct (pieces eps (b.2, a.2) (take c (drop (S k) barr))) as [|p ps];
          [simpl in Hlen; lia | clear Hlen].
        simpl length. rewrite !Nat.sub_succ, !Nat.sub_0_r.
        destruct (decide (S (length ps) ≤ S (length junk))%nat);
          [rewrite decide_True by lia | rewrite decide_False by lia; done].
        simpl drop.
        f_equal. f_equal; [f_equal |]; [app_norm | lia | lia].
    + destruct (overlap_right b a); [| destruct (overlap_left b a)]; simpl mbind.
      * by rewrite (IH (S k) barr _ _ _ pre (a.1, b.1) post junk) by (done || lia).
      * by rewrite (IH (S k) barr _ _ _ pre (b.2, a.2) post junk) by (done || lia).
      * by rewrite (IH (S k) barr _ _ _ pre a post junk) by (done || lia).
Qed.

Lemma carved_length (bs ls : list gcode_vec2d_t) :
  (length ls ≤ length (carved eps bs ls))%nat.
Proof.
  induction ls as [|a ls IH]; simpl; [lia |].
  rewrite length_app. pose proof (pieces_length a bs). lia.
Qed.

(** With [j] at or past [line_num] the [j] loop is over, whatever the fuel. *)
Lemma subtract_j_loop_end (fuel : nat) (brows : list gcode_pocket_row_t) (i : nat)
    (arr : list gcode_vec2d_t) (n j : nat) :
  (n ≤ j)%nat → subtract_j_loop eps fuel brows i arr n j = Done (arr, n).
Proof.
  intros H. destruct fuel; simpl; [done |]. by rewrite decide_False by lia.
Qed.

(** The [j] loop replaces each remaining line by its pieces, as long as the
    array has room for them; the fuel is enough as soon as it covers the
    remaining lines. *)
Lemma subtract_j_loop_app (brows : list gcode_pocket_row_t) (i : nat)
    (rb : gcode_pocket_row_t) (post : list gcode_vec2d_t) :
  brows !! i = Some rb → wf_row rb →
  ∀ (fuel : nat) (pre junk : list gcode_vec2d_t),
  (length post ≤ fuel)%nat →
  subtract_j_loop eps fuel brows i (pre ++ post ++ junk)
    (length pre + length post) (length pre)
  = let new := carved eps (lines rb) post in
    if decide (length new ≤ length post + length junk)%nat then
      Done (pre ++ new ++ drop (length new - length post) junk,
            (length pre + length new)%nat)
    else Undefined.
Proof.
  intros Hrb Hwf. induction post as [|a post IH]; intros fuel pre junk Hfuel.
  - rewrite subtract_j_loop_end by (simpl; lia).
    cbv zeta. simpl carved. by rewrite decide_True by (simpl; lia).
  - destruct fuel as [|f]; [simpl in Hfuel; lia |].
    simpl in Hfuel. simpl subtract_j_loop.
    rewrite decide_True by lia.
    rewrite (proj2 (read_Done _ _ _) Hrb). simpl mbind.
    rewrite (subtract_k_loop_app (line_num rb) 0 (line_array rb) _ _ _
               pre a post junk) by (done || exact Hwf).
    cbv zeta. rewrite drop_0. fold (lines rb).
    pose proof (pieces_length a (lines rb)) as Hlen.
    pose proof (carved_length (lines rb) post) as Hcar.
    simpl carved. rewrite length_app.
    destruct (pieces eps a (lines rb)) as [|p ps] eqn:Hps;
      [simpl in Hlen; lia | clear Hlen].
    simpl length. rewrite Nat.sub_succ, Nat.sub_0_r.
    destruct (decide (S (length ps) ≤ S (length junk))%nat) as [Hroom|Hroom].
    + simpl mbind.
      pose proof (IH f (pre ++ p :: ps) (drop (length ps) junk) ltac:(lia)) as H.
      rewrite <- app_assoc in H. simpl app in H.
      rewrite length_app in H. simpl length in H.
      replace (length pre + S (length post) + S (length ps) - 1)%nat
        with (length pre + S (length ps) + length post)%nat by lia.
      replace (S (length pre + S (length ps) - 1))
        with (length pre + S (length ps))%nat by lia.
      rewrite H. clear H. cbv zeta.
      rewrite length_drop.
      destruct (decide (length (carved eps (lines rb) post)
                        ≤ length post + (length junk - length ps))%nat).
      * rewrite decide_True by lia. rewrite drop_drop.
        f_equal. f_equal; [| lia].
        rewrite <- ?app_assoc. simpl. do 5 f_equal. lia.
      * by rewrite decide_False by lia.
    + by rewrite decide_False by lia.
Qed.

(** Without a row of B to read, the loop fails at its first iteration. *)
Lemma subtract_j_loop_no_row (brows : list gcode_pocket_row_t) (i : nat)
    (fuel : nat) (arr : list gcode_vec2d_t) (n j : nat) :
  brows !! i = None → (j < n)%nat → (0 < fuel)%nat →
  subtract_j_loop eps fuel brows i arr n j = Undefined.
Proof.
  intros Hrb Hj Hfuel. destruct fuel; [lia |]. simpl.
  rewrite decide_True by done. unfold read. by rewrite Hrb.
Qed.

(** The subtraction of a row, on its lines. *)
Lemma subtract_row_spec (brows : list gcode_pocket_row_t) (i : nat)
    (ra rb : gcode_pocket_row_t) :
  wf_row ra → brows !! i = Some rb → wf_row rb →
  subtract_row eps brows i ra
  = let new := carved eps (lines rb) (lines ra) in
    if decide (length new ≤ length (line_array ra))%nat then
      Done {| line_num := length new;
              line_array := new ++ drop (length new) (line_array ra);
              y := y ra |}
    else Undefined.
Proof.
  intros Hwa Hrb Hwb. unfold subtract_row. unfold wf_row in Hwa.
  assert (Hlen : length (lines ra) = line_num ra)
    by (unfold lines; rewrite length_take; lia).
  pose proof (subtract_j_loop_app brows i rb (lines ra) Hrb Hwb
                (line_num ra) [] (drop (line_num ra) (line_array ra))) as H.
  rewrite Hlen in H. specialize (H ltac:(lia)).
  cbn [app length Nat.add] in H. unfold lines at 1 in H.
  rewrite take_drop in H. rewrite H. clear H. cbv zeta.
  rewrite length_drop.
  pose proof (carved_length (lines rb) (lines ra)) as Hcar.
  rewrite Hlen in Hcar.
  destruct (decide (length (carved eps (lines rb) (lines ra))
                    ≤ line_num ra + (length (line_array ra) - line_num ra))%nat).
  - rewrite decide_True by lia. simpl. do 2 f_equal.
    rewrite drop_drop. do 2 f_equal. lia.
  - by rewrite decide_False by lia.
Qed.

Lemma subtract_row_Done (brows : list gcode_pocket_row_t) (i : nat)
    (ra rb ra' : gcode_pocket_row_t) :
  wf_row ra → brows !! i = Some rb → wf_row rb →
  subtract_row eps brows i ra = Done ra' →
  lines ra' = carved eps (lines rb) (lines ra) ∧ y ra' = y ra ∧ wf_row ra' ∧
  length (line_array ra') = length (line_array ra).
Proof.
  intros Hwa Hrb Hwb. rewrite (subtract_row_spec brows i ra rb) by done.
  cbv zeta. case_decide as Hroom; [| done]. intros [= <-].
  unfold lines at 1, wf_row. simpl.
  rewrite take_app_length, length_app, length_drop. repeat split; lia.
Qed.

(** The [i] loop: the rows in its range are carved, the others are left
    alone. *)
Lemma subtract_i_loop_Done (brows : list gcode_pocket_row_t) (cnt : nat) :
  ∀ (i : nat) (arows arows' : list gcode_pocket_row_t),
  (∀ k ra, (i ≤ k < i + cnt)%nat → arows !! k = Some ra → wf_row ra) →
  (∀ k, (i ≤ k < i + cnt)%nat → ∃ rb, brows !! k = Some rb ∧ wf_row rb) →
  subtract_i_loop eps cnt i arows brows = Done arows' →
  length arows' = length arows ∧
  (∀ k, ¬ (i ≤ k < i + cnt)%nat → arows' !! k = arows !! k) ∧
  (∀ k ra rb, (i ≤ k < i + cnt)%nat →
     arows !! k = Some ra → brows !! k = Some rb →
     ∃ ra', arows' !! k = Some ra' ∧
       lines ra' = carved eps (lines rb) (lines ra) ∧ y ra' = y ra ∧
       wf_row ra' ∧ length (line_array ra') = length (line_array ra)).
Proof.
  induction cnt as [|c IH]; intros i arows arows' HA HB.
  - simpl. intros [= <-]. split; [done |]. split; [done |].
    intros k ra rb Hk. lia.
  - simpl. intros H.
    apply bind_Done in H as (ra & Hra & H). apply read_Done in Hra.
    apply bind_Done in H as (ra' & Hra' & H).
    apply bind_Done in H as (arows1 & Hw & H).
    apply write_Done in Hw as [Hi ->].
    destruct (HB i ltac:(lia)) as (rb & Hrb & Hwb).
    pose proof (HA i ra ltac:(lia) Hra) as Hwa.
    destruct (subtract_row_Done brows i ra rb ra' Hwa Hrb Hwb Hra')
      as (Hl & Hy & Hwf' & Hcap).
    apply IH in H as (Hlen & Hout & Hin).
    + rewrite length_insert in Hlen. split; [done |]. split.
      * intros k Hk. rewrite Hout by lia.
        apply list_lookup_insert_ne. lia.
      * intros k ra0 rb0 Hk Hra0 Hrb0.
        destruct (decide (k = i)) as [-> | Hne].
        -- rewrite Hout by lia. rewrite list_lookup_insert_eq by done.
           rewrite Hra in Hra0. rewrite Hrb in Hrb0.
           injection Hra0 as <-. injection Hrb0 as <-. by exists ra'.
        -- apply (Hin k ra0 rb0); [lia | | done].
           rewrite list_lookup_insert_ne by done. done.
    + intros k ra0 Hk. rewrite list_lookup_insert_ne by lia.
      apply HA. lia.
    + intros k Hk. apply HB. lia.
Qed.

(** The grid that a completed subtraction returns: same shape, every row
    carved by the row of B with the same index. *)
Lemma subtract_Done (pocket_a pocket_b pocket_a' : gcode_pocket_t) :
  wf_pocket pocket_a → wf_pocket pocket_b →
  (row_num pocket_a ≤ row_num pocket_b)%nat →
  gcode_pocket_subtract eps pocket_a pocket_b = Done pocket_a' →
  row_num pocket_a' = row_num pocket_a ∧
  seg_num pocket_a' = seg_num pocket_a ∧
  resolution pocket_a' = resolution pocket_a ∧
  wf_pocket pocket_a' ∧
  ∀ i ra rb, rows pocket_a !! i = Some ra → rows pocket_b !! i = Some rb →
    ∃ ra', rows pocket_a' !! i = Some ra' ∧
      lines ra' = carved eps (lines rb) (lines ra) ∧ y ra' = y ra.
Proof.
  intros [HnA HwA] [HnB HwB] Hrows H. unfold gcode_pocket_subtract in H.
  apply bind_Done in H as (arows & H & [= <-]).
  rewrite Forall_lookup in HwA, HwB.
  apply subtract_i_loop_Done in H as (Hlen & Hout & Hin).
  - simpl. repeat split; try done.
    + unfold rows. simpl. lia.
    + unfold rows. simpl. rewrite Forall_lookup. intros i ra' Hra'.
      apply lookup_take_Some in Hra' as [Hra' Hi].
      destruct (lookup_lt_is_Some_2 (row_array pocket_a) i) as [ra Hra]; [lia |].
      destruct (lookup_lt_is_Some_2 (row_array pocket_b) i) as [rb Hrb]; [lia |].
      destruct (Hin i ra rb ltac:(lia) Hra Hrb) as (ra0 & Hra0 & _ & _ & Hwf & _).
      congruence.
    + intros i ra rb Hra Hrb. unfold rows in *. simpl.
      apply lookup_take_Some in Hra as [Hra Hi].
      apply lookup_take_Some in Hrb as [Hrb _].
      destruct (Hin i ra rb ltac:(lia) Hra Hrb) as (ra' & Hra' & Hl & Hy & _).
      exists ra'. rewrite lookup_take_lt by done. done.
  - intros k ra Hk Hra. apply (HwA k). unfold rows.
    rewrite lookup_take_lt by lia. done.
  - intros k Hk.
    destruct (lookup_lt_is_Some_2 (row_array pocket_b) k) as [rb Hrb]; [lia |].
    exists rb. split; [done |]. apply (HwB k). unfold rows.
    rewrite lookup_take_lt by lia. done.
Qed.

(** A subtraction completes when every row of A has room for its pieces. *)
Lemma subtract_i_loop_total (brows : list gcode_pocket_row_t) (cnt : nat) :
  ∀ (i : nat) (arows : list gcode_pocket_row_t),
  (i + cnt ≤ length arows)%nat →
  (∀ k ra, (i ≤ k < i + cnt)%nat → arows !! k = Some ra → wf_row ra) →
  (∀ k, (i ≤ k < i + cnt)%nat → ∃ rb, brows !! k = Some rb ∧ wf_row rb) →
  (∀ k ra rb, (i ≤ k < i + cnt)%nat →
     arows !! k = Some ra → brows !! k = Some rb →
     (length (carved eps (lines rb) (lines ra)) ≤ length (line_array ra))%nat) →
  ∃ arows', subtract_i_loop eps cnt i arows brows = Done arows'.
Proof.
  induction cnt as [|c IH]; intros i arows Hlen HA HB Hroom.
  - by exists arows.
  - simpl.
    destruct (lookup_lt_is_Some_2 arows i) as [ra Hra]; [lia |].
    rewrite (proj2 (read_Done _ _ _) Hra). simpl.
    destruct (HB i ltac:(lia)) as (rb & Hrb & Hwb).
    pose proof (HA i ra ltac:(lia) Hra) as Hwa.
    rewrite (subtract_row_spec brows i ra rb) by done. cbv zeta.
    rewrite decide_True by (apply (Hroom i); [lia | done | done]).
    simpl. unfold write. rewrite decide_True by lia. simpl.
    apply IH.
    + rewrite length_insert. lia.
    + intros k ra0 Hk. rewrite list_lookup_insert_ne by lia. apply HA. lia.
    + intros k Hk. apply HB. lia.
    + intros k ra0 rb0 Hk. rewrite list_lookup_insert_ne by lia.
      apply Hroom. lia.
Qed.

Lemma subtract_total (pocket_a pocket_b : gcode_pocket_t) :
  wf_pocket pocket_a → wf_pocket pocket_b →
  (row_num pocket_a ≤ row_num pocket_b)%nat →
  (∀ i ra rb, rows pocket_a !! i = Some ra → rows pocket_b !! i = Some rb →
     (length (carved eps (lines rb) (lines ra)) ≤ length (line_array ra))%nat) →
  ∃ pocket_a', gcode_pocket_subtract eps pocket_a pocket_b = Done pocket_a'.
Proof.
  intros [HnA HwA] [HnB HwB] Hrows Hroom. unfold gcode_pocket_subtract.
  rewrite Forall_lookup in HwA, HwB.
  destruct (subtract_i_loop_total (row_array pocket_b) (row_num pocket_a) 0
              (row_array pocket_a)) as [arows Harows].
  - simpl. lia.
  - intros k ra Hk Hra. apply (HwA k). unfold rows.
    rewrite lookup_take_lt by lia. done.
  - intros k Hk.
    destruct (lookup_lt_is_Some_2 (row_array pocket_b) k) as [rb Hrb]; [lia |].
    exists rb. split; [done |]. apply (HwB k). unfold rows.
    rewrite lookup_take_lt by lia. done.
  - intros k ra rb Hk Hra Hrb. apply (Hroom k); unfold rows.
    + rewrite lookup_take_lt by lia. done.
    + rewrite lookup_take_lt by lia. done.
  - rewrite Harows. simpl. eauto.
Qed.

End subtract_arrays.

(** ** What carving does to the lines of a row *)

Lemma tolerance_succ (n : nat) (eps : gfloat_t) :
  inject_Z (Z.of_nat (S n)) * eps == inject_Z (Z.of_nat n) * eps + eps.
Proof.
  rewrite Nat2Z.inj_succ. unfold Z.succ. rewrite inject_Z_plus. ring.
Qed.

Lemma tolerance_nonneg (n : nat) (eps : gfloat_t) :
  0 <= eps → 0 <= inject_Z (Z.of_nat n) * eps.
Proof.
  intros H. apply Qmult_le_0_compat; [| done].
  change 0 with (inject_Z 0). rewrite <- Zle_Qle. lia.
Qed.

Lemma left_to_right_cons (a : gcode_vec2d_t) (ls : list gcode_vec2d_t) :
  left_to_right (a :: ls) ↔
  match ls with b :: _ => a.2 <= b.1 | [] => True end ∧ left_to_right ls.
Proof. done. Qed.

(** Only the end of the first line matters to what follows it. *)
Lemma left_to_right_head (a a' : gcode_vec2d_t) (ls : list gcode_vec2d_t) :
  a'.2 <= a.2 → left_to_right (a :: ls) → left_to_right (a' :: ls).
Proof.
  rewrite !left_to_right_cons. intros H [Hb Hls]. split; [| done].
  destruct ls; [done |]. lra.
Qed.

Lemma left_to_right_tail (a : gcode_vec2d_t) (ls : list gcode_vec2d_t) :
  left_to_right (a :: ls) → left_to_right ls.
Proof. rewrite left_to_right_cons. tauto. Qed.

(** Validity and the order of consecutive lines give the order of any two. *)
Lemma left_to_right_non_overlapping (ls : list gcode_vec2d_t) :
  Forall (λ l, l.1 <= l.2) ls → left_to_right ls → non_overlapping ls.
Proof.
  induction ls as [|a ls IH]; intros Hv Hltr i j x z Hij Hi Hj.
  - done.
  - apply Forall_cons in Hv as [Ha Hv].
    apply left_to_right_cons in Hltr as [Hab Hltr].
    destruct j as [|j]; [lia |]. simpl in Hj.
    destruct i as [|i].
    + injection Hi as <-. clear Hij. revert z j Hj.
      destruct ls as [|b ls]; [done |]. intros z j Hj.
      destruct j as [|j].
      * injection Hj as <-. done.
      * simpl in Hj. pose proof Hv as Hv0.
        apply Forall_cons in Hv0 as [Hb _].
        pose proof (IH Hv Hltr 0%nat (S j) b z ltac:(lia) eq_refl Hj).
        lra.
    + simpl in Hi. apply (IH Hv Hltr i j); [lia | done | done].
Qed.

Section carve_facts.

Variable eps : gfloat_t.
Hypothesis eps_nonneg : 0 <= eps.

(** Every piece of [a] lies within [a] widened by the precision, once per
    line of B. *)
Lemma pieces_within (bs : list gcode_vec2d_t) :
  ∀ (a l : gcode_vec2d_t), l ∈ pieces eps a bs →
  a.1 - inject_Z (Z.of_nat (length bs)) * eps <= l.1 ∧
  l.2 <= a.2 + inject_Z (Z.of_nat (length bs)) * eps.
Proof.
  induction bs as [|b bs IH]; intros a l Hl.
  - simpl in Hl. apply list_elem_of_singleton in Hl as ->.
    change (inject_Z (Z.of_nat (length (@nil (Q * Q))))) with 0. lra.
  - simpl length. rewrite tolerance_succ.
    pose proof (tolerance_nonneg (length bs) eps eps_nonneg) as Htol.
    simpl in Hl.
    destruct (contained_within eps b a) eqn:Hc.
    + apply contained_within_spec in Hc as (H1 & H2 & H3 & H4).
      apply elem_of_cons in Hl as [-> | Hl].
      * simpl. lra.
      * apply IH in Hl. simpl in Hl. lra.
    + destruct (overlap_right b a) eqn:Hr.
      * apply overlap_right_spec in Hr. apply IH in Hl. simpl in Hl. lra.
      * destruct (overlap_left b a) eqn:Hle.
        -- apply overlap_left_spec in Hle. apply IH in Hl. simpl in Hl. lra.
        -- apply IH in Hl. lra.
Qed.

(** No piece ends more than one precision after [a]. *)
Lemma pieces_end_bound (bs : list gcode_vec2d_t) :
  ∀ (a l : gcode_vec2d_t), l ∈ pieces eps a bs → l.2 <= a.2 + eps.
Proof.
  induction bs as [|b bs IH]; intros a l Hl; simpl in Hl.
  - apply list_elem_of_singleton in Hl as ->. lra.
  - destruct (contained_within eps b a) eqn:Hc.
    + apply contained_within_spec in Hc as (H1 & H2 & H3 & H4).
      apply elem_of_cons in Hl as [-> | Hl]; [simpl; lra |].
      apply IH in Hl. simpl in Hl. lra.
    + destruct (overlap_right b a) eqn:Hr.
      * apply overlap_right_spec in Hr. apply IH in Hl. simpl in Hl. lra.
      * destruct (overlap_left b a) eqn:Hle; apply IH in Hl; simpl in Hl; lra.
Qed.

(** No piece starts before a bound that [a] and the ends of all lines of B
    respect. *)
Lemma pieces_start_bound (lo : gfloat_t) (bs : list gcode_vec2d_t) :
  Forall (λ b, lo <= b.2) bs →
  ∀ (a l : gcode_vec2d_t), lo <= a.1 → l ∈ pieces eps a bs → lo <= l.1.
Proof.
  induction bs as [|b bs IH]; intros Hbs a l Ha Hl; simpl in Hl.
  - by apply list_elem_of_singleton in Hl as ->.
  - apply Forall_cons in Hbs as [Hb Hbs].
    destruct (contained_within eps b a).
    + apply elem_of_cons in Hl as [-> | Hl]; [done |]. by apply (IH Hbs (b.2, a.2)).
    + destruct (overlap_right b a); [by apply (IH Hbs (a.1, b.1)) |].
      destruct (overlap_left b a); [by apply (IH Hbs (b.2, a.2)) |].
      by apply (IH Hbs a).
Qed.

(** Against a row of B that satisfies the invariant, the start of [a] moves
    down at most once, by at most the precision. *)
Lemma pieces_start_sorted (bs : list gcode_vec2d_t) :
  interval_row_invariant bs →
  ∀ (a l : gcode_vec2d_t), l ∈ pieces eps a bs → a.1 - eps <= l.1.
Proof.
  induction bs as [|b bs IH]; intros (Hv & Hltr & Hno) a l Hl.
  - simpl in Hl. apply list_elem_of_singleton in Hl as ->. lra.
  - assert (Hlater : Forall (λ b', b.2 <= b'.2) bs).
    { rewrite Forall_lookup. intros k b' Hk.
      pose proof (Hno 0%nat (S k) b b' ltac:(lia) eq_refl Hk) as H1.
      rewrite Forall_lookup in Hv. pose proof (Hv (S k) b' Hk) as H2.
      simpl in H2. lra. }
    assert (Hbs : interval_row_invariant bs).
    { apply Forall_cons in Hv as [_ Hv]. apply left_to_right_tail in Hltr.
      split; [done |]. split; [done |].
      by apply left_to_right_non_overlapping. }
    simpl in Hl. destruct (contained_within eps b a) eqn:Hc.
    + apply contained_within_spec in Hc as (H1 & H2 & H3 & H4).
      apply elem_of_cons in Hl as [-> | Hl]; [simpl; lra |].
      apply (pieces_start_bound (a.1 - eps) bs) in Hl; [done | | simpl; lra].
      eapply Forall_impl; [exact Hlater |]. intros b' Hb'. simpl in Hb'. lra.
    + destruct (overlap_right b a) eqn:Hr; [by apply (IH Hbs (a.1, b.1)) |].
      destruct (overlap_left b a) eqn:Hle; [| by apply (IH Hbs a)].
      apply overlap_left_spec in Hle.
      apply (pieces_start_bound (a.1 - eps) bs) in Hl; [done | | simpl; lra].
      eapply Forall_impl; [exact Hlater |]. intros b' Hb'. simpl in Hb'. lra.
Qed.

Lemma carved_within_sorted (bs ls : list gcode_vec2d_t) (x : gfloat_t) :
  interval_row_invariant bs →
  covered (carved eps bs ls) x →
  ∃ a, a ∈ ls ∧ a.1 - eps <= x ∧ x <= a.2 + eps.
Proof.
  intros Hbs (l & Hl & Hx1 & Hx2). unfold carved in Hl.
  apply list_elem_of_In, in_flat_map in Hl as (a & Ha & Hl).
  apply list_elem_of_In in Ha, Hl.
  exists a. split; [done |].
  pose proof (pieces_start_sorted bs Hbs a l Hl).
  pose proof (pieces_end_bound bs a l Hl). lra.
Qed.

Lemma carved_within (bs ls : list gcode_vec2d_t) (x : gfloat_t) :
  covered (carved eps bs ls) x →
  ∃ a, a ∈ ls ∧
    a.1 - inject_Z (Z.of_nat (length bs)) * eps <= x ∧
    x <= a.2 + inject_Z (Z.of_nat (length bs)) * eps.
Proof.
  intros (l & Hl & Hx1 & Hx2). unfold carved in Hl.
  apply list_elem_of_In, in_flat_map in Hl as (a & Ha & Hl).
  apply list_elem_of_In in Ha, Hl.
  exists a. split; [done |].
  apply pieces_within in Hl. lra.
Qed.

(** A piece is inverted by at most the precision. *)
Lemma pieces_valid_upto (bs : list gcode_vec2d_t) :
  ∀ (a : gcode_vec2d_t), a.1 <= a.2 + eps →
  Forall (λ l, l.1 <= l.2 + eps) (pieces eps a bs).
Proof.
  induction bs as [|b bs IH]; intros a Ha; simpl.
  - by apply Forall_singleton.
  - destruct (contained_within eps b a) eqn:Hc.
    + apply contained_within_spec in Hc as (H1 & H2 & H3 & H4).
      apply Forall_cons. split; [simpl; lra |]. apply IH. simpl. lra.
    + destruct (overlap_right b a) eqn:Hr.
      * apply overlap_right_spec in Hr. apply IH. simpl. lra.
      * destruct (overlap_left b a) eqn:Hle.
        -- apply overlap_left_spec in Hle. apply IH. simpl. lra.
        -- by apply IH.
Qed.

(** The pieces of [a] fit, in order, between the line before [a] and the
    lines after it. *)
Lemma pieces_left_to_right (bs : list gcode_vec2d_t) :
  Forall (λ b, b.1 <= b.2) bs →
  ∀ (prev a : gcode_vec2d_t) (rest : list gcode_vec2d_t),
  left_to_right (prev :: a :: rest) →
  left_to_right (prev :: pieces eps a bs ++ rest).
Proof.
  induction bs as [|b bs IH]; intros Hbs prev a rest Hltr; [done |].
  apply Forall_cons in Hbs as [Hb Hbs]. simpl pieces.
  apply left_to_right_cons in Hltr as [Hpa Hltr].
  destruct (contained_within eps b a) eqn:Hc.
  - simpl app. apply left_to_right_cons. split; [done |].
    apply IH; [done |]. apply left_to_right_cons. split; [done |].
    apply (left_to_right_head a); [simpl; lra | done].
  - destruct (overlap_right b a) eqn:Hr.
    + apply overlap_right_spec in Hr. apply IH; [done |].
      apply left_to_right_cons. split; [done |].
      apply (left_to_right_head a); [simpl; lra | done].
    + destruct (overlap_left b a) eqn:Hle.
      * apply overlap_left_spec in Hle. apply IH; [done |].
        apply left_to_right_cons. split; [simpl in *; lra |].
        apply (left_to_right_head a); [simpl; lra | done].
      * apply IH; [done |]. by apply left_to_right_cons.
Qed.

Lemma carved_left_to_right (bs : list gcode_vec2d_t) :
  Forall (λ b, b.1 <= b.2) bs →
  ∀ (ls : list gcode_vec2d_t) (prev : gcode_vec2d_t),
  left_to_right (prev :: ls) → left_to_right (prev :: carved eps bs ls).
Proof.
  intros Hbs. induction ls as [|a ls IH]; intros prev Hltr; [done |].
  simpl carved. apply pieces_left_to_right; [done |].
  apply left_to_right_cons in Hltr as [Hpa Hltr].
  apply left_to_right_cons. split; [done |]. by apply IH.
Qed.

Lemma carved_invariant_upto (bs ls : list gcode_vec2d_t) :
  Forall (λ b, b.1 <= b.2) bs →
  Forall (λ l, l.1 <= l.2) ls → left_to_right ls →
  interval_row_invariant_upto eps (carved eps bs ls).
Proof.
  intros Hbs Hv Hltr. split.
  - unfold carved. clear Hltr. induction ls as [|a ls IH]; simpl; [done |].
    apply Forall_cons in Hv as [Ha Hv]. apply Forall_app. split.
    + apply pieces_valid_upto. lra.
    + by apply IH.
  - destruct ls as [|a ls]; [done |].
    apply (left_to_right_tail (a.1, a.1)).
    apply carved_left_to_right; [done |].
    apply left_to_right_cons. split; [simpl; lra | done].
Qed.

End carve_facts.

(** ** gcode_pocket_subtract: the claims *)

(** One comparison of the [k] loop, on the arrays: when the line [b] of B
    lies within the line [a] that [j] points at in A's row, both ends up to
    the precision, and the line array has a free slot, the comparison
    replaces [a] by
    [(a.start, b.start)] followed by [(b.end, a.end)], keeps every other line
    of the row in its order, increases the line count of the row by exactly
    one and moves [j] to the new line. *)
Lemma subtract_line_splits_contained (eps : gfloat_t)
    (arr : list gcode_vec2d_t) (n j : nat) (a b : gcode_vec2d_t) :
  (n < length arr)%nat → (j < n)%nat → arr !! j = Some a →
  contained_within eps b a = true →
  ∃ arr',
    subtract_line eps (arr, n, j) b = Done (arr', S n, S j) ∧
    length arr' = length arr ∧
    take (S n) arr'
    = take j (take n arr) ++ [(a.1, b.1); (b.2, a.2)] ++ drop (S j) (take n arr).
Proof.
  intros Hn Hj Ha Hc.
  assert (Harr : arr = take j arr ++ a :: drop (S j) (take n arr) ++ drop n arr).
  { rewrite <- (take_drop n arr) at 1.
    rewrite <- (take_drop j (take n arr)) at 1.
    rewrite take_take, Nat.min_l by lia.
    rewrite <- app_assoc. f_equal.
    rewrite (drop_S (take n arr) a j); [done |].
    by rewrite lookup_take_lt. }
  destruct (drop n arr) as [|g junk] eqn:Hjunk.
  { apply (f_equal length) in Hjunk. rewrite length_drop in Hjunk.
    simpl in Hjunk. lia. }
  assert (Hpre : length (take j arr) = j) by (rewrite length_take; lia).
  assert (Hpost : length (drop (S j) (take n arr)) = (n - S j)%nat)
    by (rewrite length_drop, length_take; lia).
  pose proof (subtract_line_app eps (take j arr) (drop (S j) (take n arr))
                (g :: junk) a b) as H.
  rewrite <- Harr, Hpre, Hpost, Hc in H.
  replace (j + S (n - S j))%nat with n in H by lia.
  eexists. split; [exact H |]. split.
  - pose proof (f_equal length Harr) as HL. revert HL. app_length.
  - rewrite take_take, Nat.min_l by lia.
    rewrite <- app_assoc. simpl.
    replace (S n) with (length (take j arr) + S (S (n - S j)))%nat by lia.
    rewrite take_app_add. f_equal. simpl. do 2 f_equal.
    rewrite <- Hpost at 1. by rewrite take_app_length.
Qed.

(** The comparison on a row of three lines in a four-slot array: the middle
    line is split around [(4, 5)], the last one moves up. *)
Lemma subtract_line_splits_contained_sample :
  ∃ arr',
    subtract_line (1 # 100000)
      ([(0, 1); (2, 7); (8, 9); (0, 0)], 3%nat, 1%nat) (4, 5)
    = Done (arr', 4%nat, 2%nat) ∧
    length arr' = 4%nat ∧
    take 4 arr' = [(0, 1)] ++ [(2, 4); (5, 7)] ++ [(8, 9)].
Proof.
  apply (subtract_line_splits_contained (1 # 100000)
           [(0, 1); (2, 7); (8, 9); (0, 0)] 3 1 (2, 7) (4, 5)).
  - simpl. lia.
  - lia.
  - reflexivity.
  - reflexivity.
Defined.

Lemma lines_length (r : gcode_pocket_row_t) :
  wf_row r → length (lines r) = line_num r.
Proof. unfold wf_row, lines. rewrite length_take. lia. Qed.

Lemma rows_lookup (p : gcode_pocket_t) (i : nat) (r : gcode_pocket_row_t) :
  rows p !! i = Some r → (i < row_num p)%nat ∧ row_array p !! i = Some r.
Proof. unfold rows. rewrite lookup_take_Some. tauto. Qed.

Lemma rows_wf (p : gcode_pocket_t) (i : nat) (r : gcode_pocket_row_t) :
  wf_pocket p → rows p !! i = Some r → wf_row r.
Proof. intros [_ H] Hr. rewrite Forall_lookup in H. by apply (H i). Qed.

(** C1, amended.  A completed subtraction on row-aligned grids can widen the
    coverage of a row only by the tolerance of the containment test: every
    point covered by row [i] of A after the call lies within
    [line_num(B_i) * GCODE_PRECISION] of a line that row [i] of A held before
    the call, and within [GCODE_PRECISION] of one when row [i] of B satisfies
    the interval-row invariant.  With a zero precision this is the claim as
    stated. *)
Theorem subtract_coverage_upto_precision (eps : gfloat_t)
    (pocket_a pocket_b pocket_a' : gcode_pocket_t) :
  0 <= eps →
  wf_pocket pocket_a → wf_pocket pocket_b →
  row_num pocket_a = row_num pocket_b →
  gcode_pocket_subtract eps pocket_a pocket_b = Done pocket_a' →
  ∀ (i : nat) (ra rb ra' : gcode_pocket_row_t) (x : gfloat_t),
  rows pocket_a !! i = Some ra → rows pocket_b !! i = Some rb →
  rows pocket_a' !! i = Some ra' →
  covered (lines ra') x →
  (∃ a, a ∈ lines ra ∧
     a.1 - inject_Z (Z.of_nat (line_num rb)) * eps <= x ∧
     x <= a.2 + inject_Z (Z.of_nat (line_num rb)) * eps) ∧
  (interval_row_invariant (lines rb) →
   ∃ a, a ∈ lines ra ∧ a.1 - eps <= x ∧ x <= a.2 + eps).
Proof.
  intros Heps HwA HwB Hrows Hsub i ra rb ra' x Hra Hrb Hra' Hx.
  destruct (subtract_Done eps pocket_a pocket_b pocket_a' HwA HwB ltac:(lia) Hsub)
    as (_ & _ & _ & _ & Hcarved).
  destruct (Hcarved i ra rb Hra Hrb) as (ra0 & Hra0 & Hl & _).
  rewrite Hra' in Hra0. injection Hra0 as <-.
  rewrite Hl in Hx. split.
  - rewrite <- (lines_length rb) by by eapply rows_wf.
    by apply carved_within.
  - intros Hinv. by apply (carved_within_sorted eps Heps (lines rb)).
Qed.

Lemma subtract_coverage_upto_precision_witness :
  (∃ a, a ∈ [(0, 10)] ∧
     a.1 - inject_Z (Z.of_nat 1) * sample_precision <= 2 ∧
     2 <= a.2 + inject_Z (Z.of_nat 1) * sample_precision) ∧
  (interval_row_invariant [(3, 7)] →
   ∃ a, a ∈ [(0, 10)] ∧ a.1 - sample_precision <= 2 ∧ 2 <= a.2 + sample_precision).
Proof.
  apply (subtract_coverage_upto_precision sample_precision
           sample_outer sample_island sample_carved
           ltac:(vm_compute; discriminate)
           ltac:(split; [simpl; lia | repeat constructor; unfold wf_row; simpl; lia])
           ltac:(split; [simpl; lia | repeat constructor; unfold wf_row; simpl; lia])
           eq_refl eq_refl
           0%nat (row_of 4 [(0, 10)] 0) (row_of 4 [(3, 7)] 0)
           (mk_row 2 [(0, 3); (7, 10); (0, 0); (0, 0)] 0) 2
           eq_refl eq_refl eq_refl).
  exists (0, 3). split.
  - apply list_elem_of_here.
  - split; vm_compute; discriminate.
Defined.

(** C1 as stated fails: the outer line [0, 10] and a line of B that sits
    half a precision past its end pass the containment test, and the left
    part of the split, [0, 10 + precision/2], covers a point that A did not
    cover. *)
Lemma subtract_coverage_can_grow :
  row_num sample_outer = row_num sample_past_end ∧
  ∃ pocket_a' ra ra' x,
    gcode_pocket_subtract sample_precision sample_outer sample_past_end = Done pocket_a' ∧
    rows sample_outer !! 0%nat = Some ra ∧
    rows pocket_a' !! 0%nat = Some ra' ∧
    covered (lines ra') x ∧ ¬ covered (lines ra) x.
Proof.
  split; [reflexivity |].
  eexists _, _, _, (2000001 # 200000). split; [vm_compute; reflexivity |].
  split; [reflexivity |]. split; [reflexivity |]. split.
  - exists (0, 2000001 # 200000). split.
    + apply list_elem_of_here.
    + split; vm_compute; discriminate.
  - intros (l & Hl & _ & Hx).
    apply list_elem_of_singleton in Hl as ->.
    vm_compute in Hx. by apply Hx.
Qed.

(** C3, amended.  On row-aligned grids whose rows satisfy the interval-row
    invariant, a completed subtraction leaves every row of A ordered left to
    right - each line ends no later than the next one starts - and no line
    inverted by more than the precision: [xStart ≤ xEnd + GCODE_PRECISION].
    With a zero precision this is [xStart ≤ xEnd]. *)
Theorem subtract_keeps_rows_ordered (eps : gfloat_t)
    (pocket_a pocket_b pocket_a' : gcode_pocket_t) :
  0 <= eps →
  wf_pocket pocket_a → wf_pocket pocket_b →
  row_num pocket_a = row_num pocket_b →
  Forall (λ r, interval_row_invariant (lines r)) (rows pocket_a) →
  Forall (λ r, interval_row_invariant (lines r)) (rows pocket_b) →
  gcode_pocket_subtract eps pocket_a pocket_b = Done pocket_a' →
  Forall (λ r, interval_row_invariant_upto eps (lines r)) (rows pocket_a').
Proof.
  intros Heps HwA HwB Hrows HiA HiB Hsub.
  destruct (subtract_Done eps pocket_a pocket_b pocket_a' HwA HwB ltac:(lia) Hsub)
    as (Hn & _ & _ & [Hn' _] & Hcarved).
  rewrite Forall_lookup in HiA, HiB. rewrite Forall_lookup. intros i ra' Hra'.
  apply rows_lookup in Hra' as Hi. destruct Hi as [Hi _].
  destruct HwA as [HnA _], HwB as [HnB _].
  destruct (lookup_lt_is_Some_2 (rows pocket_a) i) as [ra Hra];
    [unfold rows; rewrite length_take; lia |].
  destruct (lookup_lt_is_Some_2 (rows pocket_b) i) as [rb Hrb];
    [unfold rows; rewrite length_take; lia |].
  destruct (Hcarved i ra rb Hra Hrb) as (ra0 & Hra0 & Hl & _).
  rewrite Hra' in Hra0. injection Hra0 as <-. rewrite Hl.
  destruct (HiA i ra Hra) as (HvA & HoA & _).
  destruct (HiB i rb Hrb) as (HvB & _ & _).
  by apply carved_invariant_upto.
Qed.

Lemma sample_outer_wf : wf_pocket sample_outer.
Proof. split; [simpl; lia | repeat constructor; unfold wf_row; simpl; lia]. Defined.

Lemma sample_island_wf : wf_pocket sample_island.
Proof. split; [simpl; lia | repeat constructor; unfold wf_row; simpl; lia]. Defined.

Lemma single_line_invariant (l : gcode_vec2d_t) :
  l.1 <= l.2 → interval_row_invariant [l].
Proof.
  intros H. split; [by apply Forall_singleton |]. split; [done |].
  intros i j a b Hij Hi Hj. destruct j as [|j]; [lia |]. by destruct j.
Defined.

Lemma subtract_keeps_rows_ordered_witness :
  Forall (λ r, interval_row_invariant_upto sample_precision (lines r))
    (rows sample_carved).
Proof.
  apply (subtract_keeps_rows_ordered sample_precision
           sample_outer sample_island sample_carved
           ltac:(vm_compute; discriminate)
           sample_outer_wf sample_island_wf eq_refl).
  - apply Forall_singleton. apply single_line_invariant.
    vm_compute; discriminate.
  - apply Forall_singleton. apply single_line_invariant.
    vm_compute; discriminate.
  - reflexivity.
Defined.

(** C3 as stated fails: the outer line [0, 10] and the line
    [-precision/2, 5] of B both satisfy the invariant and pass the
    containment test, and the left part of the split is
    [0, -precision/2], whose start lies after its end. *)
Lemma subtract_can_invert_a_line :
  row_num sample_outer = row_num sample_before_start ∧
  Forall (λ r, interval_row_invariant (lines r)) (rows sample_outer) ∧
  Forall (λ r, interval_row_invariant (lines r)) (rows sample_before_start) ∧
  ∃ pocket_a',
    gcode_pocket_subtract sample_precision sample_outer sample_before_start
    = Done pocket_a' ∧
    ¬ Forall (λ r, interval_row_invariant (lines r)) (rows pocket_a').
Proof.
  split; [reflexivity |]. split; [| split].
  - apply Forall_singleton. apply single_line_invariant. vm_compute; discriminate.
  - apply Forall_singleton. apply single_line_invariant. vm_compute; discriminate.
  - eexists. split; [vm_compute; reflexivity |].
    intros H. apply Forall_cons in H as [(Hv & _) _].
    apply Forall_cons in Hv as [Hv _].
    vm_compute in Hv. by apply Hv.
Qed.

(** ** gcode_pocket_subtract has no rejection path *)

Section subtract_no_rejection.

Variable eps : gfloat_t.

Lemma shift_up_not_Failed (cnt j : nat) (arr : list gcode_vec2d_t) (e : gcode_error) :
  shift_up cnt j arr ≠ Failed e.
Proof.
  revert arr e. induction cnt as [|c IH]; intros arr e; simpl; [done |].
  apply bind_not_Failed; [apply read_not_Failed |]. intros v e'.
  apply bind_not_Failed; [apply write_not_Failed |]. intros arr' e''. apply IH.
Qed.

Lemma subtract_line_not_Failed (st : scan_state) (b : gcode_vec2d_t) (e : gcode_error) :
  subtract_line eps st b ≠ Failed e.
Proof.
  destruct st as [[arr n] j]. unfold subtract_line.
  apply bind_not_Failed; [apply read_not_Failed |]. intros a e'.
  destruct (contained_within eps b a).
  - apply bind_not_Failed; [apply shift_up_not_Failed |]. intros arr1 e1.
    apply bind_not_Failed; [apply read_not_Failed |]. intros aj e2.
    apply bind_not_Failed; [apply write_not_Failed |]. intros arr2 e3.
    apply bind_not_Failed; [apply read_not_Failed |]. intros aj' e4.
    apply bind_not_Failed; [apply write_not_Failed |]. done.
  - destruct (overlap_right b a); [| destruct (overlap_left b a)].
    + apply bind_not_Failed; [apply write_not_Failed | done].
    + apply bind_not_Failed; [apply write_not_Failed | done].
    + done.
Qed.

Lemma subtract_k_loop_not_Failed (cnt k : nat) (barr : list gcode_vec2d_t)
    (st : scan_state) (e : gcode_error) :
  subtract_k_loop eps cnt k barr st ≠ Failed e.
Proof.
  revert k st e. induction cnt as [|c IH]; intros k st e; simpl; [done |].
  apply bind_not_Failed; [apply read_not_Failed |]. intros b e'.
  apply bind_not_Failed; [apply subtract_line_not_Failed |]. intros st' e''.
  apply IH.
Qed.

Lemma subtract_j_loop_not_Failed (fuel : nat) (brows : list gcode_pocket_row_t)
    (i : nat) (arr : list gcode_vec2d_t) (n j : nat) (e : gcode_error) :
  subtract_j_loop eps fuel brows i arr n j ≠ Failed e.
Proof.
  revert arr n j e. induction fuel as [|f IH]; intros arr n j e; simpl; [done |].
  case_decide; [| done].
  apply bind_not_Failed; [apply read_not_Failed |]. intros rb e'.
  apply bind_not_Failed; [apply subtract_k_loop_not_Failed |].
  intros [[arr' n'] j'] e''. apply IH.
Qed.

Lemma subtract_i_loop_not_Failed (cnt i : nat) (arows brows : list gcode_pocket_row_t)
    (e : gcode_error) :
  subtract_i_loop eps cnt i arows brows ≠ Failed e.
Proof.
  revert i arows e. induction cnt as [|c IH]; intros i arows e; simpl; [done |].
  apply bind_not_Failed; [apply read_not_Failed |]. intros ra e'.
  apply bind_not_Failed.
  - intros e1. unfold subtract_row.
    apply bind_not_Failed; [apply subtract_j_loop_not_Failed |].
    by intros [arr n] e2.
  - intros ra' e1.
    apply bind_not_Failed; [apply write_not_Failed |]. intros arows' e2. apply IH.
Qed.

(** The [j] loop reads of B only the line count and the line array of the
    row with A's row index. *)
Lemma subtract_j_loop_ext (brows brows' : list gcode_pocket_row_t) (i : nat) :
  ((λ r, (line_num r, line_array r)) <$> brows !! i)
  = ((λ r, (line_num r, line_array r)) <$> brows' !! i) →
  ∀ (fuel : nat) (arr : list gcode_vec2d_t) (n j : nat),
  subtract_j_loop eps fuel brows i arr n j
  = subtract_j_loop eps fuel brows' i arr n j.
Proof.
  intros Hi. induction fuel as [|f IH]; intros arr n j; simpl; [done |].
  case_decide; [| done]. unfold read.
  destruct (brows !! i) as [rb|], (brows' !! i) as [rb'|]; simpl in Hi; try done.
  injection Hi as Hn Ha. simpl. rewrite Hn, Ha.
  destruct (subtract_k_loop eps (line_num rb') 0 (line_array rb') (arr, n, j))
    as [[[arr' n'] j']| |]; simpl; [apply IH | done | done].
Qed.

Lemma subtract_i_loop_ext (brows brows' : list gcode_pocket_row_t) (cnt : nat) :
  ∀ (i : nat) (arows : list gcode_pocket_row_t),
  (∀ k, (i ≤ k < i + cnt)%nat →
     ((λ r, (line_num r, line_array r)) <$> brows !! k)
     = ((λ r, (line_num r, line_array r)) <$> brows' !! k)) →
  subtract_i_loop eps cnt i arows brows = subtract_i_loop eps cnt i arows brows'.
Proof.
  induction cnt as [|c IH]; intros i arows Hk; simpl; [done |].
  destruct (read arows i) as [ra| |]; simpl; [| done | done].
  unfold subtract_row.
  rewrite (subtract_j_loop_ext brows brows' i) by (apply Hk; lia).
  destruct (subtract_j_loop eps (line_num ra) brows' i (line_array ra) (line_num ra) 0)
    as [[arr n]| |]; simpl; [| done | done].
  destruct (write arows i _) as [arows'| |]; simpl; [| done | done].
  apply IH. intros k Hk'. apply Hk. lia.
Qed.

End subtract_no_rejection.

(** C9, amended.  [gcode_pocket_subtract] validates nothing and rejects
    nothing: it never ends in a failure, and of grid B it reads only the line
    counts and line arrays of the rows whose index is below A's row count,
    pairing them with A's rows by index - the resolution of B, its row count,
    its segment count and the heights of its rows have no influence on the
    outcome. *)
Theorem subtract_pairs_rows_by_index (eps : gfloat_t) (pocket_a pocket_b : gcode_pocket_t) :
  (∀ e, gcode_pocket_subtract eps pocket_a pocket_b ≠ Failed e) ∧
  (∀ pocket_b',
     (∀ i, (i < row_num pocket_a)%nat →
        ((λ r, (line_num r, line_array r)) <$> row_array pocket_b !! i)
        = ((λ r, (line_num r, line_array r)) <$> row_array pocket_b' !! i)) →
     gcode_pocket_subtract eps pocket_a pocket_b
     = gcode_pocket_subtract eps pocket_a pocket_b').
Proof.
  split.
  - intros e. unfold gcode_pocket_subtract.
    apply bind_not_Failed; [apply subtract_i_loop_not_Failed | done].
  - intros pocket_b' H. unfold gcode_pocket_subtract.
    rewrite (subtract_i_loop_ext eps (row_array pocket_b) (row_array pocket_b')); [done |].
    intros k Hk. apply H. lia.
Qed.

Lemma subtract_pairs_rows_by_index_witness :
  gcode_pocket_subtract sample_precision sample_outer sample_island
  = gcode_pocket_subtract sample_precision sample_outer sample_mismatched.
Proof.
  apply (proj2 (subtract_pairs_rows_by_index sample_precision sample_outer
                  sample_island) sample_mismatched).
  intros i Hi. destruct i as [|i]; [reflexivity | simpl in Hi; lia].
Defined.

(** C9 as stated fails: the grids differ in resolution, in row count and in
    the heights of their rows, and the call completes with the island of B
    carved out of row 0 of A. *)
Lemma subtract_accepts_mismatched_grids :
  ¬ resolution sample_outer == resolution sample_mismatched ∧
  row_num sample_outer ≠ row_num sample_mismatched ∧
  y <$> rows sample_outer ≠ y <$> rows sample_mismatched ∧
  gcode_pocket_subtract sample_precision sample_outer sample_mismatched
  = Done sample_carved ∧
  lines <$> rows sample_outer = [[(0, 10)]] ∧
  lines <$> rows sample_carved = [[(0, 3); (7, 10)]].
Proof.
  split; [vm_compute; discriminate |].
  split; [vm_compute; discriminate |].
  split; [vm_compute; discriminate |].
  split; [vm_compute; reflexivity |].
  split; reflexivity.
Qed.

(** ** gcode_pocket_make: from the loops to the stream *)

Section make_stream.

Variable eps : gfloat_t.
Variable gcode : gcode_t.
Variables depth rapid_depth : gfloat_t.
Variable tool : gcode_tool_t.

Abbreviation cut_of i r l :=
  (cut_line eps gcode depth rapid_depth tool (near_far i l).1 (near_far i l).2 (y r)).

Abbreviation wide_enough := (λ l, negb (too_narrow tool l)).

(** The ascending loop over the slots [j .. j + cnt - 1] of the row. *)
Lemma make_left_to_right_stream (r : gcode_pocket_row_t) (i cnt : nat) :
  Nat.even i = true →
  ∀ j, (j + cnt ≤ length (line_array r))%nat →
  make_left_to_right eps gcode depth rapid_depth tool cnt j r
  = Done (flat_map (λ l, cut_of i r l)
            (List.filter wide_enough (take cnt (drop j (line_array r))))).
Proof.
  intros Hi. induction cnt as [|c IH]; intros j Hj; [done |].
  destruct (lookup_lt_is_Some_2 (line_array r) j) as [l Hl]; [lia |].
  simpl make_left_to_right. rewrite (proj2 (read_Done _ _ _) Hl). simpl mbind.
  rewrite IH by lia. simpl mbind.
  rewrite (drop_S _ _ _ Hl). simpl take. simpl List.filter.
  unfold near_far. rewrite Hi.
  by destruct (too_narrow tool l).
Qed.

(** The descending loop over the slots [cnt - 1 .. 0] of the row. *)
Lemma make_right_to_left_stream (r : gcode_pocket_row_t) (i cnt : nat) :
  Nat.even i = false →
  (cnt ≤ length (line_array r))%nat →
  make_right_to_left eps gcode depth rapid_depth tool cnt r
  = Done (flat_map (λ l, cut_of i r l)
            (List.filter wide_enough (reverse (take cnt (line_array r))))).
Proof.
  intros Hi. induction cnt as [|c IH]; intros Hc; [done |].
  destruct (lookup_lt_is_Some_2 (line_array r) c) as [l Hl]; [lia |].
  simpl make_right_to_left. rewrite (proj2 (read_Done _ _ _) Hl). simpl mbind.
  rewrite IH by lia. simpl mbind.
  rewrite (take_S_r _ _ _ Hl), reverse_snoc. simpl List.filter.
  unfold near_far. rewrite Hi.
  by destruct (too_narrow tool l).
Qed.

Lemma make_row_stream (i : nat) (r : gcode_pocket_row_t) :
  wf_row r →
  (if decide (i mod 2 ≠ 0)%nat
   then make_right_to_left eps gcode depth rapid_depth tool (line_num r) r
   else make_left_to_right eps gcode depth rapid_depth tool (line_num r) 0 r)
  = Done (row_stream eps gcode depth rapid_depth tool i r).
Proof.
  intros Hwf. unfold row_stream, row_order, lines.
  destruct (Nat.even i) eqn:Hi.
  - rewrite decide_False.
    + by rewrite (make_left_to_right_stream r i) by done.
    + apply Nat.even_spec in Hi as [k ->]. intros H. apply H.
      rewrite Nat.mul_comm. apply Nat.Div0.mod_mul.
  - rewrite decide_True.
    + by rewrite (make_right_to_left_stream r i) by done.
    + intros H. apply Nat.Div0.mod_divides in H as [k ->].
      rewrite Nat.even_mul in Hi. done.
Qed.

(** The loop over the rows [i .. i + cnt - 1]. *)
Lemma make_rows_stream (pocket : gcode_pocket_t) (cnt : nat) :
  ∀ i, (i + cnt ≤ length (row_array pocket))%nat →
  Forall wf_row (take cnt (drop i (row_array pocket))) →
  make_rows eps gcode depth rapid_depth tool cnt i pocket
  = Done (concat (imap (λ k, row_stream eps gcode depth rapid_depth tool (i + k))
                    (take cnt (drop i (row_array pocket))))).
Proof.
  induction cnt as [|c IH]; intros i Hi Hwf; [done |].
  destruct (lookup_lt_is_Some_2 (row_array pocket) i) as [r Hr]; [lia |].
  rewrite (drop_S _ _ _ Hr) in Hwf |- *. simpl take in Hwf |- *.
  apply Forall_cons in Hwf as [Hwr Hwf].
  cbn [make_rows]. rewrite (proj2 (read_Done _ _ _) Hr). cbn [mbind outcome_bind].
  rewrite make_row_stream by done. cbn [mbind outcome_bind].
  rewrite IH by (done || lia). cbn [mbind outcome_bind].
  rewrite imap_cons. simpl concat. rewrite Nat.add_0_r. do 3 f_equal.
  apply imap_ext. intros k x _. simpl. f_equal. lia.
Qed.

Lemma make_returns_early (pocket : gcode_pocket_t) :
  seg_num pocket = 0%nat →
  gcode_pocket_make eps gcode depth rapid_depth tool pocket = Done [].
Proof. intros H. unfold gcode_pocket_make. by rewrite decide_True. Qed.

(** The whole call: the stream of the spec, or nothing. *)
Lemma make_stream (pocket : gcode_pocket_t) :
  wf_pocket pocket → seg_num pocket ≠ 0%nat →
  gcode_pocket_make eps gcode depth rapid_depth tool pocket
  = Done (motion_stream eps gcode depth rapid_depth tool pocket).
Proof.
  intros [Hn Hwf] Hseg. unfold gcode_pocket_make, motion_stream, rows in *.
  rewrite decide_False by done.
  rewrite make_rows_stream by (rewrite ?drop_0; done || (simpl; lia)).
  by rewrite drop_0.
Qed.

End make_stream.

(** ** gcode_pocket_make: the claims *)

Section make_claims.

Variable eps : gfloat_t.
Variable gcode : gcode_t.
Variables depth rapid_depth : gfloat_t.
Variable tool : gcode_tool_t.

Lemma cut_line_approach (near far y0 : gfloat_t) :
  cut_line eps gcode depth rapid_depth tool near far y0
  = approach eps gcode depth rapid_depth tool near y0 ++ [GCODE_2D_LINE far y0 EmptyString].
Proof.
  unfold cut_line, approach.
  destruct (rapid_depth >=? depth - eps); reflexivity.
Qed.

Lemma approach_no_cut (near y0 : gfloat_t) :
  List.filter is_cut (approach eps gcode depth rapid_depth tool near y0) = [].
Proof. unfold approach. by destruct (rapid_depth >=? depth - eps). Qed.

(** The cuts of a row, in the order of the stream. *)
Lemma row_stream_cuts (i : nat) (r : gcode_pocket_row_t) :
  List.filter is_cut (row_stream eps gcode depth rapid_depth tool i r)
  = map (λ l, GCODE_2D_LINE (near_far i l).2 (y r) EmptyString)
      (List.filter (λ l, negb (too_narrow tool l)) (row_order i r)).
Proof.
  unfold row_stream.
  induction (List.filter (λ l, negb (too_narrow tool l)) (row_order i r))
    as [|l ls IH]; [done |].
  cbn [flat_map map]. rewrite List.filter_app, IH, cut_line_approach.
  by rewrite List.filter_app, approach_no_cut.
Qed.

Lemma rows_stream_cuts (rs : list gcode_pocket_row_t) :
  ∀ (f g : nat → gcode_pocket_row_t → list gcode_event),
  (∀ k r, List.filter is_cut (f k r) = g k r) →
  List.filter is_cut (concat (imap f rs)) = concat (imap g rs).
Proof.
  induction rs as [|r rs IH]; intros f g Hfg; [done |].
  rewrite !imap_cons. simpl concat. rewrite List.filter_app, Hfg. f_equal.
  apply IH. intros k r'. apply Hfg.
Qed.

End make_claims.

(** C6.  A call on a grid with a non-zero segment count emits the pass
    header, then the rows in index order 0 .. row_num - 1, then the final
    retract; within a row, the lines are taken in ascending stored order when
    the index is even and in descending stored order when it is odd, and a
    line is skipped exactly when [|line[0] - line[1]| < diameter].  In
    particular the cuts of the stream are the far ends of the lines that are
    not skipped, in that order. *)
Theorem make_visits_rows_in_zigzag (eps : gfloat_t) (gcode : gcode_t)
    (depth rapid_depth : gfloat_t) (tool : gcode_tool_t) (pocket : gcode_pocket_t) :
  wf_pocket pocket → seg_num pocket ≠ 0%nat →
  gcode_pocket_make eps gcode depth rapid_depth tool pocket
  = Done (motion_stream eps gcode depth rapid_depth tool pocket) ∧
  List.filter is_cut (motion_stream eps gcode depth rapid_depth tool pocket)
  = concat (imap
      (λ i r, map (λ l, GCODE_2D_LINE (near_far i l).2 (y r) EmptyString)
                (List.filter (λ l, negb (fabs (l.1 - l.2) <? diameter tool))
                   (if Nat.even i then lines r else reverse (lines r))))
      (rows pocket)).
Proof.
  intros Hwf Hseg. split; [by apply make_stream |].
  unfold motion_stream. rewrite !List.filter_app. simpl.
  rewrite app_nil_r. apply rows_stream_cuts.
  intros k r. apply row_stream_cuts.
Qed.

Lemma sample_grid_wf : wf_pocket sample_grid.
Proof. split; [simpl; lia | repeat constructor; unfold wf_row; simpl; lia]. Defined.

(** On [sample_grid] the narrow line (7, 7.5) of row 0 is skipped and row 1
    is cut from right to left. *)
Lemma make_visits_rows_in_zigzag_witness :
  gcode_pocket_make sample_precision sample_gcode (-1) 0 sample_tool sample_grid
  = Done (motion_stream sample_precision sample_gcode (-1) 0 sample_tool sample_grid) ∧
  List.filter is_cut
    (motion_stream sample_precision sample_gcode (-1) 0 sample_tool sample_grid)
  = concat (imap
      (λ i r, map (λ l, GCODE_2D_LINE (near_far i l).2 (y r) EmptyString)
                (List.filter (λ l, negb (fabs (l.1 - l.2) <? diameter sample_tool))
                   (if Nat.even i then lines r else reverse (lines r))))
      (rows sample_grid)).
Proof.
  apply (make_visits_rows_in_zigzag sample_precision sample_gcode (-1) 0
           sample_tool sample_grid sample_grid_wf).
  vm_compute. discriminate.
Defined.

Example sample_grid_cuts :
  List.filter is_cut sample_stream
  = [GCODE_2D_LINE 3 0 EmptyString; GCODE_2D_LINE 6 1 EmptyString;
     GCODE_2D_LINE 0 1 EmptyString].
Proof. reflexivity. Qed.

(** C7.  With a zero segment count the call returns at once: nothing is
    emitted, neither the pass-depth comment nor a retract nor a move. *)
Theorem make_nothing_without_segments (eps : gfloat_t) (gcode : gcode_t)
    (depth rapid_depth : gfloat_t) (tool : gcode_tool_t) (pocket : gcode_pocket_t) :
  seg_num pocket = 0%nat →
  gcode_pocket_make eps gcode depth rapid_depth tool pocket = Done [].
Proof. apply make_returns_early. Qed.

Lemma make_nothing_without_segments_witness :
  gcode_pocket_make sample_precision sample_gcode (-1) 0 sample_tool
    (gcode_pocket_init 1) = Done [].
Proof.
  apply (make_nothing_without_segments sample_precision sample_gcode (-1) 0
           sample_tool (gcode_pocket_init 1)).
  reflexivity.
Defined.

(** ** gcode_pocket_make: no cut without its approach *)

Section approach_facts.

Variable eps : gfloat_t.
Variable gcode : gcode_t.
Variables depth rapid_depth : gfloat_t.
Variable tool : gcode_tool_t.
Variable pocket : gcode_pocket_t.

Abbreviation approached := (cuts_approached eps gcode depth rapid_depth tool pocket).

#[local] Arguments approach : simpl never.

Lemma no_cut_middle (pre post : list gcode_event) (x y0 : gfloat_t) (c : string) :
  List.filter is_cut (pre ++ GCODE_2D_LINE x y0 c :: post) ≠ [].
Proof. rewrite List.filter_app. simpl. by destruct (List.filter is_cut pre). Qed.

Lemma approached_nil : approached [].
Proof. intros pre x y0 c post H. by destruct pre. Qed.

(** Events that are not cuts may come first. *)
Lemma approached_after (xs ys : list gcode_event) :
  List.filter is_cut xs = [] → approached ys → approached (xs ++ ys).
Proof.
  intros Hxs Hys pre x y0 c post Heq.
  apply app_eq_app in Heq as [k [[H1 H2] | [H1 H2]]].
  - destruct k as [|e k].
    + simpl in H2. destruct (Hys [] x y0 c post (eq_sym H2))
        as (pre' & i & r & l & Hr & Hl & Hy & Hx & Hpre).
      exists (xs ++ pre'), i, r, l. repeat split; try done.
      rewrite app_nil_r in H1. subst xs.
      rewrite <- app_assoc, <- Hpre. by rewrite app_nil_r.
    + injection H2 as <- H2. rewrite H1 in Hxs. by apply no_cut_middle in Hxs.
  - destruct (Hys k x y0 c post H2) as (pre' & i & r & l & Hr & Hl & Hy & Hx & Hpre).
    exists (xs ++ pre'), i, r, l. repeat split; try done.
    rewrite H1, Hpre. by rewrite app_assoc.
Qed.

(** The events of one line, then a stream whose cuts are approached. *)
Lemma approached_cut_line (i : nat) (r : gcode_pocket_row_t) (l : gcode_vec2d_t)
    (rest : list gcode_event) :
  rows pocket !! i = Some r → l ∈ lines r → approached rest →
  approached (cut_line eps gcode depth rapid_depth tool
                (near_far i l).1 (near_far i l).2 (y r) ++ rest).
Proof.
  intros Hr Hl Hrest pre x y0 c post Heq.
  rewrite cut_line_approach, <- app_assoc in Heq.
  apply app_eq_app in Heq as [k [[H1 H2] | [H1 H2]]].
  - destruct k as [|e k].
    + simpl in H2. injection H2 as -> -> -> ->.
      exists [], i, r, l. rewrite app_nil_r in H1. by rewrite H1.
    + injection H2 as <- H2.
      pose proof (approach_no_cut eps gcode depth rapid_depth tool
                    (near_far i l).1 (y r)) as Hno.
      rewrite H1 in Hno. by apply no_cut_middle in Hno.
  - destruct k as [|e k].
    + simpl in H2. injection H2 as <- <- <- <-.
      exists [], i, r, l. rewrite app_nil_r in H1. by rewrite H1.
    + injection H2 as <- H2.
      destruct (Hrest k x y0 c post H2)
        as (pre' & i' & r' & l' & Hr' & Hl' & Hy & Hx & Hpre).
      exists (approach eps gcode depth rapid_depth tool (near_far i l).1 (y r)
              ++ GCODE_2D_LINE (near_far i l).2 (y r) EmptyString :: pre'),
        i', r', l'.
      repeat split; try done.
      rewrite H1, Hpre, <- app_assoc. done.
Qed.

Lemma approached_lines (i : nat) (r : gcode_pocket_row_t) (rest : list gcode_event)
    (ls : list gcode_vec2d_t) :
  rows pocket !! i = Some r → (∀ l, l ∈ ls → l ∈ lines r) → approached rest →
  approached
    (flat_map (λ l, cut_line eps gcode depth rapid_depth tool
                      (near_far i l).1 (near_far i l).2 (y r)) ls ++ rest).
Proof.
  intros Hr Hls Hrest. induction ls as [|l ls IH]; [done |].
  cbn [flat_map]. rewrite <- app_assoc. apply approached_cut_line; [done | |].
  - apply Hls. apply list_elem_of_here.
  - apply IH. intros l' Hl'. apply Hls. by apply list_elem_of_further.
Qed.

Lemma approached_row (i : nat) (r : gcode_pocket_row_t) (rest : list gcode_event) :
  rows pocket !! i = Some r → approached rest →
  approached (row_stream eps gcode depth rapid_depth tool i r ++ rest).
Proof.
  intros Hr Hrest. unfold row_stream. apply approached_lines; [done | | done].
  intros l Hl. apply list_elem_of_In, List.filter_In in Hl as [Hl _].
  apply list_elem_of_In in Hl. unfold row_order in Hl.
  destruct (Nat.even i); [done | by apply elem_of_reverse].
Qed.

Lemma approached_rows (rest : list gcode_event) (rs : list gcode_pocket_row_t) :
  approached rest →
  ∀ (f : nat → gcode_pocket_row_t → list gcode_event),
  (∀ k r, rs !! k = Some r →
     ∃ i, rows pocket !! i = Some r ∧
          f k r = row_stream eps gcode depth rapid_depth tool i r) →
  approached (concat (imap f rs) ++ rest).
Proof.
  intros Hrest. induction rs as [|r rs IH]; intros f Hf; [done |].
  rewrite imap_cons. simpl concat. rewrite <- app_assoc.
  destruct (Hf 0%nat r eq_refl) as (i & Hi & ->).
  apply approached_row; [done |].
  apply IH. intros k r' Hk. apply (Hf (S k) r' Hk).
Qed.

Lemma approached_motion_stream :
  approached (motion_stream eps gcode depth rapid_depth tool pocket).
Proof.
  unfold motion_stream. apply approached_after; [done |].
  apply approached_rows.
  - rewrite <- (app_nil_r [_]). apply approached_after; [done |]. apply approached_nil.
  - intros k r Hk. by exists k.
Qed.

End approach_facts.

(** C5.  In the stream of a completed call every cut comes straight after the
    approach of the line that it cuts: a retract to the traverse height, a
    rapid 2-D move to the near end of the line at the height of its row, a
    rapid plunge to [rapid_depth] exactly when
    [rapid_depth ≥ depth - GCODE_PRECISION], and a feed descend to [depth];
    the cut then goes to the far end of the line.  When the segment count is
    not zero the stream ends with one retract, after the events of all
    rows. *)
Theorem make_cut_follows_approach (eps : gfloat_t) (gcode : gcode_t)
    (depth rapid_depth : gfloat_t) (tool : gcode_tool_t) (pocket : gcode_pocket_t)
    (evs : list gcode_event) :
  wf_pocket pocket →
  gcode_pocket_make eps gcode depth rapid_depth tool pocket = Done evs →
  (∀ pre x y0 c post,
     evs = pre ++ GCODE_2D_LINE x y0 c :: post →
     ∃ pre' i r l,
       rows pocket !! i = Some r ∧ l ∈ lines r ∧
       y0 = y r ∧ x = (near_far i l).2 ∧
       pre = pre' ++
         [GCODE_RETRACT (ztraverse gcode);
          GCODE_2D_MOVE (near_far i l).1 (y r) EmptyString] ++
         (if rapid_depth >=? depth - eps then [GCODE_PLUMMET rapid_depth] else []) ++
         [GCODE_DESCEND depth tool]) ∧
  (seg_num pocket ≠ 0%nat →
   evs = (pass_header depth ++
          concat (imap (row_stream eps gcode depth rapid_depth tool) (rows pocket))) ++
         [GCODE_RETRACT (ztraverse gcode)]).
Proof.
  intros Hwf Hmake.
  destruct (decide (seg_num pocket = 0%nat)) as [Hseg | Hseg].
  - rewrite make_returns_early in Hmake by done.
    injection Hmake as <-. split; [| done].
    intros pre x y0 c post H. by destruct pre.
  - rewrite make_stream in Hmake by done. injection Hmake as <-. split.
    + apply approached_motion_stream.
    + intros _. unfold motion_stream. by rewrite app_assoc.
Qed.

(** The first cut of [sample_stream], event 7, and the seven events before
    it. *)
Lemma make_cut_follows_approach_witness :
  ∃ pre' i r l,
    rows sample_grid !! i = Some r ∧ l ∈ lines r ∧
    0 = y r ∧ 3 = (near_far i l).2 ∧
    take 7 sample_stream
    = pre' ++
      [GCODE_RETRACT (ztraverse sample_gcode);
       GCODE_2D_MOVE (near_far i l).1 (y r) EmptyString] ++
      (if 0 >=? -1 - sample_precision then [GCODE_PLUMMET 0] else []) ++
      [GCODE_DESCEND (-1) sample_tool].
Proof.
  apply (proj1 (make_cut_follows_approach sample_precision sample_gcode (-1) 0
                  sample_tool sample_grid sample_stream sample_grid_wf
                  ltac:(vm_compute; reflexivity))
           (take 7 sample_stream) 3 0 EmptyString (drop 8 sample_stream)).
  vm_compute. reflexivity.
Defined.

(** ** gcode_pocket_prep: from the arrays to lists *)

Lemma store_scalars_app (vs : list gfloat_t) :
  ∀ (used free : list gfloat_t),
  store_scalars vs (used ++ free) (length used)
  = if decide (length vs ≤ length free)%nat then
      Done (used ++ vs ++ drop (length vs) free, (length used + length vs)%nat)
    else Undefined.
Proof.
  induction vs as [|v vs IH]; intros used free.
  - cbn [store_scalars length]. rewrite decide_True by lia.
    simpl. by rewrite Nat.add_0_r.
  - simpl store_scalars. destruct free as [|g free].
    + rewrite app_nil_r, write_ge by lia. cbn [mbind outcome_bind].
      by rewrite decide_False by (simpl; lia).
    + rewrite write_middle by done. cbn [mbind outcome_bind].
      pose proof (IH (used ++ [v]) free) as H.
      rewrite <- app_assoc, length_app in H. simpl in H.
      rewrite Nat.add_1_r in H. rewrite H. simpl length.
      destruct (decide (length vs ≤ length free)%nat).
      * rewrite decide_True by lia. simpl.
        rewrite <- app_assoc. simpl. do 2 f_equal. lia.
      * by rewrite decide_False by lia.
Qed.

(** The chain stores all its crossings, in order, if [x_array] has room for
    them. *)
Lemma eval_chain_app (blocks : list gcode_block_t) (y0 : gfloat_t) :
  ∀ (used free : list gfloat_t),
  eval_chain blocks y0 (used ++ free) (length used)
  = let vs := crossings blocks y0 in
    if decide (length vs ≤ length free)%nat then
      Done (used ++ vs ++ drop (length vs) free, (length used + length vs)%nat)
    else Undefined.
Proof.
  induction blocks as [|b blocks IH]; intros used free.
  - simpl. by rewrite Nat.add_0_r.
  - cbn [eval_chain crossings flat_map]. fold (crossings blocks y0).
    rewrite store_scalars_app. cbv zeta. rewrite length_app.
    destruct (decide (length (eval b y0) ≤ length free)%nat) as [Hb|Hb].
    + cbn [mbind outcome_bind].
      pose proof (IH (used ++ eval b y0) (drop (length (eval b y0)) free)) as H.
      rewrite <- app_assoc, length_app in H. rewrite H. clear H. cbv zeta.
      rewrite length_drop.
      destruct (decide (length (crossings blocks y0)
                        ≤ length free - length (eval b y0))%nat).
      * rewrite decide_True by lia. rewrite drop_drop.
        rewrite <- !app_assoc. do 2 f_equal. lia.
      * by rewrite decide_False by lia.
    + by rewrite decide_False by lia.
Qed.

Lemma kept_lines_pair (tool : gcode_tool_t) (a b : gfloat_t) (xs : list gfloat_t) :
  kept_lines tool (a :: b :: xs)
  = if fabs (b - a) >? diameter tool
    then (a + 0.1 * diameter tool, b - 0.1 * diameter tool) :: kept_lines tool xs
    else kept_lines tool xs.
Proof.
  unfold kept_lines. cbn [crossing_pairs List.filter].
  unfold wider_than_tool at 1. cbn [fst snd].
  by destruct (fabs (b - a) >? diameter tool).
Qed.

Lemma kept_lines_short (tool : gcode_tool_t) (xs : list gfloat_t) :
  (length xs < 2)%nat → kept_lines tool xs = [].
Proof.
  destruct xs as [|a [|b xs]]; simpl; intros H; [done | done | lia].
Qed.


(** The pairing loop stores the kept lines of the crossings from index [i]
    on, if the line array has room for them. *)
Lemma gen_lines_app (tool : gcode_tool_t) (xs : list gfloat_t) (fuel : nat) :
  ∀ (i : nat) (used free : list gcode_vec2d_t) (sn : nat),
  (length xs - i ≤ fuel)%nat →
  gen_lines fuel tool xs (length xs) i (used ++ free) (length used) sn
  = let kept := kept_lines tool (drop i xs) in
    if decide (length kept ≤ length free)%nat then
      Done (used ++ kept ++ drop (length kept) free,
            (length used + length kept)%nat, (sn + length kept)%nat)
    else Undefined.
Proof.
  induction fuel as [|f IH]; intros i used free sn Hfuel.
  - rewrite drop_ge by lia. simpl.
    by rewrite !Nat.add_0_r.
  - cbn [gen_lines]. destruct (decide (i + 1 < length xs)%nat) as [Hi|Hi].
    + destruct (lookup_lt_is_Some_2 xs i) as [a Ha]; [lia |].
      destruct (lookup_lt_is_Some_2 xs (i + 1)) as [b Hb]; [lia |].
      rewrite (proj2 (read_Done _ _ _) Ha), (proj2 (read_Done _ _ _) Hb).
      cbn [mbind outcome_bind].
      rewrite (drop_S _ _ _ Ha). rewrite Nat.add_1_r in Hb.
      rewrite (drop_S _ _ _ Hb). rewrite kept_lines_pair.
      replace (S (S i)) with (i + 2)%nat by lia.
      destruct (fabs (b - a) >? diameter tool).
      * destruct free as [|g free].
        -- rewrite app_nil_r, write_ge by lia. cbn [mbind outcome_bind].
           by rewrite decide_False by (simpl; lia).
        -- rewrite write_middle by done. cbn [mbind outcome_bind].
           pose proof (IH (i + 2)%nat
                         (used ++ [(a + 0.1 * diameter tool, b - 0.1 * diameter tool)])
                         free (S sn) ltac:(lia)) as H.
           rewrite <- app_assoc, length_app in H. simpl in H.
           rewrite Nat.add_1_r in H. rewrite H. clear H. simpl length.
           destruct (decide (length (kept_lines tool (drop (i + 2) xs))
                             ≤ length free)%nat).
           ++ rewrite decide_True by lia. simpl.
              rewrite <- app_assoc. simpl. do 2 f_equal; [f_equal |]; lia.
           ++ by rewrite decide_False by lia.
      * by rewrite IH by lia.
    + rewrite kept_lines_short by (rewrite length_drop; lia). simpl.
      by rewrite !Nat.add_0_r.
Qed.

Section prep_facts.

Variable qsort_asc : list gfloat_t → list gfloat_t.
Variable remove_duplicates : list gfloat_t → list gfloat_t.
Variable uninit_scalar : gfloat_t.
Variable uninit_line : gcode_vec2d_t.
Variable uninit_row : gcode_pocket_row_t.
Variable tool : gcode_tool_t.
Variable blocks : list gcode_block_t.

(** The crossings of the scanline at [y0] after sorting and removal of
    duplicates. *)
Abbreviation sorted_crossings y0 :=
  (remove_duplicates (qsort_asc (crossings blocks y0))).

(** The row that the scanline at [y0] appends. *)
Abbreviation scanline_row y0 :=
  {| line_num := length (kept_lines tool (sorted_crossings y0));
     line_array :=
       kept_lines tool (sorted_crossings y0) ++
       drop (length (kept_lines tool (sorted_crossings y0)))
         (replicate LINE_CAPACITY uninit_line);
     y := y0 |}.

#[local] Opaque X_CAPACITY LINE_CAPACITY.

(** One scanline: the crossings must fit [x_array], the kept lines the line
    array, and the row the row array. *)
Lemma prep_row_spec (y0 : gfloat_t) (pocket : gcode_pocket_t) :
  prep_row qsort_asc remove_duplicates uninit_scalar uninit_line tool blocks y0 pocket
  = if decide (length (crossings blocks y0) ≤ X_CAPACITY
               ∧ length (kept_lines tool (sorted_crossings y0)) ≤ LINE_CAPACITY
               ∧ row_num pocket < length (row_array pocket))%nat
    then
      Done {| row_num := S (row_num pocket);
              seg_num := (seg_num pocket
                          + length (kept_lines tool (sorted_crossings y0)))%nat;
              row_array := <[row_num pocket := scanline_row y0]> (row_array pocket);
              resolution := resolution pocket |}
    else Undefined.
Proof.
  unfold prep_row.
  pose proof (eval_chain_app blocks y0 [] (replicate X_CAPACITY uninit_scalar)) as H.
  simpl in H. rewrite H. clear H. rewrite length_replicate.
  destruct (decide (length (crossings blocks y0) ≤ X_CAPACITY)%nat) as [Hx|Hx];
    [| by rewrite decide_False by lia].
  cbn [mbind outcome_bind]. rewrite take_app_length.
  set (xs := sorted_crossings y0).
  assert (Hgen :
    (if decide (2 ≤ length xs)%nat
     then gen_lines (length xs) tool xs (length xs) 0
            (replicate LINE_CAPACITY uninit_line) 0 (seg_num pocket)
     else Done (replicate LINE_CAPACITY uninit_line, 0%nat, seg_num pocket))
    = if decide (length (kept_lines tool xs) ≤ LINE_CAPACITY)%nat then
        Done (kept_lines tool xs ++
                drop (length (kept_lines tool xs)) (replicate LINE_CAPACITY uninit_line),
              length (kept_lines tool xs),
              (seg_num pocket + length (kept_lines tool xs))%nat)
      else Undefined).
  { destruct (decide (2 ≤ length xs)%nat) as [H2|H2].
    - pose proof (gen_lines_app tool xs (length xs) 0 []
                    (replicate LINE_CAPACITY uninit_line) (seg_num pocket)
                    ltac:(lia)) as H.
      simpl in H. rewrite drop_0, length_replicate in H. exact H.
    - rewrite kept_lines_short by lia. cbn [length app].
      rewrite decide_True by lia. by rewrite drop_0, Nat.add_0_r. }
  rewrite Hgen. clear Hgen.
  destruct (decide (length (kept_lines tool xs) ≤ LINE_CAPACITY)%nat) as [Hk|Hk];
    [| by rewrite decide_False by lia].
  cbn [mbind outcome_bind]. unfold write.
  destruct (decide (row_num pocket < length (row_array pocket))%nat) as [Hr|Hr].
  - by rewrite decide_True by lia.
  - by rewrite decide_False by lia.
Qed.

(** What the rows appended by the scanline loop look like. *)
Lemma prep_y_loop_Done (y_max : gfloat_t) (fuel : nat) :
  ∀ (y0 : gfloat_t) (pocket pocket' : gcode_pocket_t),
  (row_num pocket ≤ length (row_array pocket))%nat →
  prep_y_loop qsort_asc remove_duplicates uninit_scalar uninit_line
    fuel tool blocks y_max y0 pocket = Done pocket' →
  (row_num pocket ≤ row_num pocket' ≤ length (row_array pocket'))%nat ∧
  (∀ k, (k < row_num pocket)%nat → row_array pocket' !! k = row_array pocket !! k) ∧
  (∀ k r, (row_num pocket ≤ k < row_num pocket')%nat →
     row_array pocket' !! k = Some r →
     r = scanline_row (y r) ∧
     (length (crossings blocks (y r)) ≤ X_CAPACITY)%nat ∧
     (line_num r ≤ LINE_CAPACITY)%nat) ∧
  seg_num pocket'
  = (seg_num pocket
     + sum_list (line_num <$> drop (row_num pocket)
                                (take (row_num pocket') (row_array pocket'))))%nat.
Proof.
  assert (Hstop : ∀ pocket : gcode_pocket_t,
    (row_num pocket ≤ length (row_array pocket))%nat →
    (row_num pocket ≤ row_num pocket ≤ length (row_array pocket))%nat ∧
    (∀ k, (k < row_num pocket)%nat → row_array pocket !! k = row_array pocket !! k) ∧
    (∀ k r, (row_num pocket ≤ k < row_num pocket)%nat →
       row_array pocket !! k = Some r →
       r = scanline_row (y r) ∧
       (length (crossings blocks (y r)) ≤ X_CAPACITY)%nat ∧
       (line_num r ≤ LINE_CAPACITY)%nat) ∧
    seg_num pocket
    = (seg_num pocket
       + sum_list (line_num <$> drop (row_num pocket)
                                  (take (row_num pocket) (row_array pocket))))%nat).
  { intros pocket Hn. split; [lia |]. split; [done |]. split.
    - intros k r Hk. lia.
    - rewrite drop_ge by (rewrite length_take; lia). simpl. lia. }
  induction fuel as [|f IH]; intros y0 pocket pocket' Hn; cbn [prep_y_loop].
  - destruct (y0 <=? y_max); [done |]. intros [= <-]. by apply Hstop.
  - destruct (y0 <=? y_max); [| intros [= <-]; by apply Hstop].
    rewrite prep_row_spec. case_decide as Hok; [| done].
    destruct Hok as (Hx & Hl & Hr). cbn [mbind outcome_bind].
    intros H. apply IH in H as (Hn' & Hold & Hnew & Hseg);
      [| simpl; rewrite length_insert; lia].
    simpl in Hn', Hold, Hnew, Hseg.
    split; [lia |]. split; [| split].
    + intros k Hk. rewrite Hold by lia. apply list_lookup_insert_ne. lia.
    + intros k r Hk Hkr. destruct (decide (k = row_num pocket)) as [-> | Hne].
      * rewrite Hold in Hkr by lia.
        rewrite list_lookup_insert_eq in Hkr by lia.
        injection Hkr as <-. simpl. done.
      * apply (Hnew k r); [lia | done].
    + rewrite Hseg.
      assert (Hrow : take (row_num pocket') (row_array pocket') !! row_num pocket
                     = Some (scanline_row y0)).
      { rewrite lookup_take_lt by lia. rewrite Hold by lia.
        apply list_lookup_insert_eq. lia. }
      rewrite (drop_S _ _ _ Hrow), fmap_cons. simpl. lia.
Qed.

Lemma scanline_row_lines (y0 : gfloat_t) :
  lines (scanline_row y0) = kept_lines tool (sorted_crossings y0).
Proof. unfold lines. simpl. by rewrite take_app_length. Qed.

Lemma prep_y_loop_not_Failed (y_max : gfloat_t) (fuel : nat) :
  ∀ (y0 : gfloat_t) (pocket : gcode_pocket_t) (e : gcode_error),
  prep_y_loop qsort_asc remove_duplicates uninit_scalar uninit_line
    fuel tool blocks y_max y0 pocket ≠ Failed e.
Proof.
  induction fuel as [|f IH]; intros y0 pocket e; cbn [prep_y_loop].
  - by destruct (y0 <=? y_max).
  - destruct (y0 <=? y_max); [| done].
    rewrite prep_row_spec. case_decide; [| done].
    cbn [mbind outcome_bind]. apply IH.
Qed.

(** A completed call has cast the row count of line 66 within the range of
    [int] and has completed the scanline loop on that many fresh rows. *)
Lemma prep_Done_loop (gcode : gcode_t) (pocket pocket' : gcode_pocket_t) :
  gcode_pocket_prep qsort_asc remove_duplicates uninit_scalar uninit_line uninit_row
    pocket gcode tool blocks = Done pocket' →
  ∃ n,
    int_of_gfloat (1 + material_size gcode / resolution pocket) = Done n ∧
    prep_y_loop qsort_asc remove_duplicates uninit_scalar uninit_line
      (Z.to_nat n) tool blocks
      (material_size gcode - material_origin gcode) (- material_origin gcode)
      {| row_num := 0; seg_num := seg_num pocket;
         row_array := replicate (Z.to_nat n) uninit_row;
         resolution := resolution pocket |} = Done pocket'.
Proof.
  unfold gcode_pocket_prep. destruct (Qeq_bool (resolution pocket) 0); [done |].
  intros H. apply bind_Done in H as (n & Hn & H). by exists n.
Qed.

(** The result of a completed call: every row holds the kept lines of its
    scanline, in an array of full capacity. *)
Lemma prep_Done (gcode : gcode_t) (pocket pocket' : gcode_pocket_t) :
  gcode_pocket_prep qsort_asc remove_duplicates uninit_scalar uninit_line uninit_row
    pocket gcode tool blocks = Done pocket' →
  (row_num pocket' ≤ length (row_array pocket'))%nat ∧
  Forall (λ r, lines r = kept_lines tool (sorted_crossings (y r)) ∧
               line_num r = length (lines r) ∧
               length (line_array r) = LINE_CAPACITY ∧
               (length (crossings blocks (y r)) ≤ X_CAPACITY)%nat ∧
               (line_num r ≤ LINE_CAPACITY)%nat) (rows pocket') ∧
  seg_num pocket' = (seg_num pocket + sum_list (line_num <$> rows pocket'))%nat.
Proof.
  intros H. apply prep_Done_loop in H as (n & _ & H).
  apply prep_y_loop_Done in H as (Hn & _ & Hnew & Hseg); [| simpl; lia].
  simpl in Hn, Hnew, Hseg. split; [lia |]. split.
  - rewrite Forall_lookup. intros k r Hk. apply rows_lookup in Hk as [Hk Hr].
    destruct (Hnew k r ltac:(lia) Hr) as (Hrow & Hx & Hl).
    pose proof (f_equal lines Hrow) as Hlines.
    rewrite scanline_row_lines in Hlines.
    pose proof (f_equal line_num Hrow) as Hnum. simpl in Hnum.
    pose proof (f_equal (λ r, length (line_array r)) Hrow) as Harr. simpl in Harr.
    rewrite length_app, length_drop, length_replicate in Harr.
    rewrite <- Hnum in Harr.
    repeat split; [done | by rewrite Hlines | lia | done | done].
  - by rewrite drop_0 in Hseg.
Qed.

(** The rows that the loop appends lie at the heights of the scanlines, one
    row for each. *)
Lemma prep_y_loop_stepped (y_max : gfloat_t) (fuel : nat) :
  ∀ (y0 : gfloat_t) (pocket pocket' : gcode_pocket_t),
  prep_y_loop qsort_asc remove_duplicates uninit_scalar uninit_line
    fuel tool blocks y_max y0 pocket = Done pocket' →
  ∃ ys, y <$> rows pocket' = (y <$> rows pocket) ++ ys ∧
        stepped y_max (resolution pocket) y0 ys.
Proof.
  induction fuel as [|f IH]; intros y0 pocket pocket'; cbn [prep_y_loop].
  - destruct (y0 <=? y_max) eqn:Hle; [done |]. intros [= <-].
    exists []. split; [by rewrite app_nil_r | by apply fle_false].
  - destruct (y0 <=? y_max) eqn:Hle.
    + rewrite prep_row_spec. case_decide as Hok; [| done].
      destruct Hok as (_ & _ & Hrow). cbn [mbind outcome_bind].
      intros H. apply IH in H as (ys & Hys & Hstep). simpl in Hys, Hstep.
      exists (y0 :: ys). split.
      * rewrite Hys. unfold rows. simpl.
        rewrite (take_S_r _ _ _ (list_lookup_insert_eq _ _ _ Hrow)).
        rewrite take_insert_ge by lia. rewrite fmap_app. simpl.
        by rewrite <- app_assoc.
      * simpl. split; [done |]. split; [by apply fle_spec | done].
    + intros [= <-]. exists []. split; [by rewrite app_nil_r | by apply fle_false].
Qed.

(** The rows of a completed call, at the heights of the scanlines of the
    material. *)
Lemma prep_Done_stepped (gcode : gcode_t) (pocket pocket' : gcode_pocket_t) :
  gcode_pocket_prep qsort_asc remove_duplicates uninit_scalar uninit_line uninit_row
    pocket gcode tool blocks = Done pocket' →
  stepped (material_size gcode - material_origin gcode) (resolution pocket)
    (- material_origin gcode) (y <$> rows pocket').
Proof.
  intros H. apply prep_Done_loop in H as (n & _ & H).
  apply prep_y_loop_stepped in H as (ys & Hys & Hstep).
  simpl in Hys, Hstep. by rewrite Hys.
Qed.

End prep_facts.

(** ** gcode_pocket_prep: the claims *)

(** C4.  A completed call has stored one row for every scanline: the heights
    of its rows are [-origin], [-origin + resolution], ... up to the last one
    that does not exceed [size - origin].  For every one of them, with the
    sorted crossings taken in consecutive pairs (a, b): the row holds the
    pairs with [|b - a| > diameter] and no others, in order, each stored as
    [(a + 0.1 * diameter, b - 0.1 * diameter)]; the width of a stored line
    is the raw width minus [0.2 * diameter]; and [seg_num] has grown by one
    per stored line. *)
Theorem prep_keeps_wide_pairs_nudged
    (qsort_asc remove_duplicates : list gfloat_t → list gfloat_t)
    (uninit_scalar : gfloat_t) (uninit_line : gcode_vec2d_t)
    (uninit_row : gcode_pocket_row_t)
    (pocket : gcode_pocket_t) (gcode : gcode_t) (tool : gcode_tool_t)
    (blocks : list gcode_block_t) (pocket' : gcode_pocket_t) :
  gcode_pocket_prep qsort_asc remove_duplicates uninit_scalar uninit_line uninit_row
    pocket gcode tool blocks = Done pocket' →
  stepped (material_size gcode - material_origin gcode) (resolution pocket)
    (- material_origin gcode) (y <$> rows pocket') ∧
  Forall
    (λ r,
       let pairs :=
         crossing_pairs (remove_duplicates (qsort_asc (crossings blocks (y r)))) in
       lines r
       = map (λ p, (p.1 + 0.1 * diameter tool, p.2 - 0.1 * diameter tool))
           (List.filter (λ p, fabs (p.2 - p.1) >? diameter tool) pairs) ∧
       line_num r = length (lines r) ∧
       (∀ p, p ∈ pairs → diameter tool < fabs (p.2 - p.1) →
          (p.1 + 0.1 * diameter tool, p.2 - 0.1 * diameter tool) ∈ lines r) ∧
       (∀ l, l ∈ lines r →
          ∃ p, p ∈ pairs ∧ diameter tool < fabs (p.2 - p.1) ∧
               l = (p.1 + 0.1 * diameter tool, p.2 - 0.1 * diameter tool) ∧
               l.2 - l.1 == (p.2 - p.1) - 0.2 * diameter tool ∧
               (p.1 <= p.2 → l.2 - l.1 == fabs (p.2 - p.1) - 0.2 * diameter tool)))
    (rows pocket') ∧
  seg_num pocket' = (seg_num pocket + sum_list (line_num <$> rows pocket'))%nat.
Proof.
  intros H. pose proof (prep_Done_stepped _ _ _ _ _ _ _ _ _ _ H) as Hstep.
  apply prep_Done in H as (Hn & Hrows & Hseg).
  split; [done |]. split; [| done].
  eapply Forall_impl; [exact Hrows |]. intros r (Hl & Hnum & _). cbv zeta.
  split; [done |]. split; [done |]. rewrite Hl. unfold kept_lines. split.
  - intros p Hp Hwide. apply list_elem_of_In.
    apply (in_map (nudge tool)), List.filter_In. split; [by apply list_elem_of_In |].
    by apply fgt_spec.
  - intros l Hin. apply list_elem_of_In, in_map_iff in Hin as (p & <- & Hp).
    apply List.filter_In in Hp as [Hp Hwide]. apply list_elem_of_In in Hp.
    apply fgt_spec in Hwide. exists p. split; [done |]. split; [done |].
    split; [done |]. unfold nudge. cbn [fst snd]. split; [lra |].
    intros Hab. unfold fabs. rewrite Qabs_pos by lra. lra.
Qed.

(** The square of the spec: eleven rows, at the heights 0 to 10, each with
    the line [0.1, 9.9]. *)
Lemma prep_keeps_wide_pairs_nudged_witness :
  stepped (material_size sample_gcode - material_origin sample_gcode)
    (resolution (gcode_pocket_init 1)) (- material_origin sample_gcode)
    (y <$> rows sample_square_pocket) ∧
  Forall
    (λ r,
       let pairs :=
         crossing_pairs (sample_remove_duplicates sample_precision
                           (sample_qsort_asc (crossings sample_square (y r)))) in
       lines r
       = map (λ p, (p.1 + 0.1 * diameter sample_tool, p.2 - 0.1 * diameter sample_tool))
           (List.filter (λ p, fabs (p.2 - p.1) >? diameter sample_tool) pairs) ∧
       line_num r = length (lines r) ∧
       (∀ p, p ∈ pairs → diameter sample_tool < fabs (p.2 - p.1) →
          (p.1 + 0.1 * diameter sample_tool, p.2 - 0.1 * diameter sample_tool)
          ∈ lines r) ∧
       (∀ l, l ∈ lines r →
          ∃ p, p ∈ pairs ∧ diameter sample_tool < fabs (p.2 - p.1) ∧
               l = (p.1 + 0.1 * diameter sample_tool,
                    p.2 - 0.1 * diameter sample_tool) ∧
               l.2 - l.1 == (p.2 - p.1) - 0.2 * diameter sample_tool ∧
               (p.1 <= p.2 →
                l.2 - l.1 == fabs (p.2 - p.1) - 0.2 * diameter sample_tool)))
    (rows sample_square_pocket) ∧
  seg_num sample_square_pocket
  = (seg_num (gcode_pocket_init 1)
     + sum_list (line_num <$> rows sample_square_pocket))%nat.
Proof.
  apply (prep_keeps_wide_pairs_nudged sample_qsort_asc
           (sample_remove_duplicates sample_precision) 0 (0, 0) (row_of 0 [] 0)
           (gcode_pocket_init 1) sample_gcode sample_tool sample_square
           sample_square_pocket).
  vm_compute. reflexivity.
Defined.

Example sample_square_rows :
  row_num sample_square_pocket = 11%nat ∧
  seg_num sample_square_pocket = 11%nat ∧
  Forall (λ r, lines r = [(0.1, 9.9)]) (rows sample_square_pocket).
Proof. split; [done |]. split; [done |]. vm_compute. repeat constructor. Qed.




(** ** A positive segment count without a cut *)

Lemma truncate_one (q : gfloat_t) : q == 1 → truncate q = 1%Z.
Proof.
  unfold Qeq, truncate. simpl. rewrite Z.mul_1_r, Z.mul_1_l.
  intros ->. by apply Z.quot_same.
Qed.

Lemma int_of_gfloat_one (q : gfloat_t) : q == 1 → int_of_gfloat q = Done 1%Z.
Proof.
  intros H. unfold int_of_gfloat. rewrite (truncate_one q H).
  by rewrite decide_True by (vm_compute; split; discriminate).
Qed.

(** C10.  One scanline whose only crossing pair (a, b) has a raw width
    strictly between the tool diameter d and 1.2 d: [gcode_pocket_prep] keeps
    the pair and counts it, the stored line is narrower than the tool,
    [gcode_pocket_make] skips it, and the stream is the pass header followed
    by the final retract - not empty, and without a cut. *)
Theorem positive_segment_count_without_cut
    (qsort_asc remove_duplicates : list gfloat_t → list gfloat_t)
    (uninit_scalar : gfloat_t) (uninit_line : gcode_vec2d_t)
    (uninit_row : gcode_pocket_row_t)
    (eps res origin zt depth rapid_depth a b d : gfloat_t) :
  0 < res → d < b - a → b - a < 1.2 * d →
  remove_duplicates (qsort_asc [a; b]) = [a; b] →
  let gcode := {| material_size := 0; material_origin := origin; ztraverse := zt |} in
  let tool := {| diameter := d |} in
  let blocks := [{| eval := λ _, [a; b] |}] in
  ∃ pocket',
    gcode_pocket_prep qsort_asc remove_duplicates uninit_scalar uninit_line uninit_row
      (gcode_pocket_init res) gcode tool blocks = Done pocket' ∧
    seg_num pocket' = 1%nat ∧
    lines <$> rows pocket' = [[(a + 0.1 * d, b - 0.1 * d)]] ∧
    fabs ((a + 0.1 * d) - (b - 0.1 * d)) < d ∧
    gcode_pocket_make eps gcode depth rapid_depth tool pocket'
    = Done [GCODE_APPEND newline; GCODE_COMMENT "Pass depth: %z" depth;
            GCODE_APPEND newline; GCODE_RETRACT zt] ∧
    List.filter is_cut
      [GCODE_APPEND newline; GCODE_COMMENT "Pass depth: %z" depth;
       GCODE_APPEND newline; GCODE_RETRACT zt] = [].
Proof.
  intros Hres Hlo Hhi Hsort gcode tool blocks.
  assert (Hnarrow : fabs ((a + 0.1 * d) - (b - 0.1 * d)) < d)
    by (apply Qabs_Qlt_condition; lra).
  assert (Hkept : kept_lines tool [a; b] = [(a + 0.1 * d, b - 0.1 * d)]).
  { rewrite kept_lines_pair. simpl diameter.
    replace (fabs (b - a) >? d) with true; [done |].
    symmetry. apply fgt_spec. apply Qabs_gt. lra. }
  set (row := {| line_num := 1;
                 line_array := (a + 0.1 * d, b - 0.1 * d)
                               :: drop 1 (replicate LINE_CAPACITY uninit_line);
                 y := - origin |}).
  exists {| row_num := 1; seg_num := 1; row_array := [row]; resolution := res |}.
  split; [| split; [done | split; [done | split; [done | split; [| done]]]]].
  - unfold gcode_pocket_prep. cbn [resolution gcode_pocket_init].
    destruct (Qeq_bool res 0) eqn:Hq; [apply Qeq_bool_eq in Hq; lra |].
    cbn [material_size material_origin gcode seg_num].
    rewrite int_of_gfloat_one by (unfold Qdiv; ring).
    cbn [mbind outcome_bind]. change (Z.to_nat 1) with 1%nat.
    cbn [prep_y_loop replicate].
    replace (- origin <=? 0 - origin) with true by (symmetry; apply fle_spec; lra).
    rewrite prep_row_spec.
    change (crossings blocks (- origin)) with [a; b].
    rewrite Hsort, Hkept. rewrite decide_True by (vm_compute; lia).
    cbn [mbind outcome_bind resolution row_num].
    replace (- origin + res <=? 0 - origin) with false
      by (symmetry; apply fle_false; lra).
    reflexivity.
  - rewrite make_stream.
    + unfold motion_stream, rows. cbn [row_num row_array take imap concat].
      unfold row_stream, row_order, lines. cbn [Nat.even line_num row line_array take].
      cbn [List.filter]. unfold too_narrow at 1. cbn [fst snd diameter tool].
      replace (fabs (a + 0.1 * d - (b - 0.1 * d)) <? d) with true
        by (symmetry; by apply flt_spec).
      reflexivity.
    + split; [simpl; lia |]. apply Forall_singleton. unfold wf_row.
      cbn [line_num line_array row length]. lia.
    + done.
Qed.

Lemma positive_segment_count_without_cut_witness :
  ∃ pocket',
    gcode_pocket_prep sample_qsort_asc (sample_remove_duplicates sample_precision)
      0 (0, 0) (row_of 0 [] 0) (gcode_pocket_init 1)
      {| material_size := 0; material_origin := 0; ztraverse := 5 |}
      {| diameter := 1 |} [{| eval := λ _, [0; 1.1] |}] = Done pocket' ∧
    seg_num pocket' = 1%nat ∧
    lines <$> rows pocket' = [[(0 + 0.1 * 1, 1.1 - 0.1 * 1)]] ∧
    fabs ((0 + 0.1 * 1) - (1.1 - 0.1 * 1)) < 1 ∧
    gcode_pocket_make sample_precision
      {| material_size := 0; material_origin := 0; ztraverse := 5 |}
      (-1) 0 {| diameter := 1 |} pocket'
    = Done [GCODE_APPEND newline; GCODE_COMMENT "Pass depth: %z" (-1);
            GCODE_APPEND newline; GCODE_RETRACT 5] ∧
    List.filter is_cut
      [GCODE_APPEND newline; GCODE_COMMENT "Pass depth: %z" (-1);
       GCODE_APPEND newline; GCODE_RETRACT 5] = [].
Proof.
  apply (positive_segment_count_without_cut sample_qsort_asc
           (sample_remove_duplicates sample_precision) 0 (0, 0) (row_of 0 [] 0)
           sample_precision 1 0 5 (-1) 0 0 1.1 1).
  - vm_compute. reflexivity.
  - vm_compute. reflexivity.
  - vm_compute. reflexivity.
  - vm_compute. reflexivity.
Defined.

(** ** The two failures of the exact claims, for any positive precision *)

Lemma row_of_lines (cap : nat) (ls : list gcode_vec2d_t) (y0 : gfloat_t) :
  lines (row_of cap ls y0) = ls.
Proof. unfold lines, row_of. simpl. by rewrite take_app_length. Qed.

Lemma row_of_wf (cap : nat) (ls : list gcode_vec2d_t) (y0 : gfloat_t) :
  wf_row (row_of cap ls y0).
Proof. unfold wf_row, row_of. simpl. rewrite length_app. lia. Qed.

(** A single row of A with the single line [0, 10], against a single line
    [b] of B that passes the containment test. *)
Lemma subtract_single_contained (eps : gfloat_t) (b : gcode_vec2d_t) :
  contained_within eps b (0, 10) = true →
  ∃ pocket_a' ra',
    gcode_pocket_subtract eps sample_outer (pocket_of 1 [row_of 4 [b] 0])
    = Done pocket_a' ∧
    rows pocket_a' !! 0%nat = Some ra' ∧
    lines ra' = [(0, b.1); (b.2, 10)].
Proof.
  intros Hc.
  assert (HwA : wf_pocket sample_outer) by apply sample_outer_wf.
  assert (HwB : wf_pocket (pocket_of 1 [row_of 4 [b] 0])).
  { split; [simpl; lia |]. apply Forall_singleton, row_of_wf. }
  assert (Hcarved : carved eps [b] [(0, 10)] = [(0, b.1); (b.2, 10)]).
  { unfold carved. simpl. by rewrite Hc. }
  destruct (subtract_total eps sample_outer (pocket_of 1 [row_of 4 [b] 0]) HwA HwB)
    as [pocket_a' Hsub].
  - simpl. lia.
  - intros i ra rb Hra Hrb. destruct i as [|i]; [| done].
    injection Hra as <-. injection Hrb as <-.
    rewrite !row_of_lines, Hcarved. simpl. lia.
  - destruct (subtract_Done eps _ _ _ HwA HwB ltac:(simpl; lia) Hsub)
      as (_ & _ & _ & _ & Hrows).
    destruct (Hrows 0%nat (row_of 4 [(0, 10)] 0) (row_of 4 [b] 0) eq_refl eq_refl)
      as (ra' & Hra' & Hl & _).
    exists pocket_a', ra'. repeat split; try done.
    by rewrite Hl, !row_of_lines.
Qed.

(** Whatever the positive precision, a line of B half a precision past the
    end of A's line makes the coverage of the row grow. *)
Lemma subtract_coverage_grows_for_any_precision (eps : gfloat_t) :
  0 < eps →
  ∃ pocket_a' ra',
    gcode_pocket_subtract eps sample_outer
      (pocket_of 1 [row_of 4 [(10 + eps / 2, 10 + eps / 2)] 0]) = Done pocket_a' ∧
    rows pocket_a' !! 0%nat = Some ra' ∧
    covered (lines ra') (10 + eps / 2) ∧
    ¬ covered [(0, 10)] (10 + eps / 2).
Proof.
  intros Heps.
  assert (Hhalf : 0 < eps / 2 ∧ eps / 2 < eps).
  { split; [apply Qlt_shift_div_l; lra | apply Qlt_shift_div_r; lra]. }
  destruct (subtract_single_contained eps (10 + eps / 2, 10 + eps / 2))
    as (pocket_a' & ra' & Hsub & Hra' & Hl).
  { apply contained_within_spec. simpl. lra. }
  exists pocket_a', ra'. repeat split; try done.
  - exists (0, 10 + eps / 2). rewrite Hl. split; [apply list_elem_of_here |].
    split; simpl; lra.
  - intros (l & Hin & _ & Hx). apply list_elem_of_singleton in Hin as ->.
    simpl in Hx. lra.
Qed.

(** Whatever the positive precision, a line of B that starts half a
    precision before A's line leaves an inverted line in the row. *)
Lemma subtract_inverts_for_any_precision (eps : gfloat_t) :
  0 < eps →
  ∃ pocket_a' ra',
    gcode_pocket_subtract eps sample_outer
      (pocket_of 1 [row_of 4 [(- (eps / 2), 5)] 0]) = Done pocket_a' ∧
    rows pocket_a' !! 0%nat = Some ra' ∧
    interval_row_invariant [(- (eps / 2), 5)] ∧
    ¬ interval_row_invariant (lines ra').
Proof.
  intros Heps.
  assert (Hhalf : 0 < eps / 2 ∧ eps / 2 < eps).
  { split; [apply Qlt_shift_div_l; lra | apply Qlt_shift_div_r; lra]. }
  destruct (subtract_single_contained eps (- (eps / 2), 5))
    as (pocket_a' & ra' & Hsub & Hra' & Hl).
  { apply contained_within_spec. simpl. lra. }
  exists pocket_a', ra'. repeat split; try done.
  - apply Forall_singleton. simpl. lra.
  - intros i j a b Hij Hi Hj. destruct j as [|j]; [lia |]. by destruct j.
  - rewrite Hl. intros (Hv & _). apply Forall_cons in Hv as [Hv _].
    simpl in Hv. lra.
Qed.

(** ** With a zero precision the exact claims hold *)

Lemma interval_row_invariant_upto_zero (ls : list gcode_vec2d_t) :
  interval_row_invariant_upto 0 ls → interval_row_invariant ls.
Proof.
  intros [Hv Hltr].
  assert (Hv' : Forall (λ l, l.1 <= l.2) ls).
  { eapply Forall_impl; [exact Hv |]. intros l Hl. simpl in Hl. lra. }
  split; [done |]. split; [done |]. by apply left_to_right_non_overlapping.
Qed.

(** Were the containment test exact, a completed subtraction would never
    widen the coverage of a row. *)
Lemma subtract_exact_never_grows (pocket_a pocket_b pocket_a' : gcode_pocket_t) :
  wf_pocket pocket_a → wf_pocket pocket_b →
  row_num pocket_a = row_num pocket_b →
  gcode_pocket_subtract 0 pocket_a pocket_b = Done pocket_a' →
  ∀ (i : nat) (ra ra' : gcode_pocket_row_t) (x : gfloat_t),
  rows pocket_a !! i = Some ra → rows pocket_a' !! i = Some ra' →
  covered (lines ra') x → covered (lines ra) x.
Proof.
  intros HwA HwB Hrows Hsub i ra ra' x Hra Hra' Hx.
  destruct (subtract_Done 0 pocket_a pocket_b pocket_a' HwA HwB ltac:(lia) Hsub)
    as (_ & _ & _ & _ & Hcarved).
  apply rows_lookup in Hra as Hi. destruct Hi as [Hi _].
  destruct HwB as [HnB HwB].
  destruct (lookup_lt_is_Some_2 (rows pocket_b) i) as [rb Hrb];
    [unfold rows; rewrite length_take; lia |].
  destruct (Hcarved i ra rb Hra Hrb) as (ra0 & Hra0 & Hl & _).
  rewrite Hra' in Hra0. injection Hra0 as <-. rewrite Hl in Hx.
  apply (carved_within 0 ltac:(lra)) in Hx as (a & Ha & H1 & H2).
  exists a. split; [done |]. split; simpl; lra.
Qed.

(** Were the containment test exact, a completed subtraction would keep the
    interval-row invariant. *)
Lemma subtract_exact_keeps_invariant (pocket_a pocket_b pocket_a' : gcode_pocket_t) :
  wf_pocket pocket_a → wf_pocket pocket_b →
  row_num pocket_a = row_num pocket_b →
  Forall (λ r, interval_row_invariant (lines r)) (rows pocket_a) →
  Forall (λ r, interval_row_invariant (lines r)) (rows pocket_b) →
  gcode_pocket_subtract 0 pocket_a pocket_b = Done pocket_a' →
  Forall (λ r, interval_row_invariant (lines r)) (rows pocket_a').
Proof.
  intros HwA HwB Hrows HiA HiB Hsub.
  destruct (subtract_Done 0 pocket_a pocket_b pocket_a' HwA HwB ltac:(lia) Hsub)
    as (Hn & _ & _ & [Hn' _] & Hcarved).
  rewrite Forall_lookup in HiA, HiB. rewrite Forall_lookup. intros i ra' Hra'.
  apply rows_lookup in Hra' as Hi. destruct Hi as [Hi _].
  destruct HwA as [HnA _], HwB as [HnB _].
  destruct (lookup_lt_is_Some_2 (rows pocket_a) i) as [ra Hra];
    [unfold rows; rewrite length_take; lia |].
  destruct (lookup_lt_is_Some_2 (rows pocket_b) i) as [rb Hrb];
    [unfold rows; rewrite length_take; lia |].
  destruct (Hcarved i ra rb Hra Hrb) as (ra0 & Hra0 & Hl & _).
  rewrite Hra' in Hra0. injection Hra0 as <-. rewrite Hl.
  destruct (HiA i ra Hra) as (HvA & HoA & _).
  destruct (HiB i rb Hrb) as (HvB & _ & _).
  apply interval_row_invariant_upto_zero.
  apply carved_invariant_upto; [lra | done | done | done].
Qed.

(** * Further properties of the code *)

(** ** gcode_pocket_subtract: room, counts and what is left alone *)

Section subtract_more.

Variable eps : gfloat_t.

Lemma pieces_length_le (bs : list gcode_vec2d_t) :
  ∀ a : gcode_vec2d_t, (length (pieces eps a bs) ≤ S (length bs))%nat.
Proof.
  induction bs as [|b bs IH]; intros a; simpl; [lia |].
  destruct (contained_within eps b a); [simpl; pose proof (IH (b.2, a.2)); lia |].
  destruct (overlap_right b a); [pose proof (IH (a.1, b.1)); lia |].
  destruct (overlap_left b a); [pose proof (IH (b.2, a.2)); lia |].
  pose proof (IH a). lia.
Qed.

Lemma carved_length_le (bs ls : list gcode_vec2d_t) :
  (length (carved eps bs ls) ≤ length ls * S (length bs))%nat.
Proof.
  induction ls as [|a ls IH]; simpl; [lia |].
  rewrite length_app. pose proof (pieces_length_le bs a). lia.
Qed.

(** The rows of a completed [i] loop had room for their pieces. *)
Lemma subtract_Done_room (pocket_a pocket_b pocket_a' : gcode_pocket_t) :
  wf_pocket pocket_a → wf_pocket pocket_b →
  (row_num pocket_a ≤ row_num pocket_b)%nat →
  gcode_pocket_subtract eps pocket_a pocket_b = Done pocket_a' →
  ∀ i ra rb, rows pocket_a !! i = Some ra → rows pocket_b !! i = Some rb →
    (length (carved eps (lines rb) (lines ra)) ≤ length (line_array ra))%nat.
Proof.
  intros [HnA HwA] [HnB HwB] Hrows H i ra rb Hra Hrb.
  unfold gcode_pocket_subtract in H.
  apply bind_Done in H as (arows & H & _).
  rewrite Forall_lookup in HwA, HwB.
  apply rows_lookup in Hra as [Hi Hra]. apply rows_lookup in Hrb as [_ Hrb].
  apply subtract_i_loop_Done in H as (_ & _ & Hin).
  - destruct (Hin i ra rb ltac:(lia) Hra Hrb) as (ra' & _ & Hl & _ & Hwf & Hcap).
    rewrite <- Hl, <- Hcap, (lines_length ra' Hwf). exact Hwf.
  - intros k r Hk Hr. apply (HwA k). unfold rows.
    rewrite lookup_take_lt by lia. done.
  - intros k Hk.
    destruct (lookup_lt_is_Some_2 (row_array pocket_b) k) as [r Hr]; [lia |].
    exists r. split; [done |]. apply (HwB k). unfold rows.
    rewrite lookup_take_lt by lia. done.
Qed.

End subtract_more.

(** X1.  On well-formed grids where B has a row for every row of A, the
    subtraction completes exactly when the line array of every row of A has
    room for the pieces of its lines; when some row lacks the room the shift
    of the split leaves the array and the behaviour is undefined. *)
Theorem subtract_completes_iff_room (eps : gfloat_t)
    (pocket_a pocket_b : gcode_pocket_t) :
  wf_pocket pocket_a → wf_pocket pocket_b →
  (row_num pocket_a ≤ row_num pocket_b)%nat →
  let room :=
    ∀ i ra rb, rows pocket_a !! i = Some ra → rows pocket_b !! i = Some rb →
      (length (carved eps (lines rb) (lines ra)) ≤ length (line_array ra))%nat in
  (room → ∃ pocket_a', gcode_pocket_subtract eps pocket_a pocket_b = Done pocket_a') ∧
  (¬ room → gcode_pocket_subtract eps pocket_a pocket_b = Undefined).
Proof.
  intros HwA HwB Hrows room. split.
  - by apply subtract_total.
  - intros Hno.
    destruct (gcode_pocket_subtract eps pocket_a pocket_b) as [pocket_a'|e|] eqn:H.
    + destruct Hno.
      exact (subtract_Done_room eps pocket_a pocket_b pocket_a' HwA HwB Hrows H).
    + unfold gcode_pocket_subtract in H.
      exfalso. revert H. apply bind_not_Failed; [| done].
      intros e'. apply subtract_i_loop_not_Failed.
    + done.
Qed.

(** One island in a row with four slots fits; two islands inside the single
    line of a row with two slots do not: the second split has no free
    slot. *)
Lemma subtract_completes_iff_room_witness :
  (∃ pocket_a',
     gcode_pocket_subtract sample_precision sample_outer sample_island = Done pocket_a') ∧
  gcode_pocket_subtract sample_precision
    (pocket_of 1 [row_of 2 [(0, 10)] 0])
    (pocket_of 1 [row_of 4 [(1, 2); (3, 4)] 0]) = Undefined.
Proof.
  split.
  - apply (proj1 (subtract_completes_iff_room sample_precision sample_outer
                    sample_island sample_outer_wf sample_island_wf
                    ltac:(simpl; lia))).
    intros i ra rb Hra Hrb. destruct i as [|i]; [| discriminate Hra].
    injection Hra as <-. injection Hrb as <-. vm_compute. lia.
  - apply (proj2 (subtract_completes_iff_room sample_precision
                    (pocket_of 1 [row_of 2 [(0, 10)] 0])
                    (pocket_of 1 [row_of 4 [(1, 2); (3, 4)] 0])
                    ltac:(split; [simpl; lia | repeat constructor; unfold wf_row; simpl; lia])
                    ltac:(split; [simpl; lia | repeat constructor; unfold wf_row; simpl; lia])
                    ltac:(simpl; lia))).
    intros Hroom.
    pose proof (Hroom 0%nat (row_of 2 [(0, 10)] 0) (row_of 4 [(1, 2); (3, 4)] 0)
                  eq_refl eq_refl) as H.
    vm_compute in H. lia.
Defined.

(** X2.  A completed subtraction never removes a line and adds at most one
    line per pair of a line of A and a line of B: the new line count of a
    row lies between [line_num(A_i)] and
    [line_num(A_i) * (line_num(B_i) + 1)].  So the call completes whenever
    the line arrays of A have that many slots. *)
Theorem subtract_line_count_bounds (eps : gfloat_t)
    (pocket_a pocket_b : gcode_pocket_t) :
  wf_pocket pocket_a → wf_pocket pocket_b →
  (row_num pocket_a ≤ row_num pocket_b)%nat →
  (∀ pocket_a', gcode_pocket_subtract eps pocket_a pocket_b = Done pocket_a' →
     ∀ i ra rb ra',
       rows pocket_a !! i = Some ra → rows pocket_b !! i = Some rb →
       rows pocket_a' !! i = Some ra' →
       (line_num ra ≤ line_num ra' ≤ line_num ra * (line_num rb + 1))%nat) ∧
  ((∀ i ra rb, rows pocket_a !! i = Some ra → rows pocket_b !! i = Some rb →
      (line_num ra * (line_num rb + 1) ≤ length (line_array ra))%nat) →
   ∃ pocket_a', gcode_pocket_subtract eps pocket_a pocket_b = Done pocket_a').
Proof.
  intros HwA HwB Hrows. split.
  - intros pocket_a' Hsub i ra rb ra' Hra Hrb Hra'.
    destruct (subtract_Done eps pocket_a pocket_b pocket_a' HwA HwB Hrows Hsub)
      as (_ & _ & _ & HwA' & Hcarved).
    destruct (Hcarved i ra rb Hra Hrb) as (ra0 & Hra0 & Hl & _).
    rewrite Hra' in Hra0. injection Hra0 as <-.
    pose proof (lines_length ra' (rows_wf _ _ _ HwA' Hra')) as Hn'.
    pose proof (lines_length ra (rows_wf _ _ _ HwA Hra)) as Hn.
    pose proof (lines_length rb (rows_wf _ _ _ HwB Hrb)) as Hm.
    pose proof (carved_length eps (lines rb) (lines ra)) as Hlo.
    pose proof (carved_length_le eps (lines rb) (lines ra)) as Hhi.
    rewrite <- Hl, Hn', Hn in Hlo. rewrite <- Hl, Hn', Hn, Hm in Hhi. lia.
  - intros Hcap. apply subtract_total; [done | done | done |].
    intros i ra rb Hra Hrb.
    pose proof (lines_length ra (rows_wf _ _ _ HwA Hra)) as Hn.
    pose proof (lines_length rb (rows_wf _ _ _ HwB Hrb)) as Hm.
    pose proof (carved_length_le eps (lines rb) (lines ra)) as Hhi.
    pose proof (Hcap i ra rb Hra Hrb). rewrite Hn, Hm in Hhi. lia.
Qed.

Lemma subtract_line_count_bounds_witness :
  (1 ≤ 2 ≤ 1 * (1 + 1))%nat ∧
  ∃ pocket_a',
    gcode_pocket_subtract sample_precision sample_outer sample_island = Done pocket_a'.
Proof.
  split.
  - apply (proj1 (subtract_line_count_bounds sample_precision sample_outer
                    sample_island sample_outer_wf sample_island_wf
                    ltac:(simpl; lia))
             sample_carved ltac:(vm_compute; reflexivity)
             0%nat (row_of 4 [(0, 10)] 0) (row_of 4 [(3, 7)] 0)
             (mk_row 2 [(0, 3); (7, 10); (0, 0); (0, 0)] 0)
             eq_refl eq_refl eq_refl).
  - apply (proj2 (subtract_line_count_bounds sample_precision sample_outer
                    sample_island sample_outer_wf sample_island_wf
                    ltac:(simpl; lia))).
    intros i ra rb Hra Hrb. destruct i as [|i]; [| discriminate Hra].
    injection Hra as <-. injection Hrb as <-. simpl. lia.
Defined.

(** ** gcode_pocket_subtract: what a call leaves as it was *)

Section subtract_frame_facts.

Variable eps : gfloat_t.

Lemma shift_up_length (cnt j : nat) :
  ∀ arr arr' : list gcode_vec2d_t,
  shift_up cnt j arr = Done arr' → length arr' = length arr.
Proof.
  induction cnt as [|c IH]; intros arr arr'; simpl.
  - by intros [= <-].
  - intros H. apply bind_Done in H as (v & _ & H).
    apply bind_Done in H as (arr1 & Hw & H).
    apply write_Done in Hw as [_ ->]. apply IH in H.
    by rewrite length_insert in H.
Qed.

Lemma subtract_line_length (arr arr' : list gcode_vec2d_t) (n j n' j' : nat)
    (b : gcode_vec2d_t) :
  subtract_line eps (arr, n, j) b = Done (arr', n', j') →
  length arr' = length arr.
Proof.
  unfold subtract_line. intros H. apply bind_Done in H as (a & _ & H).
  destruct (contained_within eps b a).
  - apply bind_Done in H as (arr1 & H1 & H). apply shift_up_length in H1.
    apply bind_Done in H as (aj & _ & H).
    apply bind_Done in H as (arr2 & H2 & H). apply write_Done in H2 as [_ ->].
    apply bind_Done in H as (aj' & _ & H).
    apply bind_Done in H as (arr3 & H3 & H). apply write_Done in H3 as [_ ->].
    injection H as <- _ _. by rewrite !length_insert.
  - destruct (overlap_right b a); [| destruct (overlap_left b a)].
    + apply bind_Done in H as (arr1 & H1 & H). apply write_Done in H1 as [_ ->].
      injection H as <- _ _. by rewrite length_insert.
    + apply bind_Done in H as (arr1 & H1 & H). apply write_Done in H1 as [_ ->].
      injection H as <- _ _. by rewrite length_insert.
    + by injection H as <- _ _.
Qed.

Lemma subtract_k_loop_length (cnt : nat) :
  ∀ (k : nat) (barr arr arr' : list gcode_vec2d_t) (n j n' j' : nat),
  subtract_k_loop eps cnt k barr (arr, n, j) = Done (arr', n', j') →
  length arr' = length arr.
Proof.
  induction cnt as [|c IH]; intros k barr arr arr' n j n' j'; simpl.
  - by intros [= <- _ _].
  - intros H. apply bind_Done in H as (b & _ & H).
    apply bind_Done in H as ([[arr1 n1] j1] & H1 & H).
    apply subtract_line_length in H1. apply IH in H. congruence.
Qed.

Lemma subtract_j_loop_length (brows : list gcode_pocket_row_t) (i fuel : nat) :
  ∀ (arr arr' : list gcode_vec2d_t) (n j n' : nat),
  subtract_j_loop eps fuel brows i arr n j = Done (arr', n') →
  length arr' = length arr.
Proof.
  induction fuel as [|f IH]; intros arr arr' n j n'; simpl.
  - by intros [= <- _].
  - case_decide as Hj; [| by intros [= <- _]].
    intros H. apply bind_Done in H as (rb & _ & H).
    apply bind_Done in H as ([[arr1 n1] j1] & H1 & H).
    apply subtract_k_loop_length in H1. apply IH in H. congruence.
Qed.

Lemma subtract_row_frame (brows : list gcode_pocket_row_t) (i : nat)
    (ra ra' : gcode_pocket_row_t) :
  subtract_row eps brows i ra = Done ra' →
  y ra' = y ra ∧ length (line_array ra') = length (line_array ra).
Proof.
  unfold subtract_row. intros H.
  apply bind_Done in H as ([arr n] & H & [= <-]).
  apply subtract_j_loop_length in H. done.
Qed.

Lemma subtract_i_loop_frame (brows : list gcode_pocket_row_t) (cnt : nat) :
  ∀ (i : nat) (arows arows' : list gcode_pocket_row_t),
  subtract_i_loop eps cnt i arows brows = Done arows' →
  y <$> arows' = y <$> arows ∧
  (λ r, length (line_array r)) <$> arows' = (λ r, length (line_array r)) <$> arows ∧
  (∀ k, ¬ (i ≤ k < i + cnt)%nat → arows' !! k = arows !! k).
Proof.
  induction cnt as [|c IH]; intros i arows arows'; simpl.
  - by intros [= <-].
  - intros H. apply bind_Done in H as (ra & Hra & H). apply read_Done in Hra.
    apply bind_Done in H as (ra' & Hra' & H).
    apply subtract_row_frame in Hra' as [Hy Hcap].
    apply bind_Done in H as (arows1 & Hw & H).
    apply write_Done in Hw as [Hi ->].
    apply IH in H as (Hys & Hcaps & Hout).
    rewrite Hys, Hcaps, !list_fmap_insert, Hy, Hcap.
    split; [| split].
    + apply list_insert_id. by rewrite list_lookup_fmap, Hra.
    + apply list_insert_id. by rewrite list_lookup_fmap, Hra.
    + intros k Hk. rewrite Hout by lia. apply list_lookup_insert_ne. lia.
Qed.

(** A row whose lines no comparison touches comes back as it was. *)
Lemma subtract_i_loop_id (brows : list gcode_pocket_row_t) (cnt : nat) :
  ∀ (i : nat) (arows : list gcode_pocket_row_t),
  (i + cnt ≤ length arows)%nat →
  (∀ k ra, (i ≤ k < i + cnt)%nat → arows !! k = Some ra →
     subtract_row eps brows k ra = Done ra) →
  subtract_i_loop eps cnt i arows brows = Done arows.
Proof.
  induction cnt as [|c IH]; intros i arows Hlen Hid; simpl; [done |].
  destruct (lookup_lt_is_Some_2 arows i) as [ra Hra]; [lia |].
  rewrite (proj2 (read_Done _ _ _) Hra). cbn [mbind outcome_bind].
  rewrite (Hid i ra ltac:(lia) Hra). cbn [mbind outcome_bind].
  unfold write. rewrite decide_True by lia. cbn [mbind outcome_bind].
  rewrite list_insert_id by done. apply IH; [lia |].
  intros k r Hk. apply Hid. lia.
Qed.

(** The three tests fail for a line of B that lies clear of [a] on either
    side, or that covers [a] with more than the precision to spare. *)
Lemma clear_tests (a b : gcode_vec2d_t) :
  0 <= eps → b.1 <= b.2 →
  b.2 < a.1 - eps ∨ a.2 + eps < b.1 ∨ (b.1 < a.1 - eps ∧ a.2 + eps < b.2) →
  contained_within eps b a = false ∧ overlap_right b a = false ∧
  overlap_left b a = false.
Proof.
  intros Heps Hb Hclear. repeat split.
  - destruct (contained_within eps b a) eqn:H; [| done].
    apply contained_within_spec in H. lra.
  - destruct (overlap_right b a) eqn:H; [| done].
    apply overlap_right_spec in H. lra.
  - destruct (overlap_left b a) eqn:H; [| done].
    apply overlap_left_spec in H. lra.
Qed.

Lemma pieces_clear (a : gcode_vec2d_t) (bs : list gcode_vec2d_t) :
  0 <= eps →
  (∀ b, b ∈ bs → b.1 <= b.2 ∧
     (b.2 < a.1 - eps ∨ a.2 + eps < b.1 ∨ (b.1 < a.1 - eps ∧ a.2 + eps < b.2))) →
  pieces eps a bs = [a].
Proof.
  intros Heps. induction bs as [|b bs IH]; intros Hbs; [done |].
  destruct (Hbs b (list_elem_of_here _ _)) as [Hb Hclear].
  destruct (clear_tests a b Heps Hb Hclear) as (H1 & H2 & H3).
  simpl. rewrite H1, H2, H3. apply IH.
  intros b' Hb'. apply Hbs. by apply list_elem_of_further.
Qed.

Lemma carved_clear (bs ls : list gcode_vec2d_t) :
  0 <= eps →
  (∀ a b, a ∈ ls → b ∈ bs → b.1 <= b.2 ∧
     (b.2 < a.1 - eps ∨ a.2 + eps < b.1 ∨ (b.1 < a.1 - eps ∧ a.2 + eps < b.2))) →
  carved eps bs ls = ls.
Proof.
  intros Heps. induction ls as [|a ls IH]; intros H; [done |].
  simpl. rewrite pieces_clear; [| done |].
  - simpl. f_equal. apply IH. intros a' b Ha' Hb.
    apply H; [by apply list_elem_of_further | done].
  - intros b Hb. apply H; [apply list_elem_of_here | done].
Qed.

(** A row whose pieces are its lines is written back unchanged. *)
Lemma subtract_row_id (brows : list gcode_pocket_row_t) (i : nat)
    (ra rb : gcode_pocket_row_t) :
  wf_row ra → brows !! i = Some rb → wf_row rb →
  carved eps (lines rb) (lines ra) = lines ra →
  subtract_row eps brows i ra = Done ra.
Proof.
  intros Hwa Hrb Hwb Hc. rewrite (subtract_row_spec eps brows i ra rb) by done.
  cbv zeta. rewrite Hc. rewrite (lines_length ra Hwa).
  rewrite decide_True by exact Hwa.
  unfold lines. rewrite take_drop. by destruct ra.
Qed.

End subtract_frame_facts.

(** X3.  Whatever it does to the lines, a completed subtraction keeps the
    row count, the resolution, the height and the array capacity of every
    row, and the rows past the row count; it also keeps [seg_num], which is
    not recounted although splits add lines. *)
Theorem subtract_keeps_frame (eps : gfloat_t)
    (pocket_a pocket_b pocket_a' : gcode_pocket_t) :
  gcode_pocket_subtract eps pocket_a pocket_b = Done pocket_a' →
  row_num pocket_a' = row_num pocket_a ∧
  seg_num pocket_a' = seg_num pocket_a ∧
  resolution pocket_a' = resolution pocket_a ∧
  y <$> row_array pocket_a' = y <$> row_array pocket_a ∧
  (λ r, length (line_array r)) <$> row_array pocket_a'
  = (λ r, length (line_array r)) <$> row_array pocket_a ∧
  drop (row_num pocket_a) (row_array pocket_a')
  = drop (row_num pocket_a) (row_array pocket_a).
Proof.
  unfold gcode_pocket_subtract. intros H.
  apply bind_Done in H as (arows & H & [= <-]). simpl.
  apply subtract_i_loop_frame in H as (Hy & Hcap & Hout).
  repeat split; try done.
  apply list_eq. intros k. rewrite !lookup_drop. apply Hout. lia.
Qed.

(** The island of the sample splits the outer line: two lines, and a
    segment count that still says one. *)
Lemma subtract_keeps_frame_witness :
  row_num sample_carved = row_num sample_outer ∧
  seg_num sample_carved = seg_num sample_outer ∧
  resolution sample_carved = resolution sample_outer ∧
  y <$> row_array sample_carved = y <$> row_array sample_outer ∧
  (λ r, length (line_array r)) <$> row_array sample_carved
  = (λ r, length (line_array r)) <$> row_array sample_outer ∧
  drop (row_num sample_outer) (row_array sample_carved)
  = drop (row_num sample_outer) (row_array sample_outer).
Proof.
  apply (subtract_keeps_frame sample_precision sample_outer sample_island
           sample_carved).
  vm_compute. reflexivity.
Defined.

Example sample_carved_counts :
  seg_num sample_carved = 1%nat ∧ line_num <$> rows sample_carved = [2%nat].
Proof. split; reflexivity. Qed.

(** X4.  The subtraction is not a set difference: a line of B that covers a
    line of A with more than the precision to spare on both sides removes
    nothing from it.  When every line of B, in every row, lies clear of each
    line of A's row or covers it in that way, the call completes and returns
    A as it was. *)
Theorem subtract_leaves_uncut_lines (eps : gfloat_t)
    (pocket_a pocket_b : gcode_pocket_t) :
  0 <= eps →
  wf_pocket pocket_a → wf_pocket pocket_b →
  (row_num pocket_a ≤ row_num pocket_b)%nat →
  (∀ i ra rb a b,
     rows pocket_a !! i = Some ra → rows pocket_b !! i = Some rb →
     a ∈ lines ra → b ∈ lines rb →
     b.1 <= b.2 ∧
     (b.2 < a.1 - eps ∨ a.2 + eps < b.1 ∨ (b.1 < a.1 - eps ∧ a.2 + eps < b.2))) →
  gcode_pocket_subtract eps pocket_a pocket_b = Done pocket_a.
Proof.
  intros Heps [HnA HwA] [HnB HwB] Hrows Hclear.
  rewrite Forall_lookup in HwA, HwB.
  unfold gcode_pocket_subtract.
  rewrite subtract_i_loop_id; [by destruct pocket_a | simpl; lia |].
  intros k ra Hk Hra.
  destruct (lookup_lt_is_Some_2 (row_array pocket_b) k) as [rb Hrb]; [lia |].
  assert (Hra' : rows pocket_a !! k = Some ra)
    by (unfold rows; rewrite lookup_take_lt by lia; done).
  assert (Hrb' : rows pocket_b !! k = Some rb)
    by (unfold rows; rewrite lookup_take_lt by lia; done).
  apply (subtract_row_id eps _ k ra rb); [by apply (HwA k) | done | by apply (HwB k) |].
  apply carved_clear; [done |]. intros a b Ha Hb. by apply (Hclear k ra rb).
Qed.

(** The island [-5, 20] covers the outer line [0, 10]: nothing is cut. *)
Lemma subtract_leaves_uncut_lines_witness :
  gcode_pocket_subtract sample_precision sample_outer sample_covering
  = Done sample_outer.
Proof.
  apply (subtract_leaves_uncut_lines sample_precision sample_outer sample_covering
           ltac:(vm_compute; discriminate) sample_outer_wf
           ltac:(split; [simpl; lia | repeat constructor; unfold wf_row; simpl; lia])
           ltac:(simpl; lia)).
  intros i ra rb a b Hra Hrb Ha Hb. destruct i as [|i]; [| discriminate Hra].
  injection Hra as <-. injection Hrb as <-.
  apply list_elem_of_singleton in Ha as ->.
  apply list_elem_of_singleton in Hb as ->.
  split; [vm_compute; discriminate |]. right. right.
  split; vm_compute; reflexivity.
Defined.

(** ** gcode_pocket_subtract: grids with fewer rows, rows without lines *)

Section subtract_rows_facts.

Variable eps : gfloat_t.

Lemma subtract_row_no_row (brows : list gcode_pocket_row_t) (i : nat)
    (ra : gcode_pocket_row_t) :
  (length brows ≤ i)%nat → (0 < line_num ra)%nat →
  subtract_row eps brows i ra = Undefined.
Proof.
  intros Hlen Hn. unfold subtract_row.
  rewrite subtract_j_loop_no_row; [done | by apply lookup_ge_None_2 | done | done].
Qed.

Lemma subtract_i_loop_no_row (brows : list gcode_pocket_row_t) (i : nat)
    (ra : gcode_pocket_row_t) (cnt : nat) :
  ∀ (start : nat) (arows : list gcode_pocket_row_t),
  (start ≤ i < start + cnt)%nat → arows !! i = Some ra →
  (length brows ≤ i)%nat → (0 < line_num ra)%nat →
  subtract_i_loop eps cnt start arows brows = Undefined.
Proof.
  induction cnt as [|c IH]; intros start arows Hi Hra Hlen Hn; [lia |].
  simpl. destruct (decide (start = i)) as [-> | Hne].
  - rewrite (proj2 (read_Done _ _ _) Hra). cbn [mbind outcome_bind].
    by rewrite subtract_row_no_row.
  - destruct (read arows start) as [r0| |] eqn:Hr0; cbn [mbind outcome_bind];
      [| by destruct (read_not_Failed arows start e) | done].
    destruct (subtract_row eps brows start r0) as [r0'| |] eqn:Hr0'; cbn [mbind outcome_bind];
      [| | done].
    + destruct (write arows start r0') as [arows'| |] eqn:Hw; cbn [mbind outcome_bind];
        [| by destruct (write_not_Failed arows start r0' e) | done].
      apply write_Done in Hw as [_ ->].
      apply IH; [lia | | done | done].
      by rewrite list_lookup_insert_ne.
    + exfalso. revert Hr0'. unfold subtract_row.
      apply bind_not_Failed; [intros e'; apply subtract_j_loop_not_Failed |].
      by intros [arr n] e'.
Qed.

Lemma subtract_row_no_lines (brows : list gcode_pocket_row_t) (i : nat)
    (ra : gcode_pocket_row_t) :
  line_num ra = 0%nat → subtract_row eps brows i ra = Done ra.
Proof.
  intros Hn. unfold subtract_row. rewrite Hn. simpl.
  destruct ra; simpl in *; by subst.
Qed.

End subtract_rows_facts.

(** X5.  When grid B has fewer allocated rows than A has rows, the row loop
    runs on to A's row count: at the first row of A past B's array that
    holds a line, B's row is read out of bounds.  No error is reported and
    no row count is compared. *)
Theorem subtract_reads_past_shorter_grid (eps : gfloat_t)
    (pocket_a pocket_b : gcode_pocket_t) (i : nat) (ra : gcode_pocket_row_t) :
  rows pocket_a !! i = Some ra → (0 < line_num ra)%nat →
  (length (row_array pocket_b) ≤ i)%nat →
  gcode_pocket_subtract eps pocket_a pocket_b = Undefined.
Proof.
  intros Hra Hn Hlen. unfold gcode_pocket_subtract.
  unfold rows in Hra. apply lookup_take_Some in Hra as [Hra Hi].
  rewrite (subtract_i_loop_no_row eps (row_array pocket_b) i ra); [done | lia | done..].
Qed.

Lemma subtract_reads_past_shorter_grid_witness :
  gcode_pocket_subtract sample_precision sample_outer sample_no_rows = Undefined.
Proof.
  apply (subtract_reads_past_shorter_grid sample_precision sample_outer
           sample_no_rows 0 (row_of 4 [(0, 10)] 0)).
  - reflexivity.
  - simpl. lia.
  - simpl. lia.
Defined.

(** X6.  Rows of A that hold no line are skipped without touching B: when
    no row of A has a line, the call returns A as it was for every B, also
    one without rows. *)
Theorem subtract_skips_rows_without_lines (eps : gfloat_t)
    (pocket_a pocket_b : gcode_pocket_t) :
  (row_num pocket_a ≤ length (row_array pocket_a))%nat →
  (∀ i ra, rows pocket_a !! i = Some ra → line_num ra = 0%nat) →
  gcode_pocket_subtract eps pocket_a pocket_b = Done pocket_a.
Proof.
  intros Hlen Hempty. unfold gcode_pocket_subtract.
  rewrite subtract_i_loop_id; [by destruct pocket_a | simpl; lia |].
  intros k ra Hk Hra. apply subtract_row_no_lines.
  apply (Hempty k). unfold rows. rewrite lookup_take_lt by lia. done.
Qed.

Lemma subtract_skips_rows_without_lines_witness :
  gcode_pocket_subtract sample_precision sample_empty_rows sample_no_rows
  = Done sample_empty_rows.
Proof.
  apply (subtract_skips_rows_without_lines sample_precision sample_empty_rows
           sample_no_rows).
  - simpl. lia.
  - intros i ra Hra. destruct i as [|[|i]]; [| | discriminate Hra].
    + by injection Hra as <-.
    + by injection Hra as <-.
Defined.

(** ** gcode_pocket_prep: the grid of scanlines *)

Section prep_grid_facts.

Variable qsort_asc : list gfloat_t → list gfloat_t.
Variable remove_duplicates : list gfloat_t → list gfloat_t.
Variable uninit_scalar : gfloat_t.
Variable uninit_line : gcode_vec2d_t.
Variable tool : gcode_tool_t.
Variable blocks : list gcode_block_t.

#[local] Opaque X_CAPACITY LINE_CAPACITY.

(** The heights of the rows that the loop appends, and the height at which
    it stops. *)
Lemma prep_y_loop_grid (y_max : gfloat_t) (fuel : nat) :
  ∀ (y0 : gfloat_t) (pocket pocket' : gcode_pocket_t),
  (row_num pocket ≤ length (row_array pocket))%nat →
  prep_y_loop qsort_asc remove_duplicates uninit_scalar uninit_line
    fuel tool blocks y_max y0 pocket = Done pocket' →
  resolution pocket' = resolution pocket ∧
  length (row_array pocket') = length (row_array pocket) ∧
  y_max < y0 + inject_Z (Z.of_nat (row_num pocket' - row_num pocket)) * resolution pocket ∧
  (∀ k r, (row_num pocket ≤ k < row_num pocket')%nat →
     row_array pocket' !! k = Some r →
     y r == y0 + inject_Z (Z.of_nat (k - row_num pocket)) * resolution pocket ∧
     y r <= y_max).
Proof.
  assert (Hstop : ∀ (y0 : gfloat_t) (pocket : gcode_pocket_t),
    (y0 <=? y_max) = false →
    resolution pocket = resolution pocket ∧
    length (row_array pocket) = length (row_array pocket) ∧
    y_max < y0 + inject_Z (Z.of_nat (row_num pocket - row_num pocket)) * resolution pocket ∧
    (∀ k r, (row_num pocket ≤ k < row_num pocket)%nat →
       row_array pocket !! k = Some r →
       y r == y0 + inject_Z (Z.of_nat (k - row_num pocket)) * resolution pocket ∧
       y r <= y_max)).
  { intros y0 pocket Hle. apply fle_false in Hle.
    split; [done |]. split; [done |]. split.
    - rewrite Nat.sub_diag. change (inject_Z (Z.of_nat 0)) with 0. lra.
    - intros k r Hk. lia. }
  induction fuel as [|f IH]; intros y0 pocket pocket' Hn; cbn [prep_y_loop].
  - destruct (y0 <=? y_max) eqn:Hle; [done |]. intros [= <-]. by apply Hstop.
  - destruct (y0 <=? y_max) eqn:Hle; [| intros [= <-]; by apply Hstop].
    apply fle_spec in Hle.
    rewrite prep_row_spec. case_decide as Hok; [| done].
    destruct Hok as (Hx & Hl & Hr). cbn [mbind outcome_bind].
    intros H. pose proof H as H'.
    apply prep_y_loop_Done in H' as (Hn' & Hold & _ & _);
      [| simpl; rewrite length_insert; lia].
    apply IH in H as (Hres & Hlen & Hend & Hrows);
      [| simpl; rewrite length_insert; lia].
    simpl in Hn', Hold, Hres, Hlen, Hend, Hrows.
    rewrite length_insert in Hlen.
    split; [done |]. split; [done |]. split.
    + replace (row_num pocket' - row_num pocket)%nat
        with (S (row_num pocket' - S (row_num pocket))) by lia.
      pose proof (tolerance_succ (row_num pocket' - S (row_num pocket))
                    (resolution pocket)).
      lra.
    + intros k r Hk Hkr. destruct (decide (k = row_num pocket)) as [-> | Hne].
      * rewrite Hold in Hkr by lia.
        rewrite list_lookup_insert_eq in Hkr by lia.
        injection Hkr as <-. simpl. rewrite Nat.sub_diag.
        change (inject_Z (Z.of_nat 0)) with 0. split; [lra | done].
      * destruct (Hrows k r ltac:(lia) Hkr) as [Hy Hmax]. split; [| done].
        replace (k - row_num pocket)%nat with (S (k - S (row_num pocket))) by lia.
        pose proof (tolerance_succ (k - S (row_num pocket)) (resolution pocket)).
        lra.
Qed.

End prep_grid_facts.

(** What a list of stepped heights looks like. *)
Lemma stepped_lookup (y_max res : gfloat_t) (ys : list gfloat_t) :
  ∀ y0, stepped y_max res y0 ys →
  (∀ a, ys !! 0%nat = Some a → a = y0) ∧
  (∀ k a b, ys !! k = Some a → ys !! S k = Some b → b = a + res) ∧
  (∀ k a, ys !! k = Some a → a <= y_max) ∧
  match last ys with
  | Some a => y_max < a + res
  | None => y_max < y0
  end.
Proof.
  induction ys as [|y1 ys IH]; intros y0 H.
  - simpl in H. repeat split; try done.
  - simpl in H. destruct H as (-> & Hle & H).
    destruct (IH _ H) as (Hfirst & Hnext & Hmax & Hlast).
    split; [by intros a [= <-] |]. split; [| split].
    + intros k a b Ha Hb. destruct k as [|k].
      * injection Ha as <-. by apply Hfirst.
      * by apply (Hnext k).
    + intros k a Ha. destruct k as [|k]; [by injection Ha as <- |].
      by apply (Hmax k).
    + destruct ys as [|y2 ys]; [done |].
      change (last (y0 :: y2 :: ys)) with (last (y2 :: ys)).
      destruct (last (y2 :: ys)) as [a|] eqn:Hl; [done |].
      by apply last_None in Hl.
Qed.

(** X7.  The scanlines of a completed [gcode_pocket_prep].  The resolution
    is unchanged; the first row lies at [-origin], every further row one
    resolution above the row before it, no row lies above [size - origin],
    and the height after the last row does: no scanline of the material is
    left out.  Without a row, [size] is negative. *)
Theorem prep_scanline_grid
    (qsort_asc remove_duplicates : list gfloat_t → list gfloat_t)
    (uninit_scalar : gfloat_t) (uninit_line : gcode_vec2d_t)
    (uninit_row : gcode_pocket_row_t)
    (pocket : gcode_pocket_t) (gcode : gcode_t) (tool : gcode_tool_t)
    (blocks : list gcode_block_t) (pocket' : gcode_pocket_t) :
  gcode_pocket_prep qsort_asc remove_duplicates uninit_scalar uninit_line uninit_row
    pocket gcode tool blocks = Done pocket' →
  resolution pocket' = resolution pocket ∧
  (∀ r, rows pocket' !! 0%nat = Some r → y r = - material_origin gcode) ∧
  (∀ k r r', rows pocket' !! k = Some r → rows pocket' !! S k = Some r' →
     y r' = y r + resolution pocket) ∧
  (∀ k r, rows pocket' !! k = Some r →
     y r <= material_size gcode - material_origin gcode) ∧
  match last (rows pocket') with
  | Some r => material_size gcode - material_origin gcode < y r + resolution pocket
  | None => material_size gcode - material_origin gcode < - material_origin gcode
  end.
Proof.
  intros H. pose proof (prep_Done_stepped _ _ _ _ _ _ _ _ _ _ H) as Hstep.
  apply stepped_lookup in Hstep as (Hfirst & Hnext & Hmax & Hlast).
  apply prep_Done_loop in H as (n & Hn & H).
  apply prep_y_loop_grid in H as (Hres & _); [| simpl; lia].
  simpl in Hres.
  split; [done |]. split; [| split; [| split]].
  - intros r Hr. apply Hfirst. by rewrite list_lookup_fmap, Hr.
  - intros k r r' Hr Hr'. apply (Hnext k); by rewrite list_lookup_fmap, ?Hr, ?Hr'.
  - intros k r Hr. apply (Hmax k). by rewrite list_lookup_fmap, Hr.
  - rewrite fmap_last in Hlast. by destruct (last (rows pocket')).
Qed.

(** The square of the spec: material of size 10 at resolution 1 gives rows
    at the heights 0, 1, ... 10. *)
Lemma prep_scanline_grid_witness :
  resolution sample_square_pocket = resolution (gcode_pocket_init 1) ∧
  (∀ r, rows sample_square_pocket !! 0%nat = Some r →
     y r = - material_origin sample_gcode) ∧
  (∀ k r r', rows sample_square_pocket !! k = Some r →
     rows sample_square_pocket !! S k = Some r' →
     y r' = y r + resolution (gcode_pocket_init 1)) ∧
  (∀ k r, rows sample_square_pocket !! k = Some r →
     y r <= material_size sample_gcode - material_origin sample_gcode) ∧
  match last (rows sample_square_pocket) with
  | Some r => material_size sample_gcode - material_origin sample_gcode
              < y r + resolution (gcode_pocket_init 1)
  | None => material_size sample_gcode - material_origin sample_gcode
            < - material_origin sample_gcode
  end.
Proof.
  apply (prep_scanline_grid sample_qsort_asc
           (sample_remove_duplicates sample_precision) 0 (0, 0) (row_of 0 [] 0)
           (gcode_pocket_init 1) sample_gcode sample_tool sample_square
           sample_square_pocket).
  vm_compute. reflexivity.
Defined.

Example sample_square_heights :
  y <$> rows sample_square_pocket = [0; 1; 2; 3; 4; 5; 6; 7; 8; 9; 10].
Proof. vm_compute. reflexivity. Qed.

(** ** gcode_pocket_prep: the lines of a row *)

Lemma ascending_cons (a : gfloat_t) (xs : list gfloat_t) :
  ascending (a :: xs) ↔
  match xs with b :: _ => a <= b | [] => True end ∧ ascending xs.
Proof. done. Qed.

(** Lines made from sorted crossings with a tool of non-negative diameter
    start at or after the first crossing, are wider than 0.8 diameters and
    follow one another from left to right. *)
Lemma kept_lines_ordered (tool : gcode_tool_t) (xs : list gfloat_t) :
  0 <= diameter tool → ascending xs →
  ∀ m, match xs with a :: _ => m <= a | [] => True end →
  Forall (λ l, m <= l.1 ∧ 0.8 * diameter tool < l.2 - l.1) (kept_lines tool xs) ∧
  left_to_right (kept_lines tool xs).
Proof.
  intros Hd. remember (length xs) as n eqn:Hn. revert xs Hn.
  induction n as [n IH] using lt_wf_ind. intros xs Hn Hasc m Hm.
  destruct xs as [|a [|b xs]]; [done | done |].
  apply ascending_cons in Hasc as [Hab Hasc].
  pose proof Hasc as Hasc'. apply ascending_cons in Hasc' as [Hb Hrest].
  simpl in Hn.
  destruct (IH (length xs) ltac:(lia) xs eq_refl Hrest b) as [Hall Hltr].
  { destruct xs; [done | exact Hb]. }
  rewrite kept_lines_pair.
  destruct (fabs (b - a) >? diameter tool) eqn:Hwide.
  - apply fgt_spec in Hwide. unfold fabs in Hwide.
    rewrite Qabs_pos in Hwide by lra. split.
    + apply Forall_cons. split; [simpl; lra |].
      eapply Forall_impl; [exact Hall |]. intros l [H1 H2]. split; [lra | done].
    + apply left_to_right_cons. split; [| done].
      destruct (kept_lines tool xs) as [|l ls]; [done |].
      apply Forall_cons in Hall as [[H1 _] _]. simpl. lra.
  - split; [| done].
    eapply Forall_impl; [exact Hall |]. intros l [H1 H2]. split; [lra | done].
Qed.

(** An unpaired last crossing adds no pair. *)
Lemma crossing_pairs_unpaired (xs : list gfloat_t) (x : gfloat_t) :
  Nat.even (length xs) = true → crossing_pairs (xs ++ [x]) = crossing_pairs xs.
Proof.
  remember (length xs) as n eqn:Hn. revert xs Hn.
  induction n as [n IH] using lt_wf_ind. intros xs Hn Heven.
  destruct xs as [|a [|b xs]]; [done | by subst n |].
  subst n. cbn [app crossing_pairs]. f_equal.
  apply (IH (length xs)); [simpl; lia | done | done].
Qed.

(** X8.  The rows that [gcode_pocket_prep] produces are rows that
    [gcode_pocket_subtract] and [gcode_pocket_make] can take.  When the
    tool diameter is not negative and the crossings of every scanline come
    out of the sort and the removal of duplicates in ascending order, a
    completed call returns a grid whose line counts fit its line arrays and
    whose rows satisfy the interval-row invariant; every line is wider than
    0.8 tool diameters. *)
Theorem prep_rows_satisfy_invariant
    (qsort_asc remove_duplicates : list gfloat_t → list gfloat_t)
    (uninit_scalar : gfloat_t) (uninit_line : gcode_vec2d_t)
    (uninit_row : gcode_pocket_row_t)
    (pocket : gcode_pocket_t) (gcode : gcode_t) (tool : gcode_tool_t)
    (blocks : list gcode_block_t) (pocket' : gcode_pocket_t) :
  0 <= diameter tool →
  (∀ y0, ascending (remove_duplicates (qsort_asc (crossings blocks y0)))) →
  gcode_pocket_prep qsort_asc remove_duplicates uninit_scalar uninit_line uninit_row
    pocket gcode tool blocks = Done pocket' →
  wf_pocket pocket' ∧
  Forall (λ r, interval_row_invariant (lines r) ∧
               Forall (λ l, 0.8 * diameter tool < l.2 - l.1) (lines r))
    (rows pocket').
Proof.
  intros Hd Hasc H. apply prep_Done in H as (Hn & Hrows & _).
  split; [split; [done |] |].
  - eapply Forall_impl; [exact Hrows |].
    intros r (_ & _ & Harr & _ & Hcap). unfold wf_row. lia.
  - eapply Forall_impl; [exact Hrows |].
    intros r (Hl & _). rewrite Hl.
    set (xs := remove_duplicates (qsort_asc (crossings blocks (y r)))).
    assert (Hm : match xs with a :: _ => match xs with a' :: _ => a' | [] => 0 end <= a
                          | [] => True end)
      by (destruct xs; [done | lra]).
    destruct (kept_lines_ordered tool xs Hd (Hasc (y r)) _ Hm) as [Hall Hltr].
    assert (Hvalid : Forall (λ l : gcode_vec2d_t, l.1 <= l.2) (kept_lines tool xs)).
    { eapply Forall_impl; [exact Hall |]. intros l [_ Hw]. simpl in Hw. lra. }
    split.
    + split; [done |]. split; [done |]. by apply left_to_right_non_overlapping.
    + eapply Forall_impl; [exact Hall |]. by intros l [_ Hw].
Qed.

Lemma prep_rows_satisfy_invariant_witness :
  wf_pocket sample_square_pocket ∧
  Forall (λ r, interval_row_invariant (lines r) ∧
               Forall (λ l, 0.8 * diameter sample_tool < l.2 - l.1) (lines r))
    (rows sample_square_pocket).
Proof.
  apply (prep_rows_satisfy_invariant sample_qsort_asc
           (sample_remove_duplicates sample_precision) 0 (0, 0) (row_of 0 [] 0)
           (gcode_pocket_init 1) sample_gcode sample_tool sample_square
           sample_square_pocket).
  - vm_compute. discriminate.
  - intros y0. vm_compute. split; [discriminate | done].
  - vm_compute. reflexivity.
Defined.

(** X9.  The pairing loop takes the sorted crossings two at a time and
    stops when fewer than two are left: a completed call has ignored the
    last crossing of every scanline that has an odd number of them, and has
    stored no line on a scanline with fewer than two crossings. *)
Theorem prep_ignores_unpaired_crossing
    (qsort_asc remove_duplicates : list gfloat_t → list gfloat_t)
    (uninit_scalar : gfloat_t) (uninit_line : gcode_vec2d_t)
    (uninit_row : gcode_pocket_row_t)
    (pocket : gcode_pocket_t) (gcode : gcode_t) (tool : gcode_tool_t)
    (blocks : list gcode_block_t) (pocket' : gcode_pocket_t) :
  gcode_pocket_prep qsort_asc remove_duplicates uninit_scalar uninit_line uninit_row
    pocket gcode tool blocks = Done pocket' →
  Forall
    (λ r,
       let sorted := remove_duplicates (qsort_asc (crossings blocks (y r))) in
       (∀ xs x, sorted = xs ++ [x] → Nat.even (length xs) = true →
          lines r
          = map (λ p, (p.1 + 0.1 * diameter tool, p.2 - 0.1 * diameter tool))
              (List.filter (λ p, fabs (p.2 - p.1) >? diameter tool)
                 (crossing_pairs xs))) ∧
       ((length sorted < 2)%nat → line_num r = 0%nat))
    (rows pocket').
Proof.
  intros H. apply prep_Done in H as (_ & Hrows & _).
  eapply Forall_impl; [exact Hrows |].
  intros r (Hl & Hnum & _). cbv zeta. split.
  - intros xs x Hsorted Heven. rewrite Hl, Hsorted.
    unfold kept_lines. by rewrite crossing_pairs_unpaired.
  - intros Hshort. rewrite Hnum, Hl. by rewrite kept_lines_short.
Qed.

(** Three crossings 0, 10 and 12 on the only scanline: the row holds the
    line made of 0 and 10. *)
Lemma prep_ignores_unpaired_crossing_witness :
  Forall
    (λ r,
       let sorted :=
         sample_remove_duplicates sample_precision
           (sample_qsort_asc (crossings sample_odd (y r))) in
       (∀ xs x, sorted = xs ++ [x] → Nat.even (length xs) = true →
          lines r
          = map (λ p, (p.1 + 0.1 * diameter sample_tool,
                       p.2 - 0.1 * diameter sample_tool))
              (List.filter (λ p, fabs (p.2 - p.1) >? diameter sample_tool)
                 (crossing_pairs xs))) ∧
       ((length sorted < 2)%nat → line_num r = 0%nat))
    (rows (done_or (gcode_pocket_init 1)
             (gcode_pocket_prep sample_qsort_asc
                (sample_remove_duplicates sample_precision) 0 (0, 0) (row_of 0 [] 0)
                (gcode_pocket_init 1)
                {| material_size := 0; material_origin := 0; ztraverse := 5 |}
                sample_tool sample_odd))).
Proof.
  apply (prep_ignores_unpaired_crossing sample_qsort_asc
           (sample_remove_duplicates sample_precision) 0 (0, 0) (row_of 0 [] 0)
           (gcode_pocket_init 1)
           {| material_size := 0; material_origin := 0; ztraverse := 5 |}
           sample_tool sample_odd).
  vm_compute. reflexivity.
Defined.

Example sample_odd_lines :
  lines <$> rows (done_or (gcode_pocket_init 1)
             (gcode_pocket_prep sample_qsort_asc
                (sample_remove_duplicates sample_precision) 0 (0, 0) (row_of 0 [] 0)
                (gcode_pocket_init 1)
                {| material_size := 0; material_origin := 0; ztraverse := 5 |}
                sample_tool sample_odd))
  = [[(0.1, 9.9)]].
Proof. vm_compute. reflexivity. Qed.

(** ** gcode_pocket_prep: fresh storage *)

Section prep_storage_facts.

Variable qsort_asc : list gfloat_t → list gfloat_t.
Variable remove_duplicates : list gfloat_t → list gfloat_t.
Variables uninit_scalar uninit_scalar' : gfloat_t.
Variables uninit_line uninit_line' : gcode_vec2d_t.
Variable tool : gcode_tool_t.
Variable blocks : list gcode_block_t.

#[local] Opaque X_CAPACITY LINE_CAPACITY.

Lemma prep_y_loop_same_visible (y_max : gfloat_t) (fuel : nat) :
  ∀ (y0 : gfloat_t) (p q : gcode_pocket_t),
  same_visible p q →
  match prep_y_loop qsort_asc remove_duplicates uninit_scalar uninit_line
          fuel tool blocks y_max y0 p,
        prep_y_loop qsort_asc remove_duplicates uninit_scalar' uninit_line'
          fuel tool blocks y_max y0 q with
  | Done p', Done q' => same_visible p' q'
  | Undefined, Undefined => True
  | _, _ => False
  end.
Proof.
  induction fuel as [|f IH]; intros y0 p q Hpq; cbn [prep_y_loop].
  - by destruct (y0 <=? y_max).
  - destruct (y0 <=? y_max); [| done].
    rewrite !prep_row_spec.
    destruct Hpq as (Hn & Hs & Hr & Hlen & Hrows).
    destruct (decide (length (crossings blocks y0) ≤ X_CAPACITY
                      ∧ length (kept_lines tool
                                  (remove_duplicates (qsort_asc (crossings blocks y0))))
                        ≤ LINE_CAPACITY
                      ∧ row_num p < length (row_array p))%nat) as [Hok | Hno].
    + rewrite decide_True by (rewrite <- Hn, <- Hlen; exact Hok).
      cbn [mbind outcome_bind]. rewrite Hr. apply IH.
      destruct Hok as (_ & _ & Hrow).
      assert (Hrow' : (row_num q < length (row_array q))%nat) by lia.
      split; [simpl; lia |]. split; [simpl; lia |]. split; [done |].
      split; [simpl; by rewrite !length_insert |].
      unfold rows in *. simpl.
      rewrite (take_S_r _ _ _ (list_lookup_insert_eq _ _ _ Hrow)).
      rewrite (take_S_r (<[row_num q:=_]> (row_array q)) (row_num q) _
                 (list_lookup_insert_eq _ _ _ Hrow')).
      rewrite !take_insert_ge by lia. rewrite !fmap_app, Hrows.
      f_equal. simpl. unfold visible_row, lines. simpl.
      by rewrite !take_app_length.
    + rewrite decide_False by (rewrite <- Hn, <- Hlen; exact Hno). done.
Qed.

End prep_storage_facts.

(** X10.  [gcode_pocket_prep] never lets the content of fresh storage reach
    its result: whatever [x_array], the [malloc]ed line arrays and the
    [calloc]ed row array happen to hold, the call has the same outcome, and
    a completed call returns the same row count, segment count, resolution,
    lines and heights. *)
Theorem prep_result_independent_of_fresh_storage
    (qsort_asc remove_duplicates : list gfloat_t → list gfloat_t)
    (uninit_scalar uninit_scalar' : gfloat_t) (uninit_line uninit_line' : gcode_vec2d_t)
    (uninit_row uninit_row' : gcode_pocket_row_t)
    (pocket : gcode_pocket_t) (gcode : gcode_t) (tool : gcode_tool_t)
    (blocks : list gcode_block_t) :
  match gcode_pocket_prep qsort_asc remove_duplicates uninit_scalar uninit_line
          uninit_row pocket gcode tool blocks,
        gcode_pocket_prep qsort_asc remove_duplicates uninit_scalar' uninit_line'
          uninit_row' pocket gcode tool blocks with
  | Done p, Done q =>
      row_num p = row_num q ∧ seg_num p = seg_num q ∧ resolution p = resolution q ∧
      (λ r, (lines r, y r)) <$> rows p = (λ r, (lines r, y r)) <$> rows q
  | Undefined, Undefined => True
  | _, _ => False
  end.
Proof.
  unfold gcode_pocket_prep. destruct (Qeq_bool (resolution pocket) 0); [done |].
  unfold int_of_gfloat. case_decide as Hrange; [| done].
  cbn [mbind outcome_bind].
  set (allocated := Z.to_nat (truncate (1 + material_size gcode / resolution pocket))).
  pose proof (prep_y_loop_same_visible qsort_asc remove_duplicates
                uninit_scalar uninit_scalar' uninit_line uninit_line' tool blocks
                (material_size gcode - material_origin gcode) allocated
                (- material_origin gcode)
                {| row_num := 0; seg_num := seg_num pocket;
                   row_array := replicate allocated uninit_row;
                   resolution := resolution pocket |}
                {| row_num := 0; seg_num := seg_num pocket;
                   row_array := replicate allocated uninit_row';
                   resolution := resolution pocket |}) as H.
  specialize (H ltac:(repeat split; simpl; by rewrite ?length_replicate)).
  repeat match type of H with
         | match ?o with Done _ => _ | Failed _ => _ | Undefined => _ end =>
             destruct o
         end; try done.
  by destruct H as (Hn & Hs & Hr & _ & Hrows).
Qed.

(** ** gcode_pocket_subtract: what is taken away lies in B *)

Section subtract_loss_facts.

Variable eps : gfloat_t.
Hypothesis eps_nonneg : 0 <= eps.

(** A point of [a] lies on one of the pieces left of [a] or on a line of
    B. *)
Lemma pieces_loss (bs : list gcode_vec2d_t) (x : gfloat_t) :
  Forall (λ b, b.1 <= b.2) bs →
  ∀ a : gcode_vec2d_t, covers a x →
  covered (pieces eps a bs) x ∨ covered bs x.
Proof.
  induction bs as [|b bs IH]; intros Hbs a Hx.
  - left. exists a. split; [apply list_elem_of_here | done].
  - apply Forall_cons in Hbs as [Hb Hbs]. unfold covers in Hx.
    assert (Hhere : b.1 <= x <= b.2 → covered (b :: bs) x).
    { intros H. exists b. split; [apply list_elem_of_here | done]. }
    assert (Hnext : ∀ a', covers a' x →
              ∀ ls, (∀ l, l ∈ pieces eps a' bs → l ∈ ls) →
              covered ls x ∨ covered (b :: bs) x).
    { intros a' Ha' ls Hls. destruct (IH Hbs a' Ha') as [(l & Hl & Hlx) | (b' & Hb' & Hbx)].
      - left. exists l. split; [by apply Hls | done].
      - right. exists b'. split; [by apply list_elem_of_further | done]. }
    simpl. destruct (contained_within eps b a) eqn:Hc.
    + destruct (Qlt_le_dec b.1 x) as [H1 | H1];
        [destruct (Qlt_le_dec x b.2) as [H2 | H2] |].
      * right. apply Hhere. lra.
      * apply (Hnext (b.2, a.2)); [unfold covers; simpl; lra |].
        intros l Hl. by apply list_elem_of_further.
      * left. exists (a.1, b.1). split; [apply list_elem_of_here |].
        unfold covers. simpl. lra.
    + assert (Hnc : ¬ (a.1 <= b.1 + eps ∧ b.1 - eps <= a.2 ∧
                       a.1 <= b.2 + eps ∧ b.2 - eps <= a.2)).
      { intros H. apply contained_within_spec in H. congruence. }
      destruct (overlap_right b a) eqn:Hr; [| destruct (overlap_left b a) eqn:Hl].
      * apply overlap_right_spec in Hr as [Hr1 Hr2].
        destruct (Qlt_le_dec b.1 x) as [H1 | H1].
        -- right. apply Hhere. split; [lra |].
           destruct (Qlt_le_dec (a.2 + eps) b.2) as [H2 | H2]; [lra |].
           destruct Hnc. lra.
        -- apply (Hnext (a.1, b.1)); [unfold covers; simpl; lra | done].
      * apply overlap_left_spec in Hl as [Hl1 Hl2].
        assert (Hnr : ¬ (a.1 < b.1 ∧ b.1 < a.2)).
        { intros H. apply overlap_right_spec in H. congruence. }
        destruct (Qlt_le_dec x b.2) as [H2 | H2].
        -- right. apply Hhere. split; [| lra].
           destruct (Qlt_le_dec a.1 b.1) as [H1 | H1]; [| lra].
           destruct Hnr. lra.
        -- apply (Hnext (b.2, a.2)); [unfold covers; simpl; lra | done].
      * by apply (Hnext a).
Qed.

Lemma carved_loss (bs ls : list gcode_vec2d_t) (x : gfloat_t) :
  Forall (λ b, b.1 <= b.2) bs →
  covered ls x → covered (carved eps bs ls) x ∨ covered bs x.
Proof.
  intros Hbs (a & Ha & Hx).
  destruct (pieces_loss bs x Hbs a Hx) as [(l & Hl & Hlx) | H]; [| by right].
  left. exists l. split; [| done].
  unfold carved. apply list_elem_of_In, in_flat_map.
  exists a. by rewrite <- !list_elem_of_In.
Qed.

End subtract_loss_facts.

(** X11.  The subtraction takes nothing away outside B.  With a
    non-negative precision and lines of B that do not end before they
    start, every point that row [i] of A covered before a completed call is
    still covered by row [i] of A afterwards, or is covered by row [i] of
    B. *)
Theorem subtract_removes_only_what_b_covers (eps : gfloat_t)
    (pocket_a pocket_b pocket_a' : gcode_pocket_t) :
  0 <= eps →
  wf_pocket pocket_a → wf_pocket pocket_b →
  (row_num pocket_a ≤ row_num pocket_b)%nat →
  (∀ i rb, rows pocket_b !! i = Some rb → Forall (λ b, b.1 <= b.2) (lines rb)) →
  gcode_pocket_subtract eps pocket_a pocket_b = Done pocket_a' →
  ∀ i ra rb ra' x,
    rows pocket_a !! i = Some ra → rows pocket_b !! i = Some rb →
    rows pocket_a' !! i = Some ra' →
    covered (lines ra) x → covered (lines ra') x ∨ covered (lines rb) x.
Proof.
  intros Heps HwA HwB Hrows Hvalid H i ra rb ra' x Hra Hrb Hra' Hx.
  apply subtract_Done in H as (_ & _ & _ & _ & Hcarved); [| done..].
  destruct (Hcarved i ra rb Hra Hrb) as (ra'' & Hra'' & Hlines & _).
  rewrite Hra' in Hra''. injection Hra'' as <-.
  rewrite Hlines. apply carved_loss; [done | by apply (Hvalid i) | done].
Qed.

(** The island [3, 7] in the outer line [0, 10]: the point 2 stays, the
    point 5 goes and lies on the island. *)
Lemma subtract_removes_only_what_b_covers_witness :
  (covered [(0, 3); (7, 10)] 2 ∨ covered [(3, 7)] 2) ∧
  (covered [(0, 3); (7, 10)] 5 ∨ covered [(3, 7)] 5).
Proof.
  assert (Hb : ∀ i rb, rows sample_island !! i = Some rb →
                 Forall (λ b : gcode_vec2d_t, b.1 <= b.2) (lines rb)).
  { intros i rb Hrb. destruct i as [|i]; [| discriminate Hrb].
    injection Hrb as <-. apply Forall_singleton. vm_compute. discriminate. }
  assert (Hcov : ∀ x : gfloat_t, 0 <= x → x <= 10 → covered [(0, 10)] x).
  { intros x H0 H10. exists (0, 10). split; [apply list_elem_of_here | done]. }
  pose proof (subtract_removes_only_what_b_covers sample_precision sample_outer
                sample_island sample_carved ltac:(vm_compute; discriminate)
                sample_outer_wf sample_island_wf ltac:(simpl; lia) Hb
                ltac:(vm_compute; reflexivity)
                0%nat (row_of 4 [(0, 10)] 0) (row_of 4 [(3, 7)] 0)
                {| line_num := 2; line_array := [(0, 3); (7, 10); (0, 0); (0, 0)];
                   y := 0 |}) as H.
  split.
  - apply (H 2); [reflexivity.. |].
    apply Hcov; vm_compute; discriminate.
  - apply (H 5); [reflexivity.. |].
    apply Hcov; vm_compute; discriminate.
Defined.

(** ** gcode_pocket_prep: material and resolution out of range *)

(** The cast of a value that is at most one is at most one. *)
Lemma truncate_le_one (q : gfloat_t) :
  q <= 1 → (truncate q <= 1)%Z.
Proof.
  destruct q as [n d]. unfold Qle, truncate. simpl. intros H.
  rewrite <- (Z.quot_same (Z.pos d)) by lia.
  apply Z.quot_le_mono; lia.
Qed.

(** X12.  With a negative material size and a row count in line 66 that
    an [int] can hold, the loop of line 72 does not run once: the call
    completes with no row, whatever the boundary is, and leaves the segment
    count and the resolution as they were.  When the row count is out of the
    range of [int], the cast of line 66 is undefined. *)
Theorem prep_negative_size_gives_no_row
    (qsort_asc remove_duplicates : list gfloat_t → list gfloat_t)
    (uninit_scalar : gfloat_t) (uninit_line : gcode_vec2d_t)
    (uninit_row : gcode_pocket_row_t)
    (pocket : gcode_pocket_t) (gcode : gcode_t) (tool : gcode_tool_t)
    (blocks : list gcode_block_t) :
  material_size gcode < 0 → ¬ resolution pocket == 0 →
  let result :=
    gcode_pocket_prep qsort_asc remove_duplicates uninit_scalar uninit_line
      uninit_row pocket gcode tool blocks in
  let in_range :=
    (INT_MIN ≤ truncate (1 + material_size gcode / resolution pocket) ≤ INT_MAX)%Z in
  (in_range →
   ∃ pocket',
     result = Done pocket' ∧
     row_num pocket' = 0%nat ∧ rows pocket' = [] ∧
     seg_num pocket' = seg_num pocket ∧ resolution pocket' = resolution pocket) ∧
  (¬ in_range → result = Undefined).
Proof.
  intros Hsize Hres result in_range. unfold result, gcode_pocket_prep.
  destruct (Qeq_bool (resolution pocket) 0) eqn:Hq;
    [by apply Qeq_bool_eq in Hq |].
  assert (Hle : (- material_origin gcode
                 <=? material_size gcode - material_origin gcode) = false)
    by (apply fle_false; lra).
  unfold int_of_gfloat. split.
  - intros Hrange. rewrite decide_True by exact Hrange. cbn [mbind outcome_bind].
    set (allocated :=
           Z.to_nat (truncate (1 + material_size gcode / resolution pocket))).
    exists {| row_num := 0; seg_num := seg_num pocket;
              row_array := replicate allocated uninit_row;
              resolution := resolution pocket |}.
    split; [| done].
    destruct allocated; cbn [prep_y_loop]; rewrite Hle; reflexivity.
  - intros Hrange. by rewrite decide_False by exact Hrange.
Qed.

(** Material of size -3 at resolution 1 gives no row; at a resolution of
    one billionth the row count of line 66 is no [int]. *)
Lemma prep_negative_size_gives_no_row_witness :
  (∃ pocket',
     gcode_pocket_prep sample_qsort_asc (sample_remove_duplicates sample_precision)
       0 (0, 0) (row_of 0 [] 0) (gcode_pocket_init 1)
       {| material_size := -3; material_origin := 0; ztraverse := 5 |}
       sample_tool sample_square = Done pocket' ∧
     row_num pocket' = 0%nat ∧ rows pocket' = [] ∧
     seg_num pocket' = seg_num (gcode_pocket_init 1) ∧
     resolution pocket' = resolution (gcode_pocket_init 1)) ∧
  gcode_pocket_prep sample_qsort_asc (sample_remove_duplicates sample_precision)
    0 (0, 0) (row_of 0 [] 0) (gcode_pocket_init (1 # 1000000000))
    {| material_size := -3; material_origin := 0; ztraverse := 5 |}
    sample_tool sample_square = Undefined.
Proof.
  split.
  - apply (prep_negative_size_gives_no_row sample_qsort_asc
             (sample_remove_duplicates sample_precision) 0 (0, 0) (row_of 0 [] 0)
             (gcode_pocket_init 1)
             {| material_size := -3; material_origin := 0; ztraverse := 5 |}
             sample_tool sample_square).
    + vm_compute. reflexivity.
    + vm_compute. discriminate.
    + vm_compute. split; discriminate.
  - apply (prep_negative_size_gives_no_row sample_qsort_asc
             (sample_remove_duplicates sample_precision) 0 (0, 0) (row_of 0 [] 0)
             (gcode_pocket_init (1 # 1000000000))
             {| material_size := -3; material_origin := 0; ztraverse := 5 |}
             sample_tool sample_square).
    + vm_compute. reflexivity.
    + vm_compute. discriminate.
    + vm_compute. intros [H _]. by apply H.
Defined.

(** X13.  The resolution is not checked.  With a non-negative material size
    and a resolution that is zero or negative the call never completes: a
    zero resolution divides by zero in line 66, and with a negative one the
    height never passes [size - origin], so the loop stores rows past the
    one row, at most, that line 66 allocated. *)
Theorem prep_needs_positive_resolution
    (qsort_asc remove_duplicates : list gfloat_t → list gfloat_t)
    (uninit_scalar : gfloat_t) (uninit_line : gcode_vec2d_t)
    (uninit_row : gcode_pocket_row_t)
    (pocket : gcode_pocket_t) (gcode : gcode_t) (tool : gcode_tool_t)
    (blocks : list gcode_block_t) :
  0 <= material_size gcode → resolution pocket <= 0 →
  gcode_pocket_prep qsort_asc remove_duplicates uninit_scalar uninit_line uninit_row
    pocket gcode tool blocks = Undefined.
Proof.
  intros Hsize Hres. unfold gcode_pocket_prep.
  destruct (Qeq_bool (resolution pocket) 0) eqn:Hq; [done |].
  apply Qeq_bool_neq in Hq.
  assert (Hneg : resolution pocket < 0).
  { destruct (Qlt_le_dec (resolution pocket) 0) as [H | H]; [done |].
    destruct Hq. by apply Qle_antisym. }
  assert (Hdiv : material_size gcode / resolution pocket <= 0).
  { assert (Heq : material_size gcode / resolution pocket
                  == - (material_size gcode / - resolution pocket))
      by (field; lra).
    assert (0 <= material_size gcode / - resolution pocket)
      by (apply Qle_shift_div_l; lra).
    lra. }
  pose proof (truncate_le_one (1 + material_size gcode / resolution pocket)
                ltac:(lra)) as Hone.
  assert (Hle : ∀ y0, y0 <= - material_origin gcode →
            (y0 <=? material_size gcode - material_origin gcode) = true)
    by (intros y0 Hy0; apply fle_spec; lra).
  unfold int_of_gfloat. case_decide as Hrange; [| done].
  cbn [mbind outcome_bind].
  destruct (Z.to_nat _) as [|[|n]] eqn:Hn; [| | lia]; cbn [prep_y_loop].
  - rewrite Hle by lra. done.
  - rewrite Hle by lra. rewrite prep_row_spec. case_decide; [| done].
    cbn [mbind outcome_bind prep_y_loop resolution].
    rewrite Hle by lra. done.
Qed.

Lemma prep_needs_positive_resolution_witness :
  gcode_pocket_prep sample_qsort_asc (sample_remove_duplicates sample_precision)
    0 (0, 0) (row_of 0 [] 0) (gcode_pocket_init (-1)) sample_gcode sample_tool
    sample_square = Undefined.
Proof.
  apply (prep_needs_positive_resolution sample_qsort_asc
           (sample_remove_duplicates sample_precision) 0 (0, 0) (row_of 0 [] 0)
           (gcode_pocket_init (-1)) sample_gcode sample_tool sample_square).
  - vm_compute. discriminate.
  - vm_compute. discriminate.
Defined.

(** ** gcode_pocket_make: rapid moves and the traverse height *)

Section traverse_facts.

Variable eps : gfloat_t.
Variable gcode : gcode_t.
Variables depth rapid_depth : gfloat_t.
Variable tool : gcode_tool_t.

(** A stream that starts with a retract, whose cuts are followed by one and
    whose rapid moves follow one. *)
Abbreviation retracting evs :=
  ((∃ tl, (evs = GCODE_RETRACT (ztraverse gcode) :: tl)%list) ∧
   cuts_retracted gcode evs ∧ moves_retracted gcode evs).

Lemma no_move_middle (pre post : list gcode_event) (x y0 : gfloat_t) (c : string) :
  List.filter is_move (pre ++ GCODE_2D_MOVE x y0 c :: post) ≠ [].
Proof. rewrite List.filter_app. simpl. by destruct (List.filter is_move pre). Qed.

Lemma cuts_retracted_after (xs ys : list gcode_event) :
  List.filter is_cut xs = [] → cuts_retracted gcode ys →
  cuts_retracted gcode (xs ++ ys).
Proof.
  intros Hxs Hys pre x y0 c post Heq.
  apply app_eq_app in Heq as [k [[H1 H2] | [H1 H2]]].
  - destruct k as [|e k].
    + simpl in H2. by apply (Hys [] x y0 c post).
    + injection H2 as <- H2. rewrite H1 in Hxs. by apply no_cut_middle in Hxs.
  - by apply (Hys k x y0 c post).
Qed.

Lemma moves_retracted_after (xs ys : list gcode_event) :
  List.filter is_move xs = [] → moves_retracted gcode ys →
  moves_retracted gcode (xs ++ ys).
Proof.
  intros Hxs Hys pre x y0 c post Heq.
  apply app_eq_app in Heq as [k [[H1 H2] | [H1 H2]]].
  - destruct k as [|e k].
    + simpl in H2. destruct (Hys [] x y0 c post (eq_sym H2)) as [pre' Hpre].
      by destruct pre'.
    + injection H2 as <- H2. rewrite H1 in Hxs. by apply no_move_middle in Hxs.
  - destruct (Hys k x y0 c post H2) as [pre' Hpre].
    exists (xs ++ pre'). by rewrite H1, Hpre, app_assoc.
Qed.

(** A cut in front of a stream that starts with a retract. *)
Lemma cuts_retracted_cut (x y0 : gfloat_t) (c : string) (tl : list gcode_event) :
  cuts_retracted gcode (GCODE_RETRACT (ztraverse gcode) :: tl) →
  cuts_retracted gcode
    (GCODE_2D_LINE x y0 c :: GCODE_RETRACT (ztraverse gcode) :: tl).
Proof.
  intros Htl pre x' y' c' post Heq. destruct pre as [|e pre].
  - injection Heq as _ _ _ <-. by eexists.
  - injection Heq as _ Heq. by apply (Htl pre x' y' c' post).
Qed.

(** A retract and a rapid move in front of a stream. *)
Lemma moves_retracted_move (x y0 : gfloat_t) (c : string) (ys : list gcode_event) :
  moves_retracted gcode ys →
  moves_retracted gcode
    (GCODE_RETRACT (ztraverse gcode) :: GCODE_2D_MOVE x y0 c :: ys).
Proof.
  intros Hys pre x' y' c' post Heq. destruct pre as [|e1 [|e2 pre]].
  - discriminate Heq.
  - injection Heq as <- _. by exists [].
  - injection Heq as <- <- Heq.
    destruct (Hys pre x' y' c' post Heq) as [pre' ->].
    by exists (GCODE_RETRACT (ztraverse gcode) :: GCODE_2D_MOVE x y0 c :: pre').
Qed.

Lemma retracting_cut_line (near far y0 : gfloat_t) (rest : list gcode_event) :
  retracting rest →
  retracting (cut_line eps gcode depth rapid_depth tool near far y0 ++ rest).
Proof.
  intros ([tl ->] & Hcuts & Hmoves). split; [by eexists |]. split.
  - rewrite cut_line_approach, <- app_assoc.
    apply cuts_retracted_after; [apply approach_no_cut |].
    by apply cuts_retracted_cut.
  - unfold cut_line. rewrite <- !app_assoc.
    apply moves_retracted_move.
    apply moves_retracted_after; [by destruct (rapid_depth >=? depth - eps) |].
    by apply (moves_retracted_after [_; _]).
Qed.

Lemma retracting_lines (y0 : gfloat_t) (f : gcode_vec2d_t → gfloat_t * gfloat_t)
    (ls : list gcode_vec2d_t) (rest : list gcode_event) :
  retracting rest →
  retracting
    (flat_map (λ l, cut_line eps gcode depth rapid_depth tool (f l).1 (f l).2 y0) ls
     ++ rest).
Proof.
  intros Hrest. induction ls as [|l ls IH]; [done |].
  cbn [flat_map]. rewrite <- app_assoc. by apply retracting_cut_line.
Qed.

Lemma retracting_rows (rest : list gcode_event) (rs : list gcode_pocket_row_t) :
  retracting rest →
  ∀ (f : nat → gcode_pocket_row_t → list gcode_event),
  (∀ k r, ∃ i, f k r = row_stream eps gcode depth rapid_depth tool i r) →
  retracting (concat (imap f rs) ++ rest).
Proof.
  intros Hrest. induction rs as [|r rs IH]; intros f Hf; [done |].
  rewrite imap_cons. simpl concat. rewrite <- app_assoc.
  destruct (Hf 0%nat r) as (i & ->). unfold row_stream.
  apply retracting_lines. apply IH. intros k r'. apply (Hf (S k) r').
Qed.

Lemma retracting_end : retracting [GCODE_RETRACT (ztraverse gcode)].
Proof.
  split; [by eexists |]. split.
  - intros pre x y0 c post Heq. destruct pre as [|e [|e' pre]]; discriminate Heq.
  - intros pre x y0 c post Heq. destruct pre as [|e [|e' pre]]; discriminate Heq.
Qed.

Lemma retracting_motion_stream (pocket : gcode_pocket_t) :
  cuts_retracted gcode (motion_stream eps gcode depth rapid_depth tool pocket) ∧
  moves_retracted gcode (motion_stream eps gcode depth rapid_depth tool pocket).
Proof.
  unfold motion_stream.
  destruct (retracting_rows [GCODE_RETRACT (ztraverse gcode)] (rows pocket)
              retracting_end (row_stream eps gcode depth rapid_depth tool))
    as (_ & Hcuts & Hmoves).
  { intros k r. by exists k. }
  split.
  - by apply cuts_retracted_after.
  - by apply moves_retracted_after.
Qed.

End traverse_facts.

(** X14.  The tool travels between lines at the traverse height only.  In
    the stream of a completed call every cut is followed at once by a
    retract to [ztraverse], and every rapid 2-D move comes straight after
    one: no rapid move is made with the tool at cutting depth. *)
Theorem make_travels_at_traverse_height (eps : gfloat_t) (gcode : gcode_t)
    (depth rapid_depth : gfloat_t) (tool : gcode_tool_t) (pocket : gcode_pocket_t)
    (evs : list gcode_event) :
  wf_pocket pocket →
  gcode_pocket_make eps gcode depth rapid_depth tool pocket = Done evs →
  (∀ pre x y0 c post,
     evs = pre ++ GCODE_2D_LINE x y0 c :: post →
     ∃ post', post = GCODE_RETRACT (ztraverse gcode) :: post') ∧
  (∀ pre x y0 c post,
     evs = pre ++ GCODE_2D_MOVE x y0 c :: post →
     ∃ pre', pre = pre' ++ [GCODE_RETRACT (ztraverse gcode)]).
Proof.
  intros Hwf Hmake.
  destruct (decide (seg_num pocket = 0%nat)) as [Hseg | Hseg].
  - rewrite make_returns_early in Hmake by done. injection Hmake as <-.
    split; intros pre x y0 c post H; by destruct pre.
  - rewrite make_stream in Hmake by done. injection Hmake as <-.
    apply retracting_motion_stream.
Qed.

(** The first cut of [sample_stream], event 7, is followed by the retract
    of the next line; the second rapid move, event 9, follows it. *)
Lemma make_travels_at_traverse_height_witness :
  (∃ post', drop 8 sample_stream = GCODE_RETRACT (ztraverse sample_gcode) :: post') ∧
  (∃ pre', take 9 sample_stream = pre' ++ [GCODE_RETRACT (ztraverse sample_gcode)]).
Proof.
  pose proof (make_travels_at_traverse_height sample_precision sample_gcode (-1) 0
                sample_tool sample_grid sample_stream sample_grid_wf
                ltac:(vm_compute; reflexivity)) as [Hcut Hmove].
  split.
  - apply (Hcut (take 7 sample_stream) 3 0 EmptyString). reflexivity.
  - apply (Hmove (take 9 sample_stream) 10 1 EmptyString (drop 10 sample_stream)).
    reflexivity.
Defined.

(** ** From the boundary to the cuts: gcode_pocket_prep, then gcode_pocket_make *)








(** ** gcode_pocket_subtract, then gcode_pocket_make *)

(** X16.  A grid that a subtraction has completed on is one that
    [gcode_pocket_make] can take: the call reads no line and no row out of
    bounds and emits the stream of the carved rows.  Whether it emits
    anything at all is decided by the segment count that A had before the
    subtraction, which the subtraction does not update. *)
Theorem make_after_subtract (eps : gfloat_t) (gcode : gcode_t)
    (depth rapid_depth : gfloat_t) (tool : gcode_tool_t)
    (pocket_a pocket_b pocket_a' : gcode_pocket_t) :
  wf_pocket pocket_a → wf_pocket pocket_b →
  (row_num pocket_a ≤ row_num pocket_b)%nat →
  gcode_pocket_subtract eps pocket_a pocket_b = Done pocket_a' →
  gcode_pocket_make eps gcode depth rapid_depth tool pocket_a'
  = Done (if decide (seg_num pocket_a = 0%nat) then []
          else motion_stream eps gcode depth rapid_depth tool pocket_a').
Proof.
  intros HwA HwB Hrows H.
  apply subtract_Done in H as (_ & Hseg & _ & Hwf & _); [| done..].
  case_decide as Hzero.
  - apply make_returns_early. by rewrite Hseg.
  - apply make_stream; [done | by rewrite Hseg].
Qed.

(** After the island is carved out of the outer line the stream cuts both
    remaining lines. *)
Lemma make_after_subtract_witness :
  gcode_pocket_make sample_precision sample_gcode (-1) 0 sample_tool sample_carved
  = Done (if decide (seg_num sample_outer = 0%nat) then []
          else motion_stream sample_precision sample_gcode (-1) 0 sample_tool
                 sample_carved).
Proof.
  apply (make_after_subtract sample_precision sample_gcode (-1) 0 sample_tool
           sample_outer sample_island sample_carved sample_outer_wf sample_island_wf).
  - simpl. lia.
  - vm_compute. reflexivity.
Defined.

Example sample_carved_cuts :
  List.filter is_cut
    (motion_stream sample_precision sample_gcode (-1) 0 sample_tool sample_carved)
  = [GCODE_2D_LINE 3 0 EmptyString; GCODE_2D_LINE 10 0 EmptyString].
Proof. reflexivity. Qed.

(** ** gcode_pocket_subtract with a zero precision: the set difference *)

Lemma strictly_apart_cons (b : gcode_vec2d_t) (bs : list gcode_vec2d_t) :
  strictly_apart (b :: bs) →
  (∀ b', b' ∈ bs → b.2 < b'.1) ∧ strictly_apart bs.
Proof.
  intros H. split.
  - intros b' Hb'. apply list_elem_of_lookup in Hb' as [k Hk].
    apply (H 0%nat (S k) b b'); [lia | done | done].
  - intros i j x z Hij Hi Hj. apply (H (S i) (S j) x z); [lia | done | done].
Qed.

(** What is left of one line: the points of the line that lie inside no
    line of B. *)
Lemma pieces_difference (bs : list gcode_vec2d_t) (x : gfloat_t) :
  Forall (λ b, b.1 <= b.2) bs → strictly_apart bs →
  ∀ a : gcode_vec2d_t, a.1 <= a.2 →
  (∀ b, b ∈ bs → ¬ swallows b a) →
  covered (pieces 0 a bs) x ↔ covers a x ∧ ∀ b, b ∈ bs → ¬ inside b x.
Proof.
  induction bs as [|b bs IH]; intros Hvalid Hapart a Ha Hsw.
  - simpl. split.
    + intros (l & Hl & Hx). apply list_elem_of_singleton in Hl as ->.
      split; [done |]. intros b Hb. by apply elem_of_nil in Hb.
    + intros [Hx _]. exists a. split; [apply list_elem_of_here | done].
  - apply Forall_cons in Hvalid as [Hb Hvalid].
    apply strictly_apart_cons in Hapart as [Hlater Hapart].
    assert (Hnext : ∀ a' : gcode_vec2d_t, a'.1 <= a'.2 →
              (∀ b', b' ∈ bs → ¬ swallows b' a') →
              covered (pieces 0 a' bs) x ↔ covers a' x ∧ ∀ b', b' ∈ bs → ¬ inside b' x)
      by (intros a' Ha' Hsw'; by apply IH).
    assert (Hall : ∀ P : Prop,
              (P ∧ ¬ inside b x ∧ ∀ b', b' ∈ bs → ¬ inside b' x) →
              P ∧ ∀ b', b' ∈ b :: bs → ¬ inside b' x).
    { intros P (HP & Hnb & Hnbs). split; [done |].
      intros b' Hb'. apply elem_of_cons in Hb' as [-> | Hb']; [done | by apply Hnbs]. }
    assert (Hsplit : ∀ P : Prop,
              (P ∧ ∀ b', b' ∈ b :: bs → ¬ inside b' x) →
              P ∧ ¬ inside b x ∧ ∀ b', b' ∈ bs → ¬ inside b' x).
    { intros P (HP & Hn). split; [done |]. split.
      - apply Hn. apply list_elem_of_here.
      - intros b' Hb'. apply Hn. by apply list_elem_of_further. }
    unfold covers, inside, swallows in *. simpl.
    destruct (contained_within 0 b a) eqn:Hc.
    + apply contained_within_spec in Hc as (H1 & H2 & H3 & H4).
      assert (Hrest := Hnext (b.2, a.2) ltac:(simpl; lra)).
      simpl in Hrest. split.
      * intros (l & Hl & Hx). apply Hall.
        apply elem_of_cons in Hl as [-> | Hl].
        -- unfold covers in Hx. simpl in Hx. split; [lra |]. split; [lra |].
           intros b' Hb'. specialize (Hlater b' Hb'). lra.
        -- destruct (proj1 (Hrest ltac:(intros b' Hb'; specialize (Hlater b' Hb'); lra))
                       (ex_intro _ l (conj Hl Hx))) as [Hx' Hn].
           split; [lra |]. split; [lra | done].
      * intros H. apply Hsplit in H as (Hx & Hnb & Hn).
        destruct (Qlt_le_dec b.1 x) as [Hlt | Hle].
        -- assert (Hge : b.2 <= x).
           { destruct (Qlt_le_dec x b.2) as [H | H]; [| done]. destruct Hnb. lra. }
           destruct (proj2 (Hrest ltac:(intros b' Hb'; specialize (Hlater b' Hb'); lra))
                       (conj (conj Hge (proj2 Hx)) Hn)) as (l & Hl & Hlx).
           exists l. split; [by apply list_elem_of_further | done].
        -- exists (a.1, b.1). split; [apply list_elem_of_here |].
           unfold covers. simpl. lra.
    + assert (Hnc : ¬ (a.1 <= b.1 + 0 ∧ b.1 - 0 <= a.2 ∧
                       a.1 <= b.2 + 0 ∧ b.2 - 0 <= a.2)).
      { intros H. apply contained_within_spec in H. congruence. }
      destruct (overlap_right b a) eqn:Hr; [| destruct (overlap_left b a) eqn:Hl].
      * apply overlap_right_spec in Hr as [Hr1 Hr2].
        assert (Hb2 : a.2 < b.2).
        { destruct (Qlt_le_dec a.2 b.2) as [H | H]; [done |]. destruct Hnc. lra. }
        assert (Hrest := Hnext (a.1, b.1) ltac:(simpl; lra)
                           ltac:(intros b' Hb'; specialize (Hlater b' Hb'); simpl; lra)).
        simpl in Hrest. rewrite Hrest. split.
        -- intros [Hx Hn]. apply Hall. split; [lra |]. split; [lra | done].
        -- intros H. apply Hsplit in H as (Hx & Hnb & Hn). split; [| done].
           destruct (Qlt_le_dec b.1 x) as [Hlt | Hle]; [| lra].
           destruct Hnb. lra.
      * apply overlap_left_spec in Hl as [Hl1 Hl2].
        assert (Hb1 : b.1 < a.1).
        { destruct (Qlt_le_dec b.1 a.1) as [H | H]; [done |]. destruct Hnc. lra. }
        assert (Hrest := Hnext (b.2, a.2) ltac:(simpl; lra)
                           ltac:(intros b' Hb'; specialize (Hlater b' Hb'); simpl; lra)).
        simpl in Hrest. rewrite Hrest. split.
        -- intros [Hx Hn]. apply Hall. split; [lra |]. split; [lra | done].
        -- intros H. apply Hsplit in H as (Hx & Hnb & Hn). split; [| done].
           destruct (Qlt_le_dec x b.2) as [Hlt | Hle]; [| lra].
           destruct Hnb. lra.
      * assert (Hnr : ¬ (a.1 < b.1 ∧ b.1 < a.2)).
        { intros H. apply overlap_right_spec in H. congruence. }
        assert (Hnl : ¬ (a.1 < b.2 ∧ b.2 < a.2)).
        { intros H. apply overlap_left_spec in H. congruence. }
        assert (Hrest := Hnext a Ha
                           ltac:(intros b' Hb'; apply Hsw; by apply list_elem_of_further)).
        rewrite Hrest. split.
        -- intros [Hx Hn]. apply Hall. split; [done |]. split; [| done].
           intros [Hi1 Hi2].
           apply (Hsw b (list_elem_of_here _ _)).
           assert (b.1 <= a.1).
           { destruct (Qlt_le_dec a.1 b.1) as [H | H]; [| done]. destruct Hnr. lra. }
           assert (a.2 <= b.2).
           { destruct (Qlt_le_dec b.2 a.2) as [H' | H']; [| done]. destruct Hnl. lra. }
           split; [done |]. split; [done |].
           destruct (Qlt_le_dec b.1 a.1) as [H1 | H1]; [by left |].
           destruct (Qlt_le_dec a.2 b.2) as [H2 | H2]; [by right |].
           destruct Hnc. lra.
        -- intros H. apply Hsplit in H as (Hx & Hnb & Hn). done.
Qed.

Lemma carved_difference (bs ls : list gcode_vec2d_t) (x : gfloat_t) :
  Forall (λ b, b.1 <= b.2) bs → strictly_apart bs →
  Forall (λ a, a.1 <= a.2) ls →
  (∀ a b, a ∈ ls → b ∈ bs → ¬ swallows b a) →
  covered (carved 0 bs ls) x ↔ covered ls x ∧ ∀ b, b ∈ bs → ¬ inside b x.
Proof.
  intros Hbs Hapart Hls Hsw. rewrite Forall_forall in Hls. split.
  - intros (l & Hl & Hx). unfold carved in Hl.
    apply list_elem_of_In, in_flat_map in Hl as (a & Ha & Hl).
    apply list_elem_of_In in Ha, Hl.
    destruct (proj1 (pieces_difference bs x Hbs Hapart a (Hls a Ha)
                       (λ b Hb, Hsw a b Ha Hb))
                (ex_intro _ l (conj Hl Hx))) as [Hax Hn].
    split; [by exists a | done].
  - intros [(a & Ha & Hax) Hn].
    destruct (proj2 (pieces_difference bs x Hbs Hapart a (Hls a Ha)
                       (λ b Hb, Hsw a b Ha Hb))
                (conj Hax Hn)) as (l & Hl & Hx).
    exists l. split; [| done]. unfold carved.
    apply list_elem_of_In, in_flat_map. exists a. by rewrite <- !list_elem_of_In.
Qed.

(** X17.  When the subtraction is the set difference.  With a zero
    precision, lines of A and B that do not end before they start, lines of
    B that lie strictly apart in stored order, and no line of B that covers
    a whole line of A and reaches past it, a completed call leaves in row
    [i] of A exactly the points that the row covered before and that lie
    inside no line of row [i] of B. *)
Theorem subtract_exact_is_set_difference
    (pocket_a pocket_b pocket_a' : gcode_pocket_t) :
  wf_pocket pocket_a → wf_pocket pocket_b →
  (row_num pocket_a ≤ row_num pocket_b)%nat →
  gcode_pocket_subtract 0 pocket_a pocket_b = Done pocket_a' →
  ∀ i ra rb ra',
    rows pocket_a !! i = Some ra → rows pocket_b !! i = Some rb →
    rows pocket_a' !! i = Some ra' →
    Forall (λ a, a.1 <= a.2) (lines ra) →
    Forall (λ b, b.1 <= b.2) (lines rb) →
    strictly_apart (lines rb) →
    (∀ a b, a ∈ lines ra → b ∈ lines rb → ¬ swallows b a) →
    ∀ x, covered (lines ra') x ↔
         covered (lines ra) x ∧ ∀ b, b ∈ lines rb → ¬ inside b x.
Proof.
  intros HwA HwB Hrows H i ra rb ra' Hra Hrb Hra' Hva Hvb Hapart Hsw x.
  apply subtract_Done in H as (_ & _ & _ & _ & Hcarved); [| done..].
  destruct (Hcarved i ra rb Hra Hrb) as (ra'' & Hra'' & Hlines & _).
  rewrite Hra' in Hra''. injection Hra'' as <-.
  rewrite Hlines. by apply carved_difference.
Qed.

(** The island [3, 7] in the outer line [0, 10]: what is left covers the
    points of [0, 10] outside the open interval from 3 to 7; so it is for the
    points 3 and 5. *)
Lemma subtract_exact_is_set_difference_witness :
  (covered [(0, 3); (7, 10)] 3 ↔
   covered [(0, 10)] 3 ∧ ∀ b, b ∈ [(3, 7)] → ¬ inside b 3) ∧
  (covered [(0, 3); (7, 10)] 5 ↔
   covered [(0, 10)] 5 ∧ ∀ b, b ∈ [(3, 7)] → ¬ inside b 5).
Proof.
  assert (Hva : Forall (λ a : gcode_vec2d_t, a.1 <= a.2) [(0, 10)])
    by (apply Forall_singleton; vm_compute; discriminate).
  assert (Hvb : Forall (λ b : gcode_vec2d_t, b.1 <= b.2) [(3, 7)])
    by (apply Forall_singleton; vm_compute; discriminate).
  assert (Hapart : strictly_apart [(3, 7)]).
  { intros i j a b Hij Hi Hj. destruct j as [|j]; [lia |]. by destruct j. }
  assert (Hsw : ∀ a b : gcode_vec2d_t, a ∈ [(0, 10)] → b ∈ [(3, 7)] → ¬ swallows b a).
  { intros a b Ha Hb (H1 & H2 & H3).
    apply list_elem_of_singleton in Ha as ->.
    apply list_elem_of_singleton in Hb as ->.
    revert H1. vm_compute. by intros []. }
  pose proof (subtract_exact_is_set_difference sample_outer sample_island sample_carved
           sample_outer_wf sample_island_wf ltac:(simpl; lia)
           ltac:(vm_compute; reflexivity)
           0%nat (row_of 4 [(0, 10)] 0) (row_of 4 [(3, 7)] 0)
           {| line_num := 2; line_array := [(0, 3); (7, 10); (0, 0); (0, 0)];
              y := 0 |}
           eq_refl eq_refl eq_refl Hva Hvb Hapart Hsw) as H.
  exact (conj (H 3) (H 5)).
Defined.

(** ** gcode_pocket_prep: grids of the same material *)

Section prep_heights_facts.

Variable qsort_asc : list gfloat_t → list gfloat_t.
Variable remove_duplicates : list gfloat_t → list gfloat_t.
Variable uninit_scalar : gfloat_t.
Variable uninit_line : gcode_vec2d_t.
Variable tool : gcode_tool_t.
Variable blocks : list gcode_block_t.

#[local] Opaque X_CAPACITY LINE_CAPACITY.

(** The heights of the rows depend on the bounds and the resolution only,
    not on the boundary. *)
Lemma prep_y_loop_heights (y_max : gfloat_t) (fuel : nat) :
  ∀ (y0 : gfloat_t) (pocket pocket' : gcode_pocket_t),
  prep_y_loop qsort_asc remove_duplicates uninit_scalar uninit_line
    fuel tool blocks y_max y0 pocket = Done pocket' →
  resolution pocket' = resolution pocket ∧
  y <$> rows pocket'
  = (y <$> rows pocket) ++ scan_heights fuel y_max (resolution pocket) y0.
Proof.
  induction fuel as [|f IH]; intros y0 pocket pocket'; cbn [prep_y_loop scan_heights].
  - destruct (y0 <=? y_max); [done |]. intros [= <-]. by rewrite app_nil_r.
  - destruct (y0 <=? y_max); [| intros [= <-]; by rewrite app_nil_r].
    rewrite prep_row_spec. case_decide as Hok; [| done].
    destruct Hok as (_ & _ & Hrow). cbn [mbind outcome_bind].
    intros H. apply IH in H as [Hres Hys]. simpl in Hres, Hys.
    split; [done |]. rewrite Hys. unfold rows. simpl.
    rewrite (take_S_r _ _ _ (list_lookup_insert_eq _ _ _ Hrow)).
    rewrite take_insert_ge by lia. rewrite fmap_app. simpl.
    by rewrite <- app_assoc.
Qed.

End prep_heights_facts.

(** X18.  Grids prepared from the same material at the same resolution are
    aligned row by row, whatever their boundaries and tools: two completed
    calls return the same number of rows, at the same heights.  This is the
    alignment that [gcode_pocket_subtract] relies on and does not check. *)
Theorem prep_grids_of_one_material_align
    (qsort_asc remove_duplicates qsort_asc' remove_duplicates'
       : list gfloat_t → list gfloat_t)
    (uninit_scalar uninit_scalar' : gfloat_t) (uninit_line uninit_line' : gcode_vec2d_t)
    (uninit_row uninit_row' : gcode_pocket_row_t)
    (pocket_a pocket_b : gcode_pocket_t) (gcode : gcode_t)
    (tool_a tool_b : gcode_tool_t) (blocks_a blocks_b : list gcode_block_t)
    (pocket_a' pocket_b' : gcode_pocket_t) :
  resolution pocket_a = resolution pocket_b →
  gcode_pocket_prep qsort_asc remove_duplicates uninit_scalar uninit_line uninit_row
    pocket_a gcode tool_a blocks_a = Done pocket_a' →
  gcode_pocket_prep qsort_asc' remove_duplicates' uninit_scalar' uninit_line'
    uninit_row' pocket_b gcode tool_b blocks_b = Done pocket_b' →
  row_num pocket_a' = row_num pocket_b' ∧
  resolution pocket_a' = resolution pocket_b' ∧
  y <$> rows pocket_a' = y <$> rows pocket_b'.
Proof.
  intros Hres Ha Hb.
  pose proof (prep_Done _ _ _ _ _ _ _ _ _ _ Ha) as (Hna & _ & _).
  pose proof (prep_Done _ _ _ _ _ _ _ _ _ _ Hb) as (Hnb & _ & _).
  apply prep_Done_loop in Ha as (n & Hn & Ha).
  apply prep_Done_loop in Hb as (m & Hm & Hb).
  rewrite <- Hres in Hm, Hb. rewrite Hn in Hm. injection Hm as <-.
  apply prep_y_loop_heights in Ha as [Hra Hya].
  apply prep_y_loop_heights in Hb as [Hrb Hyb].
  simpl in Hra, Hya, Hrb, Hyb.
  assert (Hys : y <$> rows pocket_a' = y <$> rows pocket_b') by congruence.
  split; [| split; [congruence | done]].
  apply (f_equal length) in Hys. rewrite !length_fmap in Hys.
  unfold rows in Hys. rewrite !length_take in Hys. lia.
Qed.

(** The square and the boundary with a third crossing, on the material of
    the samples. *)
Lemma prep_grids_of_one_material_align_witness :
  row_num sample_square_pocket
  = row_num (done_or (gcode_pocket_init 1) (sample_prep sample_odd)) ∧
  resolution sample_square_pocket
  = resolution (done_or (gcode_pocket_init 1) (sample_prep sample_odd)) ∧
  y <$> rows sample_square_pocket
  = y <$> rows (done_or (gcode_pocket_init 1) (sample_prep sample_odd)).
Proof.
  apply (prep_grids_of_one_material_align
           sample_qsort_asc (sample_remove_duplicates sample_precision)
           sample_qsort_asc (sample_remove_duplicates sample_precision)
           0 0 (0, 0) (0, 0) (row_of 0 [] 0) (row_of 0 [] 0)
           (gcode_pocket_init 1) (gcode_pocket_init 1) sample_gcode
           sample_tool sample_tool sample_square sample_odd).
  - reflexivity.
  - vm_compute. reflexivity.
  - vm_compute. reflexivity.
Defined.

(** ** gcode_pocket_subtract: full containment *)

Section containment_facts.

Variable eps : gfloat_t.
Hypothesis eps_nonneg : 0 <= eps.












End containment_facts.



Example sample_carved_lines :
  gcode_pocket_subtract sample_precision sample_outer sample_island
  = Done sample_carved ∧
  lines <$> rows sample_carved = [[(0, 3); (7, 10)]].
Proof. split; vm_compute; reflexivity. Qed.

Example sample_islands_carved :
  lines <$> rows (done_or sample_outer
                    (gcode_pocket_subtract sample_precision sample_outer sample_islands))
  = [[(0, 1); (2, 6); (7, 10)]].
Proof. vm_compute. reflexivity. Qed.

